(** * The hybrid voxel grid of MSF_LOAM (src/slam/hybrid_grid.cc)

    A shallow embedding of the three grid layers (FlatGrid, NestedGrid,
    DynamicGrid), of their skip-empty iterators, of HybridGridBase's
    metric rounding and of HybridGridImpl's InsertScan and
    GetSurroundedCloud, and of the bookkeeping of the GPS fusion
    (src/slam/gps_fusion/gps_fusion.cc), followed by the properties of
    the design document that are stated about them and by further
    properties of the code. *)

From Stdlib Require Import ZArith Lia Bool.
From Stdlib Require Import Floats.SpecFloat.
From stdpp Require Import base tactics option list numbers.

Local Open Scope Z_scope.

(** ** Eigen::Array3i and the int arithmetic used on it *)

Record Array3i : Type := A3 { ax : Z; ay : Z; az : Z }.

Global Instance Array3i_eq_dec : EqDecision Array3i.
Proof. solve_decision. Defined.

(** The value an [int] takes after an addition that leaves the 32-bit
    range (two's complement wrap-around). *)
Definition int32 (z : Z) : Z := (z + 2 ^ 31) mod 2 ^ 32 - 2 ^ 31.

(** [static_cast<unsigned int>] of an [int]. *)
Definition cast_unsigned (z : Z) : Z := z mod 2 ^ 32.

Definition is_int (z : Z) : Prop := - 2 ^ 31 <= z < 2 ^ 31.

Definition is_int3 (i : Array3i) : Prop :=
  is_int (ax i) /\ is_int (ay i) /\ is_int (az i).

(** Coefficient-wise operations with a scalar, as Eigen arrays have them. *)
Definition add_scalar (i : Array3i) (s : Z) : Array3i :=
  A3 (int32 (ax i + s)) (int32 (ay i + s)) (int32 (az i + s)).

Definition sub_scalar (i : Array3i) (s : Z) : Array3i :=
  A3 (ax i - s) (ay i - s) (az i - s).

Definition mul_scalar (i : Array3i) (s : Z) : Array3i :=
  A3 (ax i * s) (ay i * s) (az i * s).

(** Integer division of C++ truncates toward zero. *)
Definition div_scalar (i : Array3i) (s : Z) : Array3i :=
  A3 (Z.quot (ax i) s) (Z.quot (ay i) s) (Z.quot (az i) s).

Definition add3 (i j : Array3i) : Array3i :=
  A3 (ax i + ax j) (ay i + ay j) (az i + az j).

Definition sub3 (i j : Array3i) : Array3i :=
  A3 (ax i - ax j) (ay i - ay j) (az i - az j).

(** [(index >= 0).all() && (index < n).all()] *)
Definition in_cube (n : Z) (i : Array3i) : Prop :=
  (0 <= ax i < n) /\ (0 <= ay i < n) /\ (0 <= az i < n).

(** [(shifted_index.cast<unsigned int>() >= grid_size).any()] *)
Definition any_ge_unsigned (i : Array3i) (n : Z) : bool :=
  (n <=? cast_unsigned (ax i)) || (n <=? cast_unsigned (ay i))
  || (n <=? cast_unsigned (az i)).

(** ** Flat z-major indices *)

Definition ToFlatIndex (index : Array3i) (bits : Z) : Z :=
  Z.shiftl (Z.shiftl (az index) bits + ay index) bits + ax index.

Definition To3DIndex (index : Z) (bits : Z) : Array3i :=
  let mask := Z.shiftl 1 bits - 1 in
  A3 (Z.land index mask)
     (Z.land (Z.shiftr index bits) mask)
     (Z.shiftr (Z.shiftr index bits) bits).

(** ** Values with a default

    [ValueType()] and the function template [IsDefaultValue], which
    compares a value with it. *)

Class DefaultValue (V : Type) : Type := {
  default_value : V;
  IsDefaultValue : V -> bool;
  IsDefaultValue_spec : forall v, IsDefaultValue v = true <-> v = default_value
}.

(** ** What DynamicGrid and NestedGrid ask of a WrappedGrid

    The template parameter [WrappedGrid] is used through [grid_size()],
    its default constructor, [value], [mutable_value] and its [Iterator].
    A [ValueType*] returned by [mutable_value] is a [Slot]: the position
    of the cell inside the grid, read with [slot_get] and written with
    [slot_set]. An iterator's pointer pair is the part of the array
    between the two pointers; [iter_fuel] bounds the number of [Next]
    calls an iterator still admits. *)

Class Grid (V : Type) (G : Type) : Type := {
  GridSlot : Type;
  GridIterator : Type;
  grid_size : Z;
  grid_new : G;
  grid_value : G -> Array3i -> V;
  grid_mutable_value : G -> Array3i -> G * GridSlot;
  grid_slot_get : G -> GridSlot -> V;
  grid_slot_set : G -> GridSlot -> V -> G;
  iter_null : GridIterator;
  iter_begin : G -> GridIterator;
  iter_Done : GridIterator -> bool;
  iter_Next : GridIterator -> GridIterator;
  iter_GetCellIndex : GridIterator -> Array3i;
  iter_GetValue : GridIterator -> V;
  iter_fuel : GridIterator -> nat
}.

Global Arguments GridSlot {V} G {_}.
Global Arguments GridIterator {V} G {_}.
Global Arguments grid_size {V} G {_}.
Global Arguments grid_new {V} G {_}.
Global Arguments iter_null {V} G {_}.

(** [WrappedGrid::grid_size()] *)
Abbreviation wrapped_grid_size W := (grid_size W) (only parsing).

(** The loop [for (it = begin; !it.Done(); it.Next())] collecting
    [(it.GetCellIndex(), it.GetValue())]. *)
Fixpoint iter_collect {V G} `{Grid V G} (fuel : nat) (it : GridIterator G)
  : list (Array3i * V) :=
  match fuel with
  | O => []
  | S fuel' =>
      if iter_Done it then []
      else (iter_GetCellIndex it, iter_GetValue it)
             :: iter_collect fuel' (iter_Next it)
  end.

(** ** FlatGrid<TValueType, kBits> *)

Module FlatGrid.

Record t (V : Type) (kBits : Z) : Type := Build { cells_ : list V }.
Global Arguments Build {V kBits} _.
Global Arguments cells_ {V kBits} _.

Section Defs.
Context {V : Type} `{DefaultValue V} (kBits : Z).

Definition size : Z := Z.shiftl 1 kBits.

(** The constructor sets all [1 << (3 * kBits)] cells to [ValueType()]. *)
Definition new : t V kBits :=
  Build (replicate (Z.to_nat (Z.shiftl 1 (3 * kBits))) default_value).

(** [cells_[i]]; the source leaves an access outside the array undefined,
    here it reads [ValueType()]. *)
Definition cell (g : t V kBits) (i : Z) : V :=
  match cells_ g !! Z.to_nat i with
  | Some v => v
  | None => default_value
  end.

Definition value (g : t V kBits) (index : Array3i) : V :=
  cell g (ToFlatIndex index kBits).

Definition mutable_value (g : t V kBits) (index : Array3i)
  : t V kBits * nat :=
  (g, Z.to_nat (ToFlatIndex index kBits)).

Definition slot_get (g : t V kBits) (s : nat) : V := cell g (Z.of_nat s).

Definition slot_set (g : t V kBits) (s : nat) (v : V) : t V kBits :=
  Build (<[s := v]> (cells_ g)).

(** The iterator: [rest] is the range from [current_] to [end_]. *)
Record Iterator : Type := BuildIterator { rest : list V }.

(** [while (!Done() && IsDefaultValue( *current_)) ++current_;] *)
Fixpoint skip_default (l : list V) : list V :=
  match l with
  | [] => []
  | v :: l' => if IsDefaultValue v then skip_default l' else l
  end.

Definition null : Iterator := BuildIterator [].

Definition begin (g : t V kBits) : Iterator :=
  BuildIterator (skip_default (cells_ g)).

Definition Done (it : Iterator) : bool :=
  match rest it with [] => true | _ => false end.

Definition Next (it : Iterator) : Iterator :=
  BuildIterator (skip_default (tail (rest it))).

Definition GetCellIndex (it : Iterator) : Array3i :=
  let index := Z.shiftl 1 (3 * kBits) - Z.of_nat (length (rest it)) in
  To3DIndex index kBits.

Definition GetValue (it : Iterator) : V :=
  match rest it with
  | v :: _ => v
  | [] => default_value
  end.

End Defs.

End FlatGrid.

Global Instance FlatGrid_Grid {V} `{DefaultValue V} (kBits : Z)
  : Grid V (FlatGrid.t V kBits) := {|
  GridSlot := nat;
  GridIterator := FlatGrid.Iterator;
  grid_size := FlatGrid.size kBits;
  grid_new := FlatGrid.new kBits;
  grid_value := FlatGrid.value kBits;
  grid_mutable_value := FlatGrid.mutable_value kBits;
  grid_slot_get := FlatGrid.slot_get kBits;
  grid_slot_set := FlatGrid.slot_set kBits;
  iter_null := FlatGrid.null;
  iter_begin := FlatGrid.begin kBits;
  iter_Done := FlatGrid.Done;
  iter_Next := FlatGrid.Next;
  iter_GetCellIndex := FlatGrid.GetCellIndex kBits;
  iter_GetValue := FlatGrid.GetValue;
  iter_fuel := fun it => length (FlatGrid.rest it)
|}.

(** ** The meta cells of NestedGrid and of DynamicGrid

    Both classes keep an array of [std::unique_ptr<WrappedGrid>] and
    carry the same code for looking a meta cell up, for constructing it
    on first access and for the iterator over the wrapped grids. *)

Module MetaCells.

Section Defs.
Context {V W : Type} `{DefaultValue V} `{Grid V W}.

(** [meta_cells_[i].get()], [None] being the null pointer. *)
Definition get (cells : list (option W)) (i : Z) : option W :=
  match cells !! Z.to_nat i with
  | Some c => c
  | None => None
  end.

Definition GetMetaIndex (index : Array3i) : Array3i :=
  div_scalar index (grid_size W).

(** The tail of [value] from [GetMetaIndex] on. *)
Definition value (cells : list (option W)) (bits : Z) (index : Array3i) : V :=
  let meta_index := GetMetaIndex index in
  match get cells (ToFlatIndex meta_index bits) with
  | None => default_value
  | Some meta_cell =>
      let inner_index := sub3 index (mul_scalar meta_index (grid_size W)) in
      grid_value meta_cell inner_index
  end.

(** The tail of [mutable_value] from [GetMetaIndex] on. *)
Definition mutable_value (cells : list (option W)) (bits : Z)
  (index : Array3i) : list (option W) * (nat * GridSlot W) :=
  let meta_index := GetMetaIndex index in
  let k := Z.to_nat (ToFlatIndex meta_index bits) in
  let meta_cell :=
    match get cells (ToFlatIndex meta_index bits) with
    | None => grid_new W
    | Some w => w
    end in
  let inner_index := sub3 index (mul_scalar meta_index (grid_size W)) in
  let '(w', s) := grid_mutable_value meta_cell inner_index in
  (<[k := Some w']> cells, (k, s)).

Definition slot_get (cells : list (option W)) (s : nat * GridSlot W) : V :=
  match get cells (Z.of_nat (fst s)) with
  | Some w => grid_slot_get w (snd s)
  | None => default_value
  end.

Definition slot_set (cells : list (option W)) (s : nat * GridSlot W) (v : V)
  : list (option W) :=
  match get cells (Z.of_nat (fst s)) with
  | Some w => <[fst s := Some (grid_slot_set w (snd s) v)]> cells
  | None => cells
  end.

(** The iterator: [rest] is the range from [current_] to [end_]. *)
Record Iterator : Type := BuildIterator {
  rest : list (option W);
  nested_iterator_ : GridIterator W
}.

Fixpoint AdvanceToValidNestedIterator (rest : list (option W))
  (nested : GridIterator W) : Iterator :=
  match rest with
  | [] => BuildIterator [] nested
  | None :: rest' => AdvanceToValidNestedIterator rest' nested
  | Some w :: rest' =>
      let nested' := iter_begin w in
      if iter_Done nested' then AdvanceToValidNestedIterator rest' nested'
      else BuildIterator rest nested'
  end.

Definition null : Iterator := BuildIterator [] (iter_null W).

Definition begin (cells : list (option W)) : Iterator :=
  AdvanceToValidNestedIterator cells (iter_null W).

Definition Done (it : Iterator) : bool :=
  match rest it with [] => true | _ => false end.

Definition Next (it : Iterator) : Iterator :=
  let nested' := iter_Next (nested_iterator_ it) in
  if negb (iter_Done nested') then BuildIterator (rest it) nested'
  else AdvanceToValidNestedIterator (tail (rest it)) nested'.

(** [To3DIndex(index, bits) * WrappedGrid::grid_size() +
    nested_iterator_.GetCellIndex()] with
    [index = (1 << (3 * bits)) - (end_ - current_)]. *)
Definition GetCellIndex (bits : Z) (it : Iterator) : Array3i :=
  let index := Z.shiftl 1 (3 * bits) - Z.of_nat (length (rest it)) in
  add3 (mul_scalar (To3DIndex index bits) (grid_size W))
       (iter_GetCellIndex (nested_iterator_ it)).

Definition GetValue (it : Iterator) : V :=
  iter_GetValue (nested_iterator_ it).

Definition cell_fuel (c : option W) : nat :=
  match c with
  | Some w => iter_fuel (iter_begin w)
  | None => O
  end.

Definition fuel (it : Iterator) : nat :=
  match rest it with
  | [] => O
  | _ :: rest' =>
      (iter_fuel (nested_iterator_ it) + sum_list (map cell_fuel rest'))%nat
  end.

End Defs.

Global Arguments Iterator {V} W {_}.

End MetaCells.

(** ** NestedGrid<WrappedGrid, kBits> *)

Module NestedGrid.

Record t (W : Type) (kBits : Z) : Type :=
  Build { meta_cells_ : list (option W) }.
Global Arguments Build {W kBits} _.
Global Arguments meta_cells_ {W kBits} _.

Section Defs.
Context {V W : Type} `{DefaultValue V} `{Grid V W} (kBits : Z).

Definition size : Z := Z.shiftl (grid_size W) kBits.

(** An array of [1 << (3 * kBits)] null pointers. *)
Definition new : t W kBits :=
  Build (replicate (Z.to_nat (Z.shiftl 1 (3 * kBits))) None).

Definition value (g : t W kBits) (index : Array3i) : V :=
  MetaCells.value (meta_cells_ g) kBits index.

Definition mutable_value (g : t W kBits) (index : Array3i)
  : t W kBits * (nat * GridSlot W) :=
  let '(cells, s) := MetaCells.mutable_value (meta_cells_ g) kBits index in
  (Build cells, s).

Definition slot_get (g : t W kBits) (s : nat * GridSlot W) : V :=
  MetaCells.slot_get (meta_cells_ g) s.

Definition slot_set (g : t W kBits) (s : nat * GridSlot W) (v : V) : t W kBits :=
  Build (MetaCells.slot_set (meta_cells_ g) s v).

Definition begin (g : t W kBits) : MetaCells.Iterator W :=
  MetaCells.begin (meta_cells_ g).

End Defs.

End NestedGrid.

Global Instance NestedGrid_Grid {V W} `{DefaultValue V} `{Grid V W}
  (kBits : Z) : Grid V (NestedGrid.t W kBits) := {|
  GridSlot := nat * GridSlot W;
  GridIterator := MetaCells.Iterator W;
  grid_size := NestedGrid.size kBits;
  grid_new := NestedGrid.new kBits;
  grid_value := NestedGrid.value kBits;
  grid_mutable_value := NestedGrid.mutable_value kBits;
  grid_slot_get := NestedGrid.slot_get kBits;
  grid_slot_set := NestedGrid.slot_set kBits;
  iter_null := MetaCells.null;
  iter_begin := NestedGrid.begin kBits;
  iter_Done := MetaCells.Done;
  iter_Next := MetaCells.Next;
  iter_GetCellIndex := MetaCells.GetCellIndex kBits;
  iter_GetValue := MetaCells.GetValue;
  iter_fuel := MetaCells.fuel
|}.

(** ** How a call ends

    [Fatal] is a failed [CHECK] (the process aborts), [Undefined] the
    dereference of a null handle, [OutOfFuel] a recursion cut off by the
    model's fuel. *)

Inductive Outcome (A : Type) : Type :=
| Ok (a : A)
| Fatal
| Undefined
| OutOfFuel.
Global Arguments Ok {A} _.
Global Arguments Fatal {A}.
Global Arguments Undefined {A}.
Global Arguments OutOfFuel {A}.

Global Instance Outcome_ret : MRet Outcome := fun A a => Ok a.

Global Instance Outcome_bind : MBind Outcome := fun A B k m =>
  match m with
  | Ok a => k a
  | Fatal => Fatal
  | Undefined => Undefined
  | OutOfFuel => OutOfFuel
  end.

(** ** DynamicGrid<WrappedGrid> *)

Module DynamicGrid.

Record t (W : Type) : Type :=
  Build { bits_ : Z; meta_cells_ : list (option W) }.
Global Arguments Build {W} _ _.
Global Arguments bits_ {W} _.
Global Arguments meta_cells_ {W} _.

Section Defs.
Context {V W : Type} `{DefaultValue V} `{Grid V W}.

(** [DynamicGrid() : bits_(1), meta_cells_(8)] *)
Definition new : t W := Build 1 (replicate 8 None).

Definition grid_size (g : t W) : Z := Z.shiftl (grid_size W) (bits_ g).

Definition shifted_index (g : t W) (index : Array3i) : Array3i :=
  add_scalar index (Z.shiftr (grid_size g) 1).

Definition value (g : t W) (index : Array3i) : V :=
  if any_ge_unsigned (shifted_index g index) (grid_size g) then default_value
  else MetaCells.value (meta_cells_ g) (bits_ g) (shifted_index g index).

(** The body of the innermost loop of [Grow]. Every source cell is moved
    from once, so the null pointer a [std::move] leaves behind is never
    read and the old array is taken as it was. *)
Definition move_cell (g : t W) (new_bits : Z) (z y x : Z)
  (new_meta_cells : list (option W)) : list (option W) :=
  let original_meta_index := A3 x y z in
  let new_meta_index :=
    add_scalar original_meta_index (Z.shiftl 1 (bits_ g - 1)) in
  <[Z.to_nat (ToFlatIndex new_meta_index new_bits) :=
      MetaCells.get (meta_cells_ g) (ToFlatIndex original_meta_index (bits_ g))]>
    new_meta_cells.

(** [None] when [CHECK_LE(new_bits, 8)] fails. *)
Definition Grow (g : t W) : option (t W) :=
  let new_bits := bits_ g + 1 in
  if 8 <? new_bits then None
  else
    let n := Z.shiftl 1 (bits_ g) in
    let new_meta_cells :=
      fold_left (fun cells z =>
        fold_left (fun cells y =>
          fold_left (fun cells x => move_cell g new_bits z y x cells)
                    (seqZ 0 n) cells)
          (seqZ 0 n) cells)
        (seqZ 0 n) (replicate (8 * length (meta_cells_ g)) None) in
    Some (Build new_bits new_meta_cells).

(** [mutable_value] calls itself after every [Grow]; [fuel] bounds the
    number of these calls. *)
Fixpoint mutable_value_fuel (fuel : nat) (g : t W) (index : Array3i)
  : Outcome (t W * (nat * GridSlot W)) :=
  if any_ge_unsigned (shifted_index g index) (grid_size g) then
    match Grow g with
    | None => Fatal
    | Some g' =>
        match fuel with
        | O => OutOfFuel
        | S fuel' => mutable_value_fuel fuel' g' index
        end
    end
  else
    let '(cells, s) :=
      MetaCells.mutable_value (meta_cells_ g) (bits_ g) (shifted_index g index)
    in Ok (Build (bits_ g) cells, s).

Definition mutable_value (g : t W) (index : Array3i)
  : Outcome (t W * (nat * GridSlot W)) :=
  mutable_value_fuel 8 g index.

Definition slot_get (g : t W) (s : nat * GridSlot W) : V :=
  MetaCells.slot_get (meta_cells_ g) s.

Definition slot_set (g : t W) (s : nat * GridSlot W) (v : V) : t W :=
  Build (bits_ g) (MetaCells.slot_set (meta_cells_ g) s v).

(** [*mutable_value(index) = v] *)
Definition write (g : t W) (index : Array3i) (v : V) : Outcome (t W) :=
  '(g', s) ← mutable_value g index; Ok (slot_set g' s v).

Record Iterator : Type := BuildIterator {
  it_bits_ : Z;
  it_meta : MetaCells.Iterator W
}.

Definition begin (g : t W) : Iterator :=
  BuildIterator (bits_ g) (MetaCells.begin (meta_cells_ g)).

Definition Next (it : Iterator) : Iterator :=
  BuildIterator (it_bits_ it) (MetaCells.Next (it_meta it)).

Definition Done (it : Iterator) : bool := MetaCells.Done (it_meta it).

Definition GetCellIndex (it : Iterator) : Array3i :=
  let shifted_index := MetaCells.GetCellIndex (it_bits_ it) (it_meta it) in
  sub_scalar shifted_index
    (Z.shiftl 1 (it_bits_ it - 1) * wrapped_grid_size W).

Definition GetValue (it : Iterator) : V := MetaCells.GetValue (it_meta it).

Definition AdvanceToEnd (it : Iterator) : Iterator :=
  BuildIterator (it_bits_ it)
    (MetaCells.BuildIterator [] (MetaCells.nested_iterator_ (it_meta it))).

(** [operator*] *)
Definition deref (it : Iterator) : Array3i * V :=
  (GetCellIndex it, GetValue it).

(** [operator!=] compares the two [current_] pointers; within one array
    they differ exactly when the ranges up to [end_] differ in length. *)
Definition neq (it1 it2 : Iterator) : bool :=
  negb (length (MetaCells.rest (it_meta it1))
        =? length (MetaCells.rest (it_meta it2)))%nat.

(** [end()] of HybridGridBase. *)
Definition end_ (g : t W) : Iterator := AdvanceToEnd (begin g).

Fixpoint iterate_fuel (fuel : nat) (it last : Iterator)
  : list (Array3i * V) :=
  match fuel with
  | O => []
  | S fuel' =>
      if neq last it then deref it :: iterate_fuel fuel' (Next it) last
      else []
  end.

(** What [for (const auto& cell : grid)] visits. *)
Definition iterate (g : t W) : list (Array3i * V) :=
  iterate_fuel (S (MetaCells.fuel (it_meta (begin g)))) (begin g) (end_ g).

End Defs.

End DynamicGrid.

(** [using GridBase = DynamicGrid<NestedGrid<FlatGrid<ValueType, 3>, 3>>] *)
Definition GridBase (V : Type) : Type :=
  DynamicGrid.t (NestedGrid.t (FlatGrid.t V 3) 3).

(** ** Single precision numbers

    A [float] is a binary32 number; Rocq's [spec_float] at precision 24
    and maximal exponent 128 gives its arithmetic. *)

Definition float : Type := spec_float.

Definition float_div (x y : float) : float := SFdiv 24 128 x y.

(** [Eigen::Vector3f] and [Eigen::Array3f] *)
Record Vector3f : Type := V3f { vx : float; vy : float; vz : float }.

(** [kDist = 100.0]: 100 is [13107200 * 2^-17]. The source compares a
    float with this double; the conversion of a float to double is exact,
    so the two are compared as the numbers they are. *)
Definition kDist : float := S754_finite false 13107200 (-17).

(** [std::lround] on a finite number [(-1)^s * m * 2^e]: the nearest
    integer, halfway cases away from zero. *)
Definition lround_finite (s : bool) (m : positive) (e : Z) : Z :=
  let magnitude :=
    if 0 <=? e then Z.pos m * 2 ^ e
    else (Z.pos m + 2 ^ (- e - 1)) / 2 ^ (- e) in
  if s then - magnitude else magnitude.

(** ** PointCloudPtr

    A [PointCloudPtr] is a shared pointer: [None] is the null pointer,
    [Some a] points to the cloud at address [a] of the heap. *)

Abbreviation PointCloudPtr := (option nat).

Global Program Instance PointCloudPtr_default : DefaultValue PointCloudPtr := {|
  default_value := None;
  IsDefaultValue := fun v => match v with None => true | Some _ => false end
|}.
Next Obligation. intros [a|]; split; congruence. Qed.

(** ** HybridGridBase<ValueType> and HybridGridImpl *)

(** The result of [std::lround] where the C standard leaves it
    unspecified: for a NaN, an infinity, or a number whose rounding does
    not fit a [long]. *)
Class Lround : Type := lround_unspecified : Z.

(** What the code takes from PCL, Eigen and Boost: the coordinates of a
    point of the clouds, the rigid transforms with
    [pose.cast<float>() * v], Eigen's [norm()], the downsampling a
    [pcl::Filter] computes, and the order in which a
    [boost::unordered_set] of handles is traversed after the handles of
    a list were inserted one by one. *)
Class PointCloudLibrary (PointType : Type) : Type := {
  getVector3fMap : PointType -> Vector3f;
  Rigid3d : Type;
  transform : Rigid3d -> Vector3f -> Vector3f;
  norm : Vector3f -> float;
  filter : list PointType -> list PointType;
  unordered_set : list nat -> list nat
}.

Section HybridGrid.

Context {libc : Lround} {PointType : Type}
  {pcl : PointCloudLibrary PointType}.

Definition lround (n : float) : Z :=
  match n with
  | S754_zero _ => 0
  | S754_finite s m e =>
      let r := lround_finite s m e in
      if (- 2 ^ 63 <=? r) && (r <? 2 ^ 63) then r else lround_unspecified
  | _ => lround_unspecified
  end.

(** [static int RoundToInt(double n) { return std::lround(n); }]: the
    [long] is converted to [int]. *)
Definition RoundToInt (n : float) : Z := int32 (lround n).

Definition GetCellIndex (resolution_ : float) (point : Vector3f) : Array3i :=
  let index :=
    V3f (float_div (vx point) resolution_) (float_div (vy point) resolution_)
        (float_div (vz point) resolution_) in
  A3 (RoundToInt (vx index)) (RoundToInt (vy index)) (RoundToInt (vz index)).

(** [static_cast<bool>(i & mask)] *)
Definition bit_set (i mask : Z) : Z :=
  if Z.land i mask =? 0 then 0 else 1.

Definition GetOctant (i : Z) : Array3i :=
  A3 (bit_set i 1) (bit_set i 2) (bit_set i 4).

(** [pcl::PointCloud<PointType>] *)
Local Abbreviation PointCloud := (list PointType).

(** The object with the part of the heap that holds point clouds:
    [resolution_], the inherited grid, and the clouds by address. A new
    cloud takes the next address. *)
Record State : Type := BuildState {
  resolution_ : float;
  grid_ : GridBase PointCloudPtr;
  heap_ : list PointCloud
}.

(** [HybridGridImpl(resolution)] *)
Definition HybridGridImpl (resolution : float) (heap : list PointCloud)
  : State :=
  BuildState resolution DynamicGrid.new heap.

(** [*ptr] *)
Definition deref (heap : list PointCloud) (p : PointCloudPtr)
  : Outcome PointCloud :=
  match p with
  | None => Undefined
  | Some a =>
      match heap !! a with
      | Some cloud => Ok cloud
      | None => Undefined
      end
  end.

(** The cloud at an address that is known to be allocated. *)
Definition cloud_at (heap : list PointCloud) (a : nat) : PointCloud :=
  match heap !! a with
  | Some cloud => cloud
  | None => []
  end.

(** The body of the first loop of [InsertScan], which runs over the
    points of [*scan]. A [push_back] on the cloud the loop is running over
    ends the validity of the iterators of the loop. *)
Definition insert_point (scan : PointCloudPtr) (st : State)
  (point : PointType) : Outcome State :=
  '(g, slot) ← DynamicGrid.mutable_value (grid_ st)
                 (GetCellIndex (resolution_ st) (getVector3fMap point));
  let '(g, a, heap) :=
    match DynamicGrid.slot_get g slot with
    | Some a => (g, a, heap_ st)
    | None =>
        let a := length (heap_ st) in
        (DynamicGrid.slot_set g slot (Some a), a, heap_ st ++ [[]])
    end in
  if decide (scan = Some a) then Undefined
  else
    Ok (BuildState (resolution_ st) g
          (alter (fun cloud => cloud ++ [point]) a heap)).

Fixpoint insert_points (scan : PointCloudPtr) (st : State)
  (points : list PointType) : Outcome State :=
  match points with
  | [] => Ok st
  | point :: points' =>
      st' ← insert_point scan st point; insert_points scan st' points'
  end.

(** The handles the second loop of [InsertScan] puts into
    [inserted_grids], in the order of the scan. *)
Definition inserted_by_scan (st : State) (scan : list PointType) : list nat :=
  omap (fun point =>
          DynamicGrid.value (grid_ st)
            (GetCellIndex (resolution_ st) (getVector3fMap point)))
       scan.

(** [filter.setInputCloud(cloud); filter.filter( *cloud);] for every
    handle of the set. *)
Definition filter_clouds (heap : list PointCloud) (handles : list nat)
  : list PointCloud :=
  fold_left (fun heap a => alter filter a heap) handles heap.

(** [InsertScan] returns the new state and, in order, the clouds the
    filter ran on. *)
Definition InsertScan (st : State) (scan : PointCloudPtr)
  : Outcome (State * list nat) :=
  points ← deref (heap_ st) scan;
  match points with
  | [] => Ok (st, [])
  | _ =>
      st' ← insert_points scan st points;
      let inserted_grids := unordered_set (inserted_by_scan st' points) in
      Ok (BuildState (resolution_ st') (grid_ st')
            (filter_clouds (heap_ st') inserted_grids),
          inserted_grids)
  end.

(** The handle the loop of [GetSurroundedCloud] inserts for one point of
    the scan, if any. *)
Definition surrounding_cloud (st : State) (pose : Rigid3d) (point : PointType)
  : PointCloudPtr :=
  if SFltb kDist (norm (getVector3fMap point)) then None
  else
    let new_point := transform pose (getVector3fMap point) in
    DynamicGrid.value (grid_ st) (GetCellIndex (resolution_ st) new_point).

Definition inserted_grids (st : State) (pose : Rigid3d) (scan : list PointType)
  : list nat :=
  unordered_set (omap (surrounding_cloud st pose) scan).

(** [GetSurroundedCloud] returns the new state, in which the cloud it
    made is allocated, and the handle of that cloud. *)
Definition GetSurroundedCloud (st : State) (scan : PointCloudPtr)
  (pose : Rigid3d) : Outcome (State * PointCloudPtr) :=
  points ← deref (heap_ st) scan;
  let cloud_surround :=
    concat (map (cloud_at (heap_ st)) (inserted_grids st pose points)) in
  Ok (BuildState (resolution_ st) (grid_ st) (heap_ st ++ [cloud_surround]),
      Some (length (heap_ st))).

End HybridGrid.

Global Arguments State : clear implicits.

(** * The GPS fusion (src/slam/gps_fusion/gps_fusion.cc)

    [AddFixedPoint], [AddLocalPose], and of [Optimize] the guards at its
    head and the search of the two local poses around a fixed point. A
    [Time] is taken as the number of ticks of its clock; the translation
    of a fixed point and the pose of a local pose are not looked at. *)

Module GpsFusion.

Section Defs.
Context {Translation Pose : Type}.

Record FixedPoint : Type := BuildFixedPoint {
  fp_timestamp : Z;
  translation : Translation
}.

Record LocalPose : Type := BuildLocalPose {
  lp_timestamp : Z;
  pose : Pose
}.

Record t : Type := Build {
  fixed_points_ : list FixedPoint;
  local_poses_ : list LocalPose
}.

Definition new : t := Build [] [].


(** [CHECK(fixed_points_.empty() || fixed_points_.back().timestamp < time)]
    and the [push_back]. *)
Definition AddFixedPoint (g : t) (time : Z) (translation : Translation)
  : Outcome t :=
  let ok :=
    match list.last (fixed_points_ g) with
    | None => true
    | Some back => fp_timestamp back <? time
    end in
  if ok then
    Ok (Build (fixed_points_ g ++ [BuildFixedPoint time translation])
              (local_poses_ g))
  else Fatal.

Definition AddLocalPose (g : t) (time : Z) (pose : Pose) : Outcome t :=
  let ok :=
    match list.last (local_poses_ g) with
    | None => true
    | Some back => lp_timestamp back <? time
    end in
  if ok then
    Ok (Build (fixed_points_ g)
              (local_poses_ g ++ [BuildLocalPose time pose]))
  else Fatal.




End Defs.

Global Arguments FixedPoint : clear implicits.
Global Arguments LocalPose : clear implicits.
Global Arguments t : clear implicits.

End GpsFusion.


(** * Properties *)

(** ** Index arithmetic *)



Lemma int32_small z : is_int z -> int32 z = z.
Proof.
  unfold is_int, int32. intros H.
  rewrite Z.mod_small by lia. lia.
Qed.

Lemma cast_unsigned_int32 z : cast_unsigned (int32 z) = cast_unsigned z.
Proof.
  unfold cast_unsigned, int32.
  rewrite Zminus_mod_idemp_l.
  replace (z + 2 ^ 31 - 2 ^ 31) with z by lia. reflexivity.
Qed.

Lemma cast_unsigned_range z : 0 <= cast_unsigned z < 2 ^ 32.
Proof. unfold cast_unsigned. apply Z.mod_pos_bound. lia. Qed.

(** The unsigned comparison is the two-sided range check the source's
    comment promises, for every [int] input and every positive bound
    that fits an [int]. *)
Lemma unsigned_check z s n :
  is_int z -> 0 <= s -> 0 < n -> n < 2 ^ 31 -> s < 2 ^ 31 ->
  (n <=? cast_unsigned (int32 (z + s))) = false <-> 0 <= z + s < n.
Proof.
  unfold is_int. intros Hz Hs Hn Hn' Hs'.
  rewrite cast_unsigned_int32, Z.leb_gt. unfold cast_unsigned.
  split.
  - intros H.
    destruct (Z_lt_dec (z + s) 0) as [Hneg|Hpos].
    + replace (z + s) with (z + s + 2 ^ 32 + (-1) * 2 ^ 32) in H by lia.
      rewrite Z.mod_add in H by lia.
      rewrite Z.mod_small in H by lia. lia.
    + rewrite Z.mod_small in H by lia. lia.
  - intros H. rewrite Z.mod_small by lia. lia.
Qed.

Lemma ToFlatIndex_eq index bits :
  0 <= bits ->
  ToFlatIndex index bits
  = (az index * 2 ^ bits + ay index) * 2 ^ bits + ax index.
Proof.
  intros Hb. unfold ToFlatIndex.
  rewrite !Z.shiftl_mul_pow2 by assumption. reflexivity.
Qed.

Lemma ToFlatIndex_range index bits :
  0 <= bits -> in_cube (2 ^ bits) index ->
  0 <= ToFlatIndex index bits < 2 ^ (3 * bits).
Proof.
  intros Hb (Hx & Hy & Hz). rewrite ToFlatIndex_eq by assumption.
  replace (3 * bits) with (bits + bits + bits) by lia.
  rewrite !Z.pow_add_r by lia.
  assert (0 < 2 ^ bits) by (apply Z.pow_pos_nonneg; lia).
  nia.
Qed.

Lemma To3DIndex_eq index bits :
  0 <= bits ->
  To3DIndex index bits
  = A3 (index mod 2 ^ bits) ((index / 2 ^ bits) mod 2 ^ bits)
       (index / 2 ^ bits / 2 ^ bits).
Proof.
  intros Hb. unfold To3DIndex.
  change (Z.shiftl 1 bits - 1) with (Z.ones bits).
  rewrite !Z.land_ones, !Z.shiftr_div_pow2 by assumption. reflexivity.
Qed.

Lemma To3DIndex_ToFlatIndex index bits :
  0 <= bits -> in_cube (2 ^ bits) index ->
  To3DIndex (ToFlatIndex index bits) bits = index.
Proof.
  intros Hb (Hx & Hy & Hz).
  rewrite To3DIndex_eq, ToFlatIndex_eq by assumption.
  destruct index as [x y z]; simpl in *.
  assert (0 < 2 ^ bits) by (apply Z.pow_pos_nonneg; lia).
  assert (E1 : ((z * 2 ^ bits + y) * 2 ^ bits + x) / 2 ^ bits
               = z * 2 ^ bits + y).
  { rewrite Z.div_add_l by lia. rewrite Z.div_small by lia. lia. }
  rewrite E1. f_equal.
  - rewrite Z.add_comm, Z.mod_add by lia. apply Z.mod_small; lia.
  - rewrite Z.add_comm, Z.mod_add by lia. apply Z.mod_small; lia.
  - rewrite Z.div_add_l by lia. rewrite Z.div_small by lia. lia.
Qed.

Lemma To3DIndex_in_cube index bits :
  0 <= bits -> 0 <= index < 2 ^ (3 * bits) ->
  in_cube (2 ^ bits) (To3DIndex index bits).
Proof.
  intros Hb Hi. rewrite To3DIndex_eq by assumption.
  assert (0 < 2 ^ bits) by (apply Z.pow_pos_nonneg; lia).
  replace (3 * bits) with (bits + bits + bits) in Hi by lia.
  rewrite !Z.pow_add_r in Hi by lia.
  unfold in_cube; simpl. repeat split.
  - apply Z.mod_pos_bound; lia.
  - apply Z.mod_pos_bound; lia.
  - apply Z.mod_pos_bound; lia.
  - apply Z.mod_pos_bound; lia.
  - apply Z.div_pos; [apply Z.div_pos|]; lia.
  - apply Z.div_lt_upper_bound; [lia|].
    apply Z.div_lt_upper_bound; [lia|]. nia.
Qed.

Lemma ToFlatIndex_To3DIndex index bits :
  0 <= bits -> 0 <= index < 2 ^ (3 * bits) ->
  ToFlatIndex (To3DIndex index bits) bits = index.
Proof.
  intros Hb Hi. rewrite To3DIndex_eq, ToFlatIndex_eq by assumption.
  simpl.
  assert (0 < 2 ^ bits) by (apply Z.pow_pos_nonneg; lia).
  pose proof (Z.div_mod index (2 ^ bits)) as E1.
  pose proof (Z.div_mod (index / 2 ^ bits) (2 ^ bits)) as E2.
  lia.
Qed.

Lemma ToFlatIndex_inj i j bits :
  0 <= bits -> in_cube (2 ^ bits) i -> in_cube (2 ^ bits) j ->
  ToFlatIndex i bits = ToFlatIndex j bits -> i = j.
Proof.
  intros Hb Hi Hj E.
  rewrite <- (To3DIndex_ToFlatIndex i bits), <- (To3DIndex_ToFlatIndex j bits)
    by assumption.
  now rewrite E.
Qed.


Lemma shiftl_1_pow2 bits : 0 <= bits -> Z.shiftl 1 bits = 2 ^ bits.
Proof. intros Hb. rewrite Z.shiftl_mul_pow2 by assumption. lia. Qed.

Lemma pow2_pos bits : 0 <= bits -> 0 < 2 ^ bits.
Proof. intros Hb. apply Z.pow_pos_nonneg; lia. Qed.

Lemma pow2_cube bits :
  0 <= bits -> 2 ^ (3 * bits) = 2 ^ bits * 2 ^ bits * 2 ^ bits.
Proof.
  intros Hb. replace (3 * bits) with (bits + bits + bits) by lia.
  now rewrite !Z.pow_add_r by lia.
Qed.

Lemma To3DIndex_inj i j bits :
  0 <= bits -> 0 <= i < 2 ^ (3 * bits) -> 0 <= j < 2 ^ (3 * bits) ->
  To3DIndex i bits = To3DIndex j bits -> i = j.
Proof.
  intros Hb Hi Hj E.
  rewrite <- (ToFlatIndex_To3DIndex i bits), <- (ToFlatIndex_To3DIndex j bits)
    by assumption.
  now rewrite E.
Qed.

(** The split of an index into the meta index and the inner index. *)
Lemma meta_inner_split (S n x : Z) :
  0 < S -> 0 <= x < S * n ->
  0 <= Z.quot x S < n /\ 0 <= x - Z.quot x S * S < S.
Proof.
  intros HS Hx. rewrite Z.quot_div_nonneg by lia.
  pose proof (Z.div_mod x S ltac:(lia)) as E.
  pose proof (Z.mod_pos_bound x S HS) as Hm.
  assert (0 <= x / S) by (apply Z.div_pos; lia).
  assert (x / S < n) by (apply Z.div_lt_upper_bound; lia).
  lia.
Qed.

Lemma meta_inner_unique (S m r m' r' : Z) :
  0 <= r < S -> 0 <= r' < S -> m * S + r = m' * S + r' -> m = m' /\ r = r'.
Proof.
  intros Hr Hr' E.
  assert (m = m'); [|subst; lia].
  destruct (Z.lt_trichotomy m m') as [Hlt|[Heq|Hgt]]; [|assumption|].
  - assert (m + 1 <= m') by lia. nia.
  - assert (m' + 1 <= m) by lia. nia.
Qed.

(** ** What the layers above rely on in a wrapped grid

    [grid_wf] is the shape the constructors establish (array sizes),
    [slot_of g s i] says that the slot [s] is the cell of [g] at index
    [i], [iter_valid] holds of the iterators reached from [iter_begin],
    and [grid_cells] lists the cells that differ from the default in the
    order of the arrays. *)

(** The entry an iteration yields at index [i], if the value there is
    not the default. *)
Definition cell_entry {V : Type} `{DefaultValue V} (val : Array3i -> V)
  (i : Array3i) : option (Array3i * V) :=
  if IsDefaultValue (val i) then None else Some (i, val i).

Class GridLaws (V G : Type) `{DefaultValue V} `{Grid V G} : Type := {
  grid_wf : G -> Prop;
  slot_of : G -> GridSlot G -> Array3i -> Prop;
  iter_valid : GridIterator G -> Prop;
  grid_cells : G -> list (Array3i * V);
  grid_order : list Array3i;
  grid_size_pos : 0 < grid_size G;
  grid_new_wf : grid_wf (grid_new G);
  grid_new_value : forall i, grid_value (grid_new G) i = default_value;
  grid_mutable_value_spec : forall g i g' s,
    grid_wf g -> in_cube (grid_size G) i -> grid_mutable_value g i = (g', s) ->
    grid_wf g' /\ slot_of g' s i /\
    (forall j, in_cube (grid_size G) j -> grid_value g' j = grid_value g j);
  grid_slot_get_spec : forall g s i,
    grid_wf g -> slot_of g s i -> grid_slot_get g s = grid_value g i;
  grid_slot_set_spec : forall g s i v,
    grid_wf g -> in_cube (grid_size G) i -> slot_of g s i ->
    grid_wf (grid_slot_set g s v) /\ slot_of (grid_slot_set g s v) s i /\
    (forall j, in_cube (grid_size G) j ->
       grid_value (grid_slot_set g s v) j
       = if decide (j = i) then v else grid_value g j);
  iter_begin_valid : forall g, grid_wf g -> iter_valid (iter_begin g);
  iter_Next_valid : forall it,
    iter_valid it -> iter_Done it = false ->
    iter_valid (iter_Next it) /\ (iter_fuel (iter_Next it) < iter_fuel it)%nat;
  iter_begin_collect : forall g,
    grid_wf g ->
    iter_collect (iter_fuel (iter_begin g)) (iter_begin g) = grid_cells g;
  grid_cells_NoDup : forall g, grid_wf g -> NoDup (grid_cells g).*1;
  grid_cells_spec : forall g i v,
    grid_wf g ->
    (i, v) ∈ grid_cells g
    <-> in_cube (grid_size G) i /\ grid_value g i = v /\ v <> default_value;
  grid_order_in_cube : forall i, i ∈ grid_order -> in_cube (grid_size G) i;
  grid_cells_order : forall g,
    grid_wf g -> grid_cells g = omap (cell_entry (grid_value g)) grid_order
}.

Global Arguments grid_wf {V G _ _ _} _.
Global Arguments grid_cells {V G _ _ _} _.
Global Arguments grid_order {V} G {_ _ _}.

Section IterCollect.
Context {V G : Type} `{GridLaws V G}.

(** Fuel beyond [iter_fuel] changes nothing. *)
Lemma iter_collect_enough (n m : nat) (it : GridIterator G) :
  iter_valid it -> (iter_fuel it <= n)%nat -> (iter_fuel it <= m)%nat ->
  iter_collect n it = iter_collect m it.
Proof.
  revert m it. induction n as [|n IH]; intros [|m] it Hv Hn Hm; simpl; try done.
  - destruct (iter_Done it) eqn:E; [done|].
    destruct (iter_Next_valid it Hv E). lia.
  - destruct (iter_Done it) eqn:E; [done|].
    destruct (iter_Next_valid it Hv E). lia.
  - destruct (iter_Done it) eqn:E; [done|].
    destruct (iter_Next_valid it Hv E) as [Hv' Hf].
    f_equal. apply IH; [done|lia|lia].
Qed.

Lemma iter_collect_Done (n : nat) (it : GridIterator G) :
  iter_Done it = true -> iter_collect n it = [].
Proof. intros E. destruct n; simpl; [done|]. now rewrite E. Qed.

Lemma iter_collect_step (it : GridIterator G) :
  iter_valid it -> iter_Done it = false ->
  iter_collect (iter_fuel it) it
  = (iter_GetCellIndex it, iter_GetValue it)
      :: iter_collect (iter_fuel (iter_Next it)) (iter_Next it).
Proof.
  intros Hv E. destruct (iter_Next_valid it Hv E) as [Hv' Hf].
  destruct (iter_fuel it) as [|n] eqn:En; [lia|].
  simpl. rewrite E. f_equal. apply iter_collect_enough; [done|lia|lia].
Qed.

End IterCollect.

(** ** FlatGrid *)

Section FlatGridFacts.
Context {V : Type} `{DefaultValue V} (kBits : Z).
Hypothesis kBits_nonneg : 0 <= kBits.

Local Abbreviation N := (Z.shiftl 1 (3 * kBits)).

Definition FlatGrid_wf (g : FlatGrid.t V kBits) : Prop :=
  length (FlatGrid.cells_ g) = Z.to_nat (2 ^ (3 * kBits)).

Definition FlatGrid_slot_of (g : FlatGrid.t V kBits) (s : nat) (i : Array3i)
  : Prop :=
  s = Z.to_nat (ToFlatIndex i kBits).

Definition FlatGrid_iter_valid (it : FlatGrid.Iterator) : Prop :=
  match FlatGrid.rest it with
  | [] => True
  | v :: _ => IsDefaultValue v = false
  end.

(** The cells of the range [l] that end the array, skipping defaults. *)
Fixpoint FlatGrid_cells_from (l : list V) : list (Array3i * V) :=
  match l with
  | [] => []
  | v :: l' =>
      (if IsDefaultValue v then []
       else [(To3DIndex (N - Z.of_nat (length l)) kBits, v)])
      ++ FlatGrid_cells_from l'
  end.

Definition FlatGrid_cells (g : FlatGrid.t V kBits) : list (Array3i * V) :=
  FlatGrid_cells_from (FlatGrid.cells_ g).

Lemma FlatGrid_N_eq : N = 2 ^ (3 * kBits).
Proof. apply shiftl_1_pow2. lia. Qed.

Lemma FlatGrid_size_eq : FlatGrid.size kBits = 2 ^ kBits.
Proof. apply shiftl_1_pow2. lia. Qed.

Lemma FlatGrid_new_wf : FlatGrid_wf (FlatGrid.new kBits).
Proof.
  unfold FlatGrid_wf, FlatGrid.new. simpl.
  now rewrite length_replicate, FlatGrid_N_eq.
Qed.

Lemma FlatGrid_new_value i :
  FlatGrid.value kBits (FlatGrid.new kBits) i = default_value.
Proof.
  unfold FlatGrid.value, FlatGrid.cell, FlatGrid.new. simpl.
  destruct (replicate _ _ !! _) as [v|] eqn:E; [|done].
  apply lookup_replicate in E. tauto.
Qed.

Lemma FlatGrid_flat_nat i :
  in_cube (2 ^ kBits) i ->
  (Z.to_nat (ToFlatIndex i kBits) < Z.to_nat (2 ^ (3 * kBits)))%nat.
Proof. intros Hi. pose proof (ToFlatIndex_range i kBits kBits_nonneg Hi). lia. Qed.

Lemma FlatGrid_slot_set_value g s i v j :
  FlatGrid_wf g -> in_cube (2 ^ kBits) i -> FlatGrid_slot_of g s i ->
  in_cube (2 ^ kBits) j ->
  FlatGrid.value kBits (FlatGrid.slot_set kBits g s v) j
  = if decide (j = i) then v else FlatGrid.value kBits g j.
Proof.
  intros Hwf Hi -> Hj.
  unfold FlatGrid.value, FlatGrid.cell, FlatGrid.slot_set. simpl.
  pose proof (FlatGrid_flat_nat i Hi) as Hlt.
  destruct (decide (j = i)) as [->|Hne].
  - rewrite list_lookup_insert_eq; [done|]. unfold FlatGrid_wf in Hwf. lia.
  - rewrite list_lookup_insert_ne; [done|].
    intros E. apply Hne.
    apply (ToFlatIndex_inj j i kBits); try done.
    pose proof (ToFlatIndex_range i kBits kBits_nonneg Hi).
    pose proof (ToFlatIndex_range j kBits kBits_nonneg Hj). lia.
Qed.

Lemma FlatGrid_skip_default_valid l :
  FlatGrid_iter_valid (FlatGrid.BuildIterator (FlatGrid.skip_default l)).
Proof.
  unfold FlatGrid_iter_valid. simpl.
  induction l as [|v l IH]; simpl; [done|].
  destruct (IsDefaultValue v) eqn:E; [done|]. simpl. done.
Qed.

Lemma FlatGrid_skip_default_length l :
  (length (FlatGrid.skip_default l) <= length l)%nat.
Proof.
  induction l as [|v l IH]; simpl; [done|].
  destruct (IsDefaultValue v); simpl; lia.
Qed.

Lemma FlatGrid_cells_from_skip l :
  FlatGrid_cells_from (FlatGrid.skip_default l) = FlatGrid_cells_from l.
Proof.
  induction l as [|v l IH]; simpl; [done|].
  destruct (IsDefaultValue v) eqn:E; simpl; [done|]. now rewrite E.
Qed.

Lemma FlatGrid_collect_from (n : nat) l :
  (length l <= n)%nat ->
  iter_collect n (FlatGrid.BuildIterator (FlatGrid.skip_default l)
                  : GridIterator (FlatGrid.t V kBits))
  = FlatGrid_cells_from l.
Proof.
  revert l. induction n as [|n IH]; intros l Hn.
  - destruct l; simpl in *; [done|lia].
  - rewrite <- FlatGrid_cells_from_skip.
    pose proof (FlatGrid_skip_default_valid l) as Hv.
    pose proof (FlatGrid_skip_default_length l) as Hl.
    unfold FlatGrid_iter_valid in Hv. simpl in *.
    destruct (FlatGrid.skip_default l) as [|v l'] eqn:E; simpl; [done|].
    unfold FlatGrid.Done, FlatGrid.GetCellIndex, FlatGrid.GetValue,
      FlatGrid.Next. simpl.
    rewrite Hv. simpl. f_equal. apply IH. simpl in Hl. lia.
Qed.

Lemma FlatGrid_cells_from_spec l i v :
  (i, v) ∈ FlatGrid_cells_from l
  <-> exists j : nat,
        l !! j = Some v /\ IsDefaultValue v = false
        /\ i = To3DIndex (N - Z.of_nat (length l) + Z.of_nat j) kBits.
Proof.
  induction l as [|u l IH]; simpl.
  - split; [intros Hin; inversion Hin|intros (j & Hj & _); done].
  - rewrite elem_of_app, IH. split.
    + intros [Hin|(j & Hj & Hd & ->)].
      * destruct (IsDefaultValue u) eqn:E; [inversion Hin|].
        apply list_elem_of_singleton in Hin. inversion Hin; subst.
        exists O. simpl. repeat split; [done|]. f_equal. lia.
      * exists (S j). simpl. repeat split; [done|done|]. f_equal. lia.
    + intros ([|j] & Hj & Hd & ->); simpl in Hj.
      * inversion Hj; subst. left. rewrite Hd.
        apply list_elem_of_singleton. f_equal. f_equal. lia.
      * right. exists j. repeat split; [done|done|]. f_equal. lia.
Qed.

Lemma FlatGrid_cells_from_NoDup l :
  (length l <= Z.to_nat (2 ^ (3 * kBits)))%nat ->
  NoDup (FlatGrid_cells_from l).*1.
Proof.
  pose proof (pow2_pos (3 * kBits) ltac:(lia)) as HN.
  induction l as [|u l IH]; simpl; intros Hl; [constructor|].
  rewrite fmap_app. destruct (IsDefaultValue u) eqn:E; simpl.
  - apply IH. lia.
  - constructor; [|apply IH; lia].
    intros Hin. apply list_elem_of_fmap in Hin as ([i v] & Ei & Hin).
    simpl in Ei. subst i.
    apply FlatGrid_cells_from_spec in Hin as (j & Hj & _ & Ei).
    apply lookup_lt_Some in Hj.
    rewrite FlatGrid_N_eq in Ei.
    apply To3DIndex_inj in Ei; [lia|lia|lia|lia].
Qed.

Lemma FlatGrid_size_pos : 0 < FlatGrid.size kBits.
Proof. rewrite FlatGrid_size_eq. now apply pow2_pos. Qed.

Lemma FlatGrid_mutable_value_spec g i g' s :
  FlatGrid_wf g -> in_cube (FlatGrid.size kBits) i ->
  FlatGrid.mutable_value kBits g i = (g', s) ->
  FlatGrid_wf g' /\ FlatGrid_slot_of g' s i /\
  (forall j, in_cube (FlatGrid.size kBits) j ->
     FlatGrid.value kBits g' j = FlatGrid.value kBits g j).
Proof.
  intros Hwf Hi E. unfold FlatGrid.mutable_value in E.
  inversion E; subst. repeat split; done.
Qed.

Lemma FlatGrid_slot_get_spec g s i :
  FlatGrid_wf g -> FlatGrid_slot_of g s i ->
  FlatGrid.slot_get kBits g s = FlatGrid.value kBits g i.
Proof.
  intros _ ->. unfold FlatGrid.slot_get, FlatGrid.value, FlatGrid.cell.
  now rewrite Nat2Z.id.
Qed.

Lemma FlatGrid_slot_set_spec g s i v :
  FlatGrid_wf g -> in_cube (FlatGrid.size kBits) i -> FlatGrid_slot_of g s i ->
  FlatGrid_wf (FlatGrid.slot_set kBits g s v) /\
  FlatGrid_slot_of (FlatGrid.slot_set kBits g s v) s i /\
  (forall j, in_cube (FlatGrid.size kBits) j ->
     FlatGrid.value kBits (FlatGrid.slot_set kBits g s v) j
     = if decide (j = i) then v else FlatGrid.value kBits g j).
Proof.
  rewrite FlatGrid_size_eq. intros Hwf Hi Hs. repeat split.
  - unfold FlatGrid_wf, FlatGrid.slot_set. simpl. now rewrite length_insert.
  - exact Hs.
  - intros j Hj. now apply FlatGrid_slot_set_value.
Qed.

Lemma FlatGrid_begin_valid g :
  FlatGrid_wf g -> FlatGrid_iter_valid (FlatGrid.begin kBits g).
Proof. intros _. apply FlatGrid_skip_default_valid. Qed.

Lemma FlatGrid_Next_valid it :
  FlatGrid_iter_valid it -> FlatGrid.Done it = false ->
  FlatGrid_iter_valid (FlatGrid.Next it) /\
  (length (FlatGrid.rest (FlatGrid.Next it)) < length (FlatGrid.rest it))%nat.
Proof.
  intros _ E. split; [apply FlatGrid_skip_default_valid|].
  unfold FlatGrid.Next, FlatGrid.Done in *. simpl.
  destruct (FlatGrid.rest it) as [|v l]; [done|]. simpl.
  pose proof (FlatGrid_skip_default_length l). lia.
Qed.

Lemma FlatGrid_skip_default_idem l :
  FlatGrid.skip_default (FlatGrid.skip_default l) = FlatGrid.skip_default l.
Proof.
  induction l as [|v l IH]; simpl; [done|].
  destruct (IsDefaultValue v) eqn:E; [done|]. simpl. now rewrite E.
Qed.

Lemma FlatGrid_begin_collect g :
  FlatGrid_wf g ->
  iter_collect (iter_fuel (iter_begin g)) (iter_begin g) = FlatGrid_cells g.
Proof.
  intros _. unfold FlatGrid_cells. simpl. unfold FlatGrid.begin. simpl.
  rewrite <- FlatGrid_cells_from_skip.
  rewrite <- (FlatGrid_skip_default_idem (FlatGrid.cells_ g)) at 2.
  now apply FlatGrid_collect_from.
Qed.

Lemma FlatGrid_cells_NoDup g : FlatGrid_wf g -> NoDup (FlatGrid_cells g).*1.
Proof.
  intros Hwf. apply FlatGrid_cells_from_NoDup. unfold FlatGrid_wf in Hwf. lia.
Qed.

Lemma FlatGrid_cells_spec g i v :
  FlatGrid_wf g ->
  (i, v) ∈ FlatGrid_cells g
  <-> in_cube (FlatGrid.size kBits) i /\ FlatGrid.value kBits g i = v
      /\ v <> default_value.
Proof.
  intros Hwf. unfold FlatGrid_wf in Hwf.
  pose proof (pow2_pos (3 * kBits) ltac:(lia)) as HN.
  unfold FlatGrid_cells. rewrite FlatGrid_cells_from_spec, FlatGrid_size_eq.
  rewrite FlatGrid_N_eq, Hwf, Z2Nat.id by lia.
  unfold FlatGrid.value, FlatGrid.cell. split.
  - intros (j & Hj & Hd & ->).
    pose proof (lookup_lt_Some _ _ _ Hj) as Hlt.
    replace (2 ^ (3 * kBits) - 2 ^ (3 * kBits) + Z.of_nat j) with (Z.of_nat j)
      by lia.
    split; [apply To3DIndex_in_cube; lia|].
    rewrite ToFlatIndex_To3DIndex, Nat2Z.id, Hj by lia.
    split; [done|]. intros ->.
    assert (IsDefaultValue (default_value : V) = true)
      by now apply IsDefaultValue_spec.
    congruence.
  - intros (Hi & Hv & Hd).
    pose proof (ToFlatIndex_range i kBits kBits_nonneg Hi) as Hr.
    exists (Z.to_nat (ToFlatIndex i kBits)).
    destruct (FlatGrid.cells_ g !! Z.to_nat (ToFlatIndex i kBits)) as [u|] eqn:E.
    + subst u. split; [done|]. split.
      * destruct (IsDefaultValue v) eqn:Ed; [|done].
        apply IsDefaultValue_spec in Ed. done.
      * replace (2 ^ (3 * kBits) - 2 ^ (3 * kBits)
                 + Z.of_nat (Z.to_nat (ToFlatIndex i kBits)))
          with (ToFlatIndex i kBits) by lia.
        now rewrite To3DIndex_ToFlatIndex.
    + apply lookup_ge_None in E. lia.
Qed.

(** The order in which the iterator visits the cells: ascending flat
    index. *)
Definition FlatGrid_order : list Array3i :=
  (fun k => To3DIndex k kBits) <$> seqZ 0 (2 ^ (3 * kBits)).

Lemma FlatGrid_order_in_cube i :
  i ∈ FlatGrid_order -> in_cube (FlatGrid.size kBits) i.
Proof.
  intros Hin. apply list_elem_of_fmap in Hin as (k & -> & Hk).
  apply elem_of_seqZ in Hk. rewrite FlatGrid_size_eq.
  apply To3DIndex_in_cube; lia.
Qed.

Lemma FlatGrid_cells_from_order (g : FlatGrid.t V kBits) pre l :
  FlatGrid.cells_ g = pre ++ l -> FlatGrid_wf g ->
  FlatGrid_cells_from l
  = omap (cell_entry (FlatGrid.value kBits g))
         ((fun k => To3DIndex k kBits)
            <$> seqZ (Z.of_nat (length pre)) (Z.of_nat (length l))).
Proof.
  intros E Hwf. unfold FlatGrid_wf in Hwf.
  pose proof (pow2_pos (3 * kBits) ltac:(lia)) as HN.
  revert pre E. induction l as [|v l IH]; intros pre E; [done|].
  assert (Hlen : (length pre + length (v :: l))%nat = Z.to_nat (2 ^ (3 * kBits))).
  { rewrite <- Hwf, E, length_app. done. }
  simpl length in *.
  simpl FlatGrid_cells_from.
  rewrite (IH (pre ++ [v])) by (rewrite E, <- app_assoc; done).
  rewrite (seqZ_cons (Z.of_nat (length pre))) by lia. rewrite fmap_cons.
  replace (Z.pred (Z.of_nat (Datatypes.S (length l)))) with (Z.of_nat (length l))
    by lia.
  replace (Z.succ (Z.of_nat (length pre)))
    with (Z.of_nat (length (pre ++ [v]))) by (rewrite length_app; simpl; lia).
  assert (Ev : FlatGrid.value kBits g (To3DIndex (Z.of_nat (length pre)) kBits) = v).
  { unfold FlatGrid.value, FlatGrid.cell.
    rewrite ToFlatIndex_To3DIndex, Nat2Z.id by lia.
    rewrite E, lookup_app_r, Nat.sub_diag by lia. done. }
  rewrite FlatGrid_N_eq.
  replace (2 ^ (3 * kBits) - Z.of_nat (Datatypes.S (length l)))
    with (Z.of_nat (length pre)) by lia.
  change (omap ?f (?x :: ?L))
    with (match f x with Some y => y :: omap f L | None => omap f L end).
  unfold cell_entry at 2. rewrite Ev.
  destruct (IsDefaultValue v); done.
Qed.

Lemma FlatGrid_cells_order g :
  FlatGrid_wf g ->
  FlatGrid_cells g = omap (cell_entry (FlatGrid.value kBits g)) FlatGrid_order.
Proof.
  intros Hwf. unfold FlatGrid_cells, FlatGrid_order.
  rewrite (FlatGrid_cells_from_order g [] (FlatGrid.cells_ g)) by done.
  unfold FlatGrid_wf in Hwf. simpl. rewrite Hwf.
  pose proof (pow2_pos (3 * kBits) ltac:(lia)) as HN.
  now rewrite Z2Nat.id by lia.
Qed.

End FlatGridFacts.

Definition FlatGrid_laws {V : Type} `{DefaultValue V} (kBits : Z)
  (kBits_nonneg : 0 <= kBits) : GridLaws V (FlatGrid.t V kBits) := {|
  grid_wf := FlatGrid_wf kBits;
  slot_of := FlatGrid_slot_of kBits;
  iter_valid := FlatGrid_iter_valid;
  grid_cells := FlatGrid_cells kBits;
  grid_order := FlatGrid_order kBits;
  grid_size_pos := FlatGrid_size_pos kBits kBits_nonneg;
  grid_new_wf := FlatGrid_new_wf kBits kBits_nonneg;
  grid_new_value := FlatGrid_new_value kBits;
  grid_mutable_value_spec := FlatGrid_mutable_value_spec kBits;
  grid_slot_get_spec := FlatGrid_slot_get_spec kBits;
  grid_slot_set_spec := FlatGrid_slot_set_spec kBits kBits_nonneg;
  iter_begin_valid := FlatGrid_begin_valid kBits;
  iter_Next_valid := FlatGrid_Next_valid;
  iter_begin_collect := FlatGrid_begin_collect kBits;
  grid_cells_NoDup := FlatGrid_cells_NoDup kBits kBits_nonneg;
  grid_cells_spec := FlatGrid_cells_spec kBits kBits_nonneg;
  grid_order_in_cube := FlatGrid_order_in_cube kBits kBits_nonneg;
  grid_cells_order := FlatGrid_cells_order kBits kBits_nonneg
|}.

(** ** Meta cells: lookup, construction on first access, slots *)

Section MetaCellsFacts.
Context {V W : Type} `{GridLaws V W} (bits : Z).
Hypothesis bits_nonneg : 0 <= bits.

Local Abbreviation S := (grid_size W).

Definition cells_wf (cells : list (option W)) : Prop :=
  length cells = Z.to_nat (2 ^ (3 * bits))
  /\ forall k w, cells !! k = Some (Some w) -> grid_wf w.

Definition inner_index (index : Array3i) : Array3i :=
  sub3 index (mul_scalar (MetaCells.GetMetaIndex (W:=W) index) S).

Definition meta_slot_of (cells : list (option W)) (s : nat * GridSlot W)
  (i : Array3i) : Prop :=
  s.1 = Z.to_nat (ToFlatIndex (MetaCells.GetMetaIndex (W:=W) i) bits)
  /\ exists w, cells !! s.1 = Some (Some w) /\ slot_of w s.2 (inner_index i).

Lemma meta_index_in_cube i :
  in_cube (S * 2 ^ bits) i ->
  in_cube (2 ^ bits) (MetaCells.GetMetaIndex (W:=W) i)
  /\ in_cube S (inner_index i).
Proof.
  intros (Hx & Hy & Hz). pose proof (grid_size_pos (G:=W)) as HS.
  destruct (meta_inner_split S (2 ^ bits) (ax i) HS Hx).
  destruct (meta_inner_split S (2 ^ bits) (ay i) HS Hy).
  destruct (meta_inner_split S (2 ^ bits) (az i) HS Hz).
  unfold in_cube, inner_index, MetaCells.GetMetaIndex. simpl. tauto.
Qed.

Lemma meta_inner_inj i j :
  MetaCells.GetMetaIndex (W:=W) i = MetaCells.GetMetaIndex (W:=W) j ->
  inner_index i = inner_index j -> i = j.
Proof.
  unfold inner_index. intros -> E.
  destruct i, j. unfold sub3, mul_scalar in E. simpl in E.
  inversion E. f_equal; lia.
Qed.

Lemma meta_flat_nat i :
  in_cube (S * 2 ^ bits) i ->
  (Z.to_nat (ToFlatIndex (MetaCells.GetMetaIndex (W:=W) i) bits)
   < Z.to_nat (2 ^ (3 * bits)))%nat.
Proof.
  intros Hi. destruct (meta_index_in_cube i Hi) as [Hm _].
  pose proof (ToFlatIndex_range _ bits bits_nonneg Hm). lia.
Qed.

Lemma meta_flat_inj i j :
  in_cube (S * 2 ^ bits) i -> in_cube (S * 2 ^ bits) j ->
  Z.to_nat (ToFlatIndex (MetaCells.GetMetaIndex (W:=W) i) bits)
  = Z.to_nat (ToFlatIndex (MetaCells.GetMetaIndex (W:=W) j) bits) ->
  MetaCells.GetMetaIndex (W:=W) i = MetaCells.GetMetaIndex (W:=W) j.
Proof.
  intros Hi Hj E.
  destruct (meta_index_in_cube i Hi) as [Hmi _].
  destruct (meta_index_in_cube j Hj) as [Hmj _].
  apply (ToFlatIndex_inj _ _ bits); try done.
  pose proof (ToFlatIndex_range _ bits bits_nonneg Hmi).
  pose proof (ToFlatIndex_range _ bits bits_nonneg Hmj). lia.
Qed.

Lemma cells_wf_new :
  cells_wf (replicate (Z.to_nat (Z.shiftl 1 (3 * bits))) None).
Proof.
  split.
  - now rewrite length_replicate, shiftl_1_pow2 by lia.
  - intros k w E. apply lookup_replicate in E. destruct E; discriminate.
Qed.

Lemma MetaCells_value_new n i :
  MetaCells.value (replicate n (None : option W)) bits i = default_value.
Proof.
  unfold MetaCells.value, MetaCells.get.
  destruct (replicate _ _ !! _) as [c|] eqn:E; [|done].
  apply lookup_replicate in E. destruct E as [-> _]. done.
Qed.

Lemma cells_wf_insert cells k w :
  cells_wf cells -> grid_wf w -> cells_wf (<[k := Some w]> cells).
Proof.
  intros [Hlen Hall] Hw. split; [now rewrite length_insert|].
  intros k' w' E. destruct (decide (k = k')) as [->|Hne].
  - destruct (decide (k' < length cells)%nat) as [Hlt|Hge].
    + rewrite list_lookup_insert_eq in E by done. congruence.
    + rewrite list_insert_ge in E by lia. eauto.
  - rewrite list_lookup_insert_ne in E by done. eauto.
Qed.

Lemma MetaCells_mutable_value_spec cells i cells' s :
  cells_wf cells -> in_cube (S * 2 ^ bits) i ->
  MetaCells.mutable_value cells bits i = (cells', s) ->
  cells_wf cells' /\ meta_slot_of cells' s i /\
  (forall j, in_cube (S * 2 ^ bits) j ->
     MetaCells.value cells' bits j = MetaCells.value cells bits j).
Proof.
  intros Hwf Hi E. unfold MetaCells.mutable_value in E.
  pose proof (meta_flat_nat i Hi) as Hlt.
  destruct (meta_index_in_cube i Hi) as [Hm Hin].
  set (k := Z.to_nat (ToFlatIndex (MetaCells.GetMetaIndex i) bits)) in *.
  set (w0 := match MetaCells.get cells (ToFlatIndex (MetaCells.GetMetaIndex i) bits)
             with Some w => w | None => grid_new W end) in *.
  assert (Hw0 : grid_wf w0).
  { subst w0. unfold MetaCells.get. fold k.
    destruct (cells !! k) as [[w|]|] eqn:Ek; try apply grid_new_wf.
    destruct Hwf as [_ Hall]. eauto. }
  destruct (grid_mutable_value w0 _) as [w' s'] eqn:Em.
  inversion E; subst cells' s. clear E.
  destruct (grid_mutable_value_spec w0 _ w' s' Hw0 Hin Em) as (Hw' & Hs' & Hval).
  destruct Hwf as [Hlen Hall].
  split; [apply cells_wf_insert; done|]. split.
  - split; [done|]. exists w'. simpl. fold k.
    rewrite list_lookup_insert_eq by lia. done.
  - intros j Hj. unfold MetaCells.value, MetaCells.get.
    destruct (meta_index_in_cube j Hj) as [Hmj Hinj].
    destruct (decide (Z.to_nat (ToFlatIndex (MetaCells.GetMetaIndex j) bits) = k))
      as [Ek|Hne].
    + rewrite Ek, list_lookup_insert_eq by lia.
      fold (inner_index j). rewrite (Hval _ Hinj). subst w0.
      unfold MetaCells.get. fold k.
      destruct (cells !! k) as [[w|]|] eqn:Ec; try done.
      * apply grid_new_value.
      * apply grid_new_value.
    + rewrite list_lookup_insert_ne by done. done.
Qed.

Lemma MetaCells_slot_get_spec cells s i :
  cells_wf cells -> meta_slot_of cells s i ->
  MetaCells.slot_get cells s = MetaCells.value cells bits i.
Proof.
  intros [Hlen Hall] (Hk & w & Hw & Hs).
  unfold MetaCells.slot_get, MetaCells.value, MetaCells.get.
  rewrite Nat2Z.id, <- Hk, Hw. apply grid_slot_get_spec; eauto.
Qed.

Lemma MetaCells_slot_set_spec cells s i v :
  cells_wf cells -> in_cube (S * 2 ^ bits) i -> meta_slot_of cells s i ->
  cells_wf (MetaCells.slot_set cells s v) /\
  meta_slot_of (MetaCells.slot_set cells s v) s i /\
  (forall j, in_cube (S * 2 ^ bits) j ->
     MetaCells.value (MetaCells.slot_set cells s v) bits j
     = if decide (j = i) then v else MetaCells.value cells bits j).
Proof.
  intros Hwf Hi (Hk & w & Hw & Hs).
  destruct (meta_index_in_cube i Hi) as [Hm Hin].
  pose proof (lookup_lt_Some _ _ _ Hw) as Hlt.
  unfold MetaCells.slot_set, MetaCells.get. rewrite Nat2Z.id, Hw.
  assert (Hwfw : grid_wf w) by (destruct Hwf; eauto).
  destruct (grid_slot_set_spec w s.2 _ v Hwfw Hin Hs) as (Hw' & Hs' & Hval).
  split; [apply cells_wf_insert; done|]. split.
  - split; [done|]. eexists. rewrite list_lookup_insert_eq by done. done.
  - intros j Hj. unfold MetaCells.value, MetaCells.get.
    destruct (meta_index_in_cube j Hj) as [Hmj Hinj].
    destruct (decide (Z.to_nat (ToFlatIndex (MetaCells.GetMetaIndex j) bits) = s.1))
      as [Ek|Hne].
    + rewrite Ek, list_lookup_insert_eq, Hw by done.
      fold (inner_index j). rewrite (Hval _ Hinj).
      assert (Em : MetaCells.GetMetaIndex (W:=W) j = MetaCells.GetMetaIndex i)
        by (apply meta_flat_inj; [done|done|congruence]).
      destruct (decide (inner_index j = inner_index i)) as [Ei|Hni].
      * rewrite decide_True; [done|]. now apply meta_inner_inj.
      * rewrite decide_False; [done|]. intros ->. done.
    + rewrite list_lookup_insert_ne by done.
      rewrite decide_False; [done|]. intros ->. done.
Qed.

End MetaCellsFacts.

(** ** Meta cells: the iterator over the wrapped grids *)

Section MetaIterFacts.
Context {V W : Type} `{GridLaws V W} (bits : Z).
Hypothesis bits_nonneg : 0 <= bits.

Local Abbreviation S := (grid_size W).
Local Abbreviation N := (Z.shiftl 1 (3 * bits)).
Local Abbreviation MetaGrid := (NestedGrid.t W bits).

Definition rest_wf (rest : list (option W)) : Prop :=
  forall k w, rest !! k = Some (Some w) -> grid_wf w.

Definition meta_iter_valid (it : MetaCells.Iterator W) : Prop :=
  rest_wf (MetaCells.rest it)
  /\ (MetaCells.rest it = []
      \/ (iter_valid (MetaCells.nested_iterator_ it)
          /\ iter_Done (MetaCells.nested_iterator_ it) = false)).

(** The cells of the wrapped grid at flat meta index [pos]. *)
Definition cell_cells (pos : Z) (c : option W) : list (Array3i * V) :=
  match c with
  | Some w =>
      map (fun p => (add3 (mul_scalar (To3DIndex pos bits) S) p.1, p.2))
          (grid_cells w)
  | None => []
  end.

(** The cells of the wrapped grids in the range [rest] that ends the
    array of meta cells. *)
Fixpoint meta_cells_from (rest : list (option W)) : list (Array3i * V) :=
  match rest with
  | [] => []
  | c :: rest' =>
      cell_cells (N - Z.of_nat (length rest)) c ++ meta_cells_from rest'
  end.

Lemma rest_wf_tail c rest : rest_wf (c :: rest) -> rest_wf rest.
Proof. intros Hwf k w E. apply (Hwf (Datatypes.S k) w). exact E. Qed.

Lemma rest_wf_head w rest : rest_wf (Some w :: rest) -> grid_wf w.
Proof. intros Hwf. apply (Hwf O w). reflexivity. Qed.

Lemma Advance_valid rest nested :
  rest_wf rest ->
  meta_iter_valid (MetaCells.AdvanceToValidNestedIterator rest nested).
Proof.
  revert nested. induction rest as [|[w|] rest IH]; intros nested Hwf; simpl.
  - split; [done|]. now left.
  - destruct (iter_Done (iter_begin w)) eqn:E.
    + apply IH. eapply rest_wf_tail; eauto.
    + split; [done|]. right. simpl. split; [|done].
      apply iter_begin_valid. eapply rest_wf_head; eauto.
  - apply IH. eapply rest_wf_tail; eauto.
Qed.

Lemma Advance_fuel rest nested :
  (MetaCells.fuel (MetaCells.AdvanceToValidNestedIterator rest nested)
   <= sum_list (map MetaCells.cell_fuel rest))%nat.
Proof.
  revert nested. induction rest as [|[w|] rest IH]; intros nested; simpl.
  - done.
  - destruct (iter_Done (iter_begin w)) eqn:E.
    + specialize (IH (iter_begin w)). lia.
    + unfold MetaCells.fuel. simpl. lia.
  - apply IH.
Qed.

Lemma meta_Next_valid it :
  meta_iter_valid it -> MetaCells.Done it = false ->
  meta_iter_valid (MetaCells.Next it)
  /\ (MetaCells.fuel (MetaCells.Next it) < MetaCells.fuel it)%nat.
Proof.
  intros [Hwf Hv] E. unfold MetaCells.Done in E.
  destruct it as [rest nested]. simpl in *.
  destruct rest as [|c rest]; [done|].
  destruct Hv as [?|[Hv Hd]]; [done|].
  destruct (iter_Next_valid nested Hv Hd) as [Hv' Hf].
  unfold MetaCells.Next. simpl.
  destruct (iter_Done (iter_Next nested)) eqn:E'; simpl.
  - split; [apply Advance_valid; eapply rest_wf_tail; eauto|].
    pose proof (Advance_fuel rest (iter_Next nested)).
    unfold MetaCells.fuel at 2. simpl. lia.
  - split.
    + split; [done|]. right. done.
    + unfold MetaCells.fuel. simpl. lia.
Qed.

Lemma meta_collect_enough (n m : nat) it :
  meta_iter_valid it ->
  (MetaCells.fuel it <= n)%nat -> (MetaCells.fuel it <= m)%nat ->
  iter_collect (G:=MetaGrid) n it = iter_collect (G:=MetaGrid) m it.
Proof.
  revert m it. induction n as [|n IH]; intros [|m] it Hv Hn Hm; simpl; try done.
  - destruct (MetaCells.Done it) eqn:E; [done|].
    destruct (meta_Next_valid it Hv E). lia.
  - destruct (MetaCells.Done it) eqn:E; [done|].
    destruct (meta_Next_valid it Hv E). lia.
  - destruct (MetaCells.Done it) eqn:E; [done|].
    destruct (meta_Next_valid it Hv E) as [Hv' Hf].
    f_equal. apply IH; [done|lia|lia].
Qed.

(** While the nested iterator is inside one wrapped grid, the meta
    iterator yields that grid's cells, moved to the place of the grid. *)
Lemma meta_collect_inside c rest :
  (forall nested,
      let it := MetaCells.AdvanceToValidNestedIterator rest nested in
      iter_collect (G:=MetaGrid) (MetaCells.fuel it) it = meta_cells_from rest) ->
  rest_wf (c :: rest) ->
  forall (f : nat) nested,
    (iter_fuel nested <= f)%nat ->
    iter_valid nested -> iter_Done nested = false ->
    let it := MetaCells.BuildIterator (c :: rest) nested in
    iter_collect (G:=MetaGrid) (MetaCells.fuel it) it
    = map (fun p => (add3 (mul_scalar
                             (To3DIndex (N - Z.of_nat (length (c :: rest))) bits) S)
                          p.1, p.2))
          (iter_collect (iter_fuel nested) nested)
      ++ meta_cells_from rest.
Proof.
  intros HA Hwf f. induction f as [|f IH]; intros nested Hf Hv Hd it.
  - destruct (iter_Next_valid nested Hv Hd). lia.
  - destruct (iter_Next_valid nested Hv Hd) as [Hv' Hf'].
    rewrite (iter_collect_step nested Hv Hd). simpl map.
    assert (Hvit : meta_iter_valid it).
    { split; [done|]. right. done. }
    assert (Hdit : MetaCells.Done it = false) by done.
    destruct (meta_Next_valid it Hvit Hdit) as [Hvn Hfn].
    destruct (MetaCells.fuel it) as [|n] eqn:En; [lia|].
    simpl. f_equal.
    rewrite (meta_collect_enough n (MetaCells.fuel (MetaCells.Next it)))
      by (done || lia).
    unfold MetaCells.Next in *. simpl in *.
    destruct (iter_Done (iter_Next nested)) eqn:E'; simpl.
    + rewrite (iter_collect_Done _ _ E'). simpl. apply HA.
    + apply IH; [lia|done|done].
Qed.

Lemma meta_collect_Advance rest nested :
  rest_wf rest ->
  let it := MetaCells.AdvanceToValidNestedIterator rest nested in
  iter_collect (G:=MetaGrid) (MetaCells.fuel it) it = meta_cells_from rest.
Proof.
  revert nested. induction rest as [|[w|] rest IH]; intros nested Hwf.
  - reflexivity.
  - pose proof (rest_wf_tail _ _ Hwf) as Hwf'.
    pose proof (rest_wf_head _ _ Hwf) as Hw.
    simpl. destruct (iter_Done (iter_begin w)) eqn:E.
    + rewrite <- (iter_begin_collect w Hw), (iter_collect_Done _ _ E).
      simpl. apply IH. done.
    + rewrite <- (iter_begin_collect w Hw).
      apply (meta_collect_inside (Some w) rest (fun n => IH n Hwf') Hwf
               (iter_fuel (iter_begin w))); [done| |done].
      now apply iter_begin_valid.
  - simpl. apply IH. eapply rest_wf_tail; eauto.
Qed.

Lemma compose_index_inj (m m' p p' : Array3i) :
  in_cube S p -> in_cube S p' ->
  add3 (mul_scalar m S) p = add3 (mul_scalar m' S) p' -> m = m' /\ p = p'.
Proof.
  intros (Hx & Hy & Hz) (Hx' & Hy' & Hz') E.
  destruct m, m', p, p'. unfold add3, mul_scalar in E. simpl in *.
  inversion E as [[Ex Ey Ez]].
  destruct (meta_inner_unique S _ _ _ _ Hx Hx' Ex).
  destruct (meta_inner_unique S _ _ _ _ Hy Hy' Ey).
  destruct (meta_inner_unique S _ _ _ _ Hz Hz' Ez).
  split; f_equal; done.
Qed.

Lemma compose_index_split (m p : Array3i) :
  in_cube (2 ^ bits) m -> in_cube S p ->
  let i := add3 (mul_scalar m S) p in
  in_cube (S * 2 ^ bits) i
  /\ MetaCells.GetMetaIndex (W:=W) i = m /\ inner_index i = p.
Proof.
  intros (Hx & Hy & Hz) (Hx' & Hy' & Hz') i.
  pose proof (grid_size_pos (G:=W)) as HS.
  assert (Hq : forall a b, 0 <= a -> 0 <= b < S -> Z.quot (a * S + b) S = a).
  { intros a b Ha Hb. rewrite Z.quot_div_nonneg by nia.
    rewrite Z.div_add_l by lia. rewrite Z.div_small by lia. lia. }
  assert (Em : MetaCells.GetMetaIndex (W:=W) i = m).
  { destruct m, p. unfold MetaCells.GetMetaIndex, div_scalar. subst i.
    simpl in *. rewrite !Hq by lia. done. }
  split; [|split; [done|]].
  - subst i. destruct m, p. unfold in_cube. simpl in *. nia.
  - unfold inner_index. rewrite Em. subst i.
    destruct m, p. unfold sub3, add3, mul_scalar. simpl. f_equal; lia.
Qed.

Lemma meta_cells_from_spec rest i v :
  (i, v) ∈ meta_cells_from rest
  <-> exists (k : nat) w p,
        rest !! k = Some (Some w) /\ (p, v) ∈ grid_cells w
        /\ i = add3 (mul_scalar
                       (To3DIndex (N - Z.of_nat (length rest) + Z.of_nat k) bits)
                       S) p.
Proof.
  induction rest as [|c rest IH]; simpl.
  - split; [intros Hin; inversion Hin|intros (k & w & p & Hk & _); done].
  - rewrite elem_of_app, IH. split.
    + intros [Hin|(k & w & p & Hk & Hp & ->)].
      * destruct c as [w|]; simpl in Hin; [|inversion Hin].
        apply list_elem_of_fmap in Hin as ([p u] & E & Hin).
        simpl in E. inversion E; subst.
        exists O, w, p. simpl. repeat split; [done|].
        do 3 f_equal. lia.
      * exists (Datatypes.S k), w, p. simpl. repeat split; [done..|].
        do 3 f_equal. lia.
    + intros ([|k] & w & p & Hk & Hp & ->); simpl in Hk.
      * inversion Hk; subst. left. simpl.
        apply list_elem_of_fmap. exists (p, v). split; [|done]. simpl.
        do 4 f_equal. lia.
      * right. exists k, w, p. repeat split; [done..|]. do 3 f_equal. lia.
Qed.

Lemma meta_cells_from_NoDup rest :
  rest_wf rest -> (length rest <= Z.to_nat (2 ^ (3 * bits)))%nat ->
  NoDup (meta_cells_from rest).*1.
Proof.
  pose proof (pow2_pos (3 * bits) ltac:(lia)) as HN.
  induction rest as [|c rest IH]; simpl; intros Hwf Hl; [constructor|].
  rewrite fmap_app. apply list.NoDup_app. split; [|split].
  - destruct c as [w|]; simpl; [|constructor].
    pose proof (rest_wf_head _ _ Hwf) as Hw.
    rewrite <- list_fmap_compose.
    apply NoDup_fmap_2_strong; [|].
    + intros [p u] [p' u'] Hp Hp' E. simpl in E.
      apply grid_cells_spec in Hp as (Hp & Hu & _); [|done].
      apply grid_cells_spec in Hp' as (Hp' & Hu' & _); [|done].
      apply compose_index_inj in E as [_ ->]; [|done..].
      congruence.
    + pose proof (grid_cells_NoDup w Hw) as Hnd.
      apply NoDup_fmap_1 in Hnd. exact Hnd.
  - intros i Hi1 Hi2.
    apply list_elem_of_fmap in Hi1 as ([i1 v1] & E1 & Hi1).
    apply list_elem_of_fmap in Hi2 as ([i2 v2] & E2 & Hi2).
    simpl in *. subst i1 i2.
    destruct c as [w|]; simpl in Hi1; [|inversion Hi1].
    apply list_elem_of_fmap in Hi1 as ([p u] & E & Hp). simpl in E.
    inversion E; subst. clear E.
    apply meta_cells_from_spec in Hi2 as (k & w' & p' & Hk & Hp' & E).
    pose proof (lookup_lt_Some _ _ _ Hk) as Hlt.
    pose proof (rest_wf_head _ _ Hwf) as Hw.
    assert (Hw' : grid_wf w') by (eapply (Hwf (Datatypes.S k)); exact Hk).
    apply grid_cells_spec in Hp as (Hp & _); [|done].
    apply grid_cells_spec in Hp' as (Hp' & _); [|done].
    apply compose_index_inj in E as [E _]; [|done..].
    rewrite shiftl_1_pow2 in E by lia.
    apply To3DIndex_inj in E; lia.
  - apply IH; [eapply rest_wf_tail; eauto|lia].
Qed.

Lemma meta_cells_spec cells i v :
  cells_wf bits cells ->
  (i, v) ∈ meta_cells_from cells
  <-> in_cube (S * 2 ^ bits) i /\ MetaCells.value cells bits i = v
      /\ v <> default_value.
Proof.
  intros [Hlen Hall].
  pose proof (pow2_pos (3 * bits) ltac:(lia)) as HN.
  rewrite meta_cells_from_spec, shiftl_1_pow2, Hlen, Z2Nat.id by lia.
  unfold MetaCells.value, MetaCells.get. split.
  - intros (k & w & p & Hk & Hp & ->).
    pose proof (lookup_lt_Some _ _ _ Hk) as Hlt.
    replace (2 ^ (3 * bits) - 2 ^ (3 * bits) + Z.of_nat k) with (Z.of_nat k)
      by lia.
    apply grid_cells_spec in Hp as (Hp & Hv & Hd); [|eauto].
    assert (Hm : in_cube (2 ^ bits) (To3DIndex (Z.of_nat k) bits))
      by (apply To3DIndex_in_cube; lia).
    destruct (compose_index_split _ p Hm Hp) as (Hc & Em & Ei).
    split; [done|]. fold (inner_index (W:=W) (add3 (mul_scalar (To3DIndex (Z.of_nat k) bits) S) p)).
    rewrite Em, Ei, ToFlatIndex_To3DIndex, Nat2Z.id, Hk by lia. done.
  - intros (Hi & Hv & Hd).
    destruct (meta_index_in_cube bits i Hi) as [Hm Hin].
    pose proof (ToFlatIndex_range _ bits bits_nonneg Hm) as Hr.
    fold (inner_index (W:=W) i) in Hv.
    destruct (cells !! Z.to_nat (ToFlatIndex (MetaCells.GetMetaIndex i) bits))
      as [[w|]|] eqn:E; [|congruence|congruence].
    exists (Z.to_nat (ToFlatIndex (MetaCells.GetMetaIndex i) bits)), w,
      (inner_index i).
    split; [done|]. split.
    + apply grid_cells_spec; [eauto|]. done.
    + replace (2 ^ (3 * bits) - 2 ^ (3 * bits)
               + Z.of_nat (Z.to_nat (ToFlatIndex (MetaCells.GetMetaIndex i) bits)))
        with (ToFlatIndex (MetaCells.GetMetaIndex (W:=W) i) bits) by lia.
      rewrite To3DIndex_ToFlatIndex by done.
      unfold inner_index. destruct i. unfold add3, sub3, mul_scalar. simpl.
      f_equal; lia.
Qed.

(** The order in which the iterator visits the cells: the wrapped grids
    by ascending flat meta index, each in its own order. *)
Definition place (pos : Z) (p : Array3i) : Array3i :=
  add3 (mul_scalar (To3DIndex pos bits) S) p.

Definition meta_order_from (first count : Z) : list Array3i :=
  pos ← seqZ first count; place pos <$> grid_order W.

Definition meta_order : list Array3i := meta_order_from 0 (2 ^ (3 * bits)).

Lemma meta_order_in_cube i : i ∈ meta_order -> in_cube (S * 2 ^ bits) i.
Proof.
  pose proof (pow2_pos (3 * bits) ltac:(lia)) as HN.
  intros Hin. apply list_elem_of_bind in Hin as (pos & Hin & Hpos).
  apply elem_of_seqZ in Hpos.
  apply list_elem_of_fmap in Hin as (p & -> & Hp).
  apply grid_order_in_cube in Hp.
  assert (Hm : in_cube (2 ^ bits) (To3DIndex pos bits))
    by (apply To3DIndex_in_cube; lia).
  now destruct (compose_index_split _ p Hm Hp).
Qed.

Lemma omap_cell_entry_fmap (val : Array3i -> V) (val' : Array3i -> V)
  (sh : Array3i -> Array3i) (L : list Array3i) :
  (forall p, p ∈ L -> val (sh p) = val' p) ->
  omap (cell_entry val) (sh <$> L)
  = (fun q => (sh q.1, q.2)) <$> omap (cell_entry val') L.
Proof.
  induction L as [|p L IH]; intros Hval; [done|].
  rewrite fmap_cons.
  change (omap ?f (?x :: ?l))
    with (match f x with Some y => y :: omap f l | None => omap f l end).
  rewrite IH by (intros q Hq; apply Hval; now right).
  assert (Ee : cell_entry val (sh p)
               = match cell_entry val' p with
                 | Some y => Some (sh y.1, y.2)
                 | None => None
                 end).
  { unfold cell_entry. rewrite Hval by now left.
    destruct (IsDefaultValue (val' p)); done. }
  rewrite Ee. destruct (cell_entry val' p); done.
Qed.

Lemma omap_cell_entry_default (L : list Array3i) :
  omap (cell_entry (fun _ => default_value : V)) L = [].
Proof.
  induction L as [|p L IH]; [done|].
  change (omap ?f (?x :: ?l))
    with (match f x with Some y => y :: omap f l | None => omap f l end).
  unfold cell_entry at 1.
  assert (E : IsDefaultValue (default_value : V) = true)
    by now apply IsDefaultValue_spec.
  now rewrite E.
Qed.

Lemma cell_cells_order cells (a : nat) c :
  cells_wf bits cells -> cells !! a = Some c ->
  omap (cell_entry (MetaCells.value cells bits))
       (place (Z.of_nat a) <$> grid_order W)
  = cell_cells (Z.of_nat a) c.
Proof.
  intros [Hlen Hall] Ha.
  pose proof (pow2_pos (3 * bits) ltac:(lia)) as HN.
  pose proof (lookup_lt_Some _ _ _ Ha) as Hlt.
  assert (Hm : in_cube (2 ^ bits) (To3DIndex (Z.of_nat a) bits))
    by (apply To3DIndex_in_cube; lia).
  assert (Hval : forall p, p ∈ grid_order W ->
            MetaCells.value cells bits (place (Z.of_nat a) p)
            = match c with Some w => grid_value w p | None => default_value end).
  { intros p Hp. apply grid_order_in_cube in Hp.
    destruct (compose_index_split _ p Hm Hp) as (_ & Em & Ei).
    unfold MetaCells.value, MetaCells.get, place.
    fold (inner_index (W:=W)
            (add3 (mul_scalar (To3DIndex (Z.of_nat a) bits) S) p)).
    rewrite Em, Ei, ToFlatIndex_To3DIndex, Nat2Z.id, Ha by lia. done. }
  destruct c as [w|]; simpl.
  - rewrite (omap_cell_entry_fmap _ (grid_value w)) by done.
    rewrite <- grid_cells_order by eauto. done.
  - rewrite (omap_cell_entry_fmap _ (fun _ => default_value)) by done.
    now rewrite omap_cell_entry_default.
Qed.

Lemma meta_cells_from_order cells pre rest :
  cells = pre ++ rest -> cells_wf bits cells ->
  meta_cells_from rest
  = omap (cell_entry (MetaCells.value cells bits))
         (meta_order_from (Z.of_nat (length pre)) (Z.of_nat (length rest))).
Proof.
  intros E Hwf. pose proof Hwf as [Hlen Hall].
  pose proof (pow2_pos (3 * bits) ltac:(lia)) as HN.
  revert pre E. induction rest as [|c rest IH]; intros pre E; [done|].
  assert (Hl : (length pre + length (c :: rest))%nat = Z.to_nat (2 ^ (3 * bits))).
  { rewrite <- Hlen, E, length_app. done. }
  simpl length in *. simpl meta_cells_from.
  rewrite (IH (pre ++ [c])) by (rewrite E, <- app_assoc; done).
  unfold meta_order_from.
  rewrite (seqZ_cons (Z.of_nat (length pre))) by lia.
  rewrite bind_cons, omap_app.
  replace (Z.pred (Z.of_nat (Datatypes.S (length rest))))
    with (Z.of_nat (length rest)) by lia.
  replace (Z.succ (Z.of_nat (length pre)))
    with (Z.of_nat (length (pre ++ [c]))) by (rewrite length_app; simpl; lia).
  f_equal.
  rewrite (cell_cells_order cells (length pre) c Hwf)
    by (rewrite E, lookup_app_r, Nat.sub_diag by lia; done).
  f_equal. rewrite shiftl_1_pow2 by lia. lia.
Qed.

Lemma meta_cells_order cells :
  cells_wf bits cells ->
  meta_cells_from cells
  = omap (cell_entry (MetaCells.value cells bits)) meta_order.
Proof.
  intros Hwf. rewrite (meta_cells_from_order cells [] cells) by done.
  destruct Hwf as [Hlen _]. simpl. rewrite Hlen.
  pose proof (pow2_pos (3 * bits) ltac:(lia)) as HN.
  unfold meta_order. now rewrite Z2Nat.id by lia.
Qed.

End MetaIterFacts.

(** ** NestedGrid *)

Section NestedGridFacts.
Context {V W : Type} `{GridLaws V W} (kBits : Z).
Hypothesis kBits_nonneg : 0 <= kBits.

Local Abbreviation S := (grid_size W).

Definition NestedGrid_wf (g : NestedGrid.t W kBits) : Prop :=
  cells_wf kBits (NestedGrid.meta_cells_ g).

Definition NestedGrid_slot_of (g : NestedGrid.t W kBits)
  (s : nat * GridSlot W) (i : Array3i) : Prop :=
  meta_slot_of kBits (NestedGrid.meta_cells_ g) s i.

Definition NestedGrid_cells (g : NestedGrid.t W kBits) : list (Array3i * V) :=
  meta_cells_from kBits (NestedGrid.meta_cells_ g).

Definition NestedGrid_order : list Array3i := meta_order kBits.

Lemma NestedGrid_size_eq : NestedGrid.size (W:=W) kBits = S * 2 ^ kBits.
Proof. unfold NestedGrid.size. now rewrite Z.shiftl_mul_pow2. Qed.

Lemma NestedGrid_size_pos : 0 < NestedGrid.size (W:=W) kBits.
Proof.
  rewrite NestedGrid_size_eq.
  pose proof (grid_size_pos (G:=W)). pose proof (pow2_pos kBits kBits_nonneg).
  nia.
Qed.

Lemma NestedGrid_new_wf : NestedGrid_wf (NestedGrid.new kBits).
Proof. now apply cells_wf_new. Qed.

Lemma NestedGrid_new_value i :
  NestedGrid.value kBits (NestedGrid.new (W:=W) kBits) i = default_value.
Proof. apply MetaCells_value_new. Qed.

Lemma NestedGrid_mutable_value_spec g i g' s :
  NestedGrid_wf g -> in_cube (NestedGrid.size (W:=W) kBits) i ->
  NestedGrid.mutable_value kBits g i = (g', s) ->
  NestedGrid_wf g' /\ NestedGrid_slot_of g' s i /\
  (forall j, in_cube (NestedGrid.size (W:=W) kBits) j ->
     NestedGrid.value kBits g' j = NestedGrid.value kBits g j).
Proof.
  rewrite NestedGrid_size_eq. intros Hwf Hi E.
  unfold NestedGrid.mutable_value in E.
  destruct (MetaCells.mutable_value _ _ _) as [cells s'] eqn:Em.
  inversion E; subst.
  exact (MetaCells_mutable_value_spec kBits kBits_nonneg _ _ _ _ Hwf Hi Em).
Qed.

Lemma NestedGrid_slot_get_spec g s i :
  NestedGrid_wf g -> NestedGrid_slot_of g s i ->
  NestedGrid.slot_get kBits g s = NestedGrid.value kBits g i.
Proof. apply MetaCells_slot_get_spec. Qed.

Lemma NestedGrid_slot_set_spec g s i v :
  NestedGrid_wf g -> in_cube (NestedGrid.size (W:=W) kBits) i ->
  NestedGrid_slot_of g s i ->
  NestedGrid_wf (NestedGrid.slot_set kBits g s v) /\
  NestedGrid_slot_of (NestedGrid.slot_set kBits g s v) s i /\
  (forall j, in_cube (NestedGrid.size (W:=W) kBits) j ->
     NestedGrid.value kBits (NestedGrid.slot_set kBits g s v) j
     = if decide (j = i) then v else NestedGrid.value kBits g j).
Proof.
  rewrite NestedGrid_size_eq. intros Hwf Hi Hs.
  exact (MetaCells_slot_set_spec kBits kBits_nonneg _ _ _ v Hwf Hi Hs).
Qed.

Lemma NestedGrid_begin_valid g :
  NestedGrid_wf g -> meta_iter_valid (NestedGrid.begin kBits g).
Proof. intros [_ Hall]. apply Advance_valid. exact Hall. Qed.

Lemma NestedGrid_begin_collect (g : NestedGrid.t W kBits) :
  NestedGrid_wf g ->
  iter_collect (iter_fuel (iter_begin g)) (iter_begin g) = NestedGrid_cells g.
Proof. intros [_ Hall]. apply meta_collect_Advance. exact Hall. Qed.

Lemma NestedGrid_cells_NoDup g : NestedGrid_wf g -> NoDup (NestedGrid_cells g).*1.
Proof.
  intros [Hlen Hall]. apply meta_cells_from_NoDup; [done|exact Hall|lia].
Qed.

Lemma NestedGrid_cells_spec g i v :
  NestedGrid_wf g ->
  (i, v) ∈ NestedGrid_cells g
  <-> in_cube (NestedGrid.size (W:=W) kBits) i
      /\ NestedGrid.value kBits g i = v /\ v <> default_value.
Proof.
  rewrite NestedGrid_size_eq. intros Hwf. now apply meta_cells_spec.
Qed.

Lemma NestedGrid_order_in_cube i :
  i ∈ NestedGrid_order -> in_cube (NestedGrid.size (W:=W) kBits) i.
Proof. rewrite NestedGrid_size_eq. now apply meta_order_in_cube. Qed.

Lemma NestedGrid_cells_order g :
  NestedGrid_wf g ->
  NestedGrid_cells g
  = omap (cell_entry (NestedGrid.value kBits g)) NestedGrid_order.
Proof. intros Hwf. now apply meta_cells_order. Qed.

End NestedGridFacts.

Definition NestedGrid_laws {V W : Type} `{GridLaws V W} (kBits : Z)
  (kBits_nonneg : 0 <= kBits) : GridLaws V (NestedGrid.t W kBits) := {|
  grid_wf := NestedGrid_wf kBits;
  slot_of := NestedGrid_slot_of kBits;
  iter_valid := meta_iter_valid;
  grid_cells := NestedGrid_cells kBits;
  grid_order := NestedGrid_order kBits;
  grid_size_pos := NestedGrid_size_pos kBits kBits_nonneg;
  grid_new_wf := NestedGrid_new_wf kBits kBits_nonneg;
  grid_new_value := NestedGrid_new_value kBits;
  grid_mutable_value_spec := NestedGrid_mutable_value_spec kBits kBits_nonneg;
  grid_slot_get_spec := NestedGrid_slot_get_spec kBits;
  grid_slot_set_spec := NestedGrid_slot_set_spec kBits kBits_nonneg;
  iter_begin_valid := NestedGrid_begin_valid kBits;
  iter_Next_valid := meta_Next_valid;
  iter_begin_collect := NestedGrid_begin_collect kBits;
  grid_cells_NoDup := NestedGrid_cells_NoDup kBits kBits_nonneg;
  grid_cells_spec := NestedGrid_cells_spec kBits kBits_nonneg;
  grid_order_in_cube := NestedGrid_order_in_cube kBits kBits_nonneg;
  grid_cells_order := NestedGrid_cells_order kBits kBits_nonneg
|}.

(** The grids wrapped by [GridBase]. *)
Definition Flat3_laws {V : Type} `{DefaultValue V}
  : GridLaws V (FlatGrid.t V 3) :=
  FlatGrid_laws 3 ltac:(lia).

Definition Nested3_laws {V : Type} `{DefaultValue V}
  : GridLaws V (NestedGrid.t (FlatGrid.t V 3) 3) :=
  @NestedGrid_laws V _ _ _ Flat3_laws 3 ltac:(lia).

(** ** Folds that store into an array *)

Lemma fold_left_bind {A B C} (f : A -> C -> A) (g : B -> list C)
  (l : list B) (a : A) :
  fold_left f (l ≫= g) a = fold_left (fun a x => fold_left f (g x) a) l a.
Proof.
  revert a. induction l as [|x l IH]; intros a; simpl; [done|].
  now rewrite fold_left_app, IH.
Qed.

Lemma fold_left_insert_spec {A T} (key : T -> nat) (val : T -> A)
  (ts : list T) (init : list A) :
  (forall t, t ∈ ts -> (key t < length init)%nat) ->
  (forall t1 t2, t1 ∈ ts -> t2 ∈ ts -> key t1 = key t2 -> val t1 = val t2) ->
  let F := fold_left (fun acc t => <[key t := val t]> acc) ts init in
  length F = length init
  /\ (forall t, t ∈ ts -> F !! key t = Some (val t))
  /\ (forall j, (forall t, t ∈ ts -> key t <> j) -> F !! j = init !! j).
Proof.
  induction ts as [|t ts IH] using rev_ind; intros Hlt Hinj F.
  - simpl in *. split; [done|]. split; [|done]. intros t Ht. inversion Ht.
  - subst F. rewrite fold_left_app. simpl.
    destruct IH as (Hlen & Hin & Hout).
    { intros t' Ht'. apply Hlt. apply elem_of_app. now left. }
    { intros t1 t2 H1 H2. apply Hinj; apply elem_of_app; now left. }
    assert (Ht : t ∈ ts ++ [t]) by (apply elem_of_app; right; constructor).
    split; [now rewrite length_insert|]. split.
    + intros t' Ht'. destruct (decide (key t = key t')) as [E|Hne].
      * rewrite <- E, list_lookup_insert_eq by (rewrite Hlen; now apply Hlt).
        f_equal. now apply Hinj.
      * rewrite list_lookup_insert_ne by done.
        apply elem_of_app in Ht' as [Ht'|Ht']; [now apply Hin|].
        apply list_elem_of_singleton in Ht'. congruence.
    + intros j Hj. rewrite list_lookup_insert_ne by (now apply Hj).
      apply Hout. intros t' Ht'. apply Hj. apply elem_of_app. now left.
Qed.

(** ** DynamicGrid: the range covered, and growth *)

Global Instance in_cube_dec n i : Decision (in_cube n i).
Proof. unfold in_cube. apply _. Defined.

Section DynamicGridFacts.
Context {V W : Type} `{GridLaws V W}.
Hypothesis size_bound : grid_size W * 2 ^ 8 < 2 ^ 31.

Local Abbreviation S := (grid_size W).

(** Half the extent of a grid of [2^bits] meta cells per dimension. *)
Definition half_extent (bits : Z) : Z := S * 2 ^ (bits - 1).

(** The indices a grid with [bits] covers: [-half <= c < half] on every
    axis. *)
Definition covers (bits : Z) (i : Array3i) : Prop :=
  in_cube (S * 2 ^ bits) (A3 (ax i + half_extent bits) (ay i + half_extent bits)
                             (az i + half_extent bits)).

Global Instance covers_dec bits i : Decision (covers bits i).
Proof. unfold covers. apply _. Defined.

Definition DynamicGrid_wf (g : DynamicGrid.t W) : Prop :=
  1 <= DynamicGrid.bits_ g <= 8
  /\ cells_wf (DynamicGrid.bits_ g) (DynamicGrid.meta_cells_ g).

Definition DynamicGrid_slot_of (g : DynamicGrid.t W) (s : nat * GridSlot W)
  (i : Array3i) : Prop :=
  covers (DynamicGrid.bits_ g) i
  /\ meta_slot_of (DynamicGrid.bits_ g) (DynamicGrid.meta_cells_ g) s
       (DynamicGrid.shifted_index g i).

Lemma pow2_double bits : 1 <= bits -> 2 ^ bits = 2 * 2 ^ (bits - 1).
Proof.
  intros Hb. replace bits with (1 + (bits - 1)) at 1 by lia.
  rewrite Z.pow_add_r by lia. lia.
Qed.

Lemma pow2_le_256 bits : 0 <= bits <= 8 -> 0 < 2 ^ bits <= 2 ^ 8.
Proof.
  intros Hb. split; [apply pow2_pos; lia|].
  apply Z.pow_le_mono_r; lia.
Qed.

Lemma DynamicGrid_grid_size_eq g :
  0 <= DynamicGrid.bits_ g ->
  DynamicGrid.grid_size g = S * 2 ^ DynamicGrid.bits_ g.
Proof. intros Hb. unfold DynamicGrid.grid_size. now rewrite Z.shiftl_mul_pow2. Qed.

Lemma DynamicGrid_half_eq g :
  1 <= DynamicGrid.bits_ g ->
  Z.shiftr (DynamicGrid.grid_size g) 1 = half_extent (DynamicGrid.bits_ g).
Proof.
  intros Hb. rewrite DynamicGrid_grid_size_eq by lia.
  rewrite Z.shiftr_div_pow2 by lia. unfold half_extent.
  rewrite (pow2_double (DynamicGrid.bits_ g)) by lia.
  replace (S * (2 * 2 ^ (DynamicGrid.bits_ g - 1)))
    with (S * 2 ^ (DynamicGrid.bits_ g - 1) * 2 ^ 1) by lia.
  apply Z.div_mul. lia.
Qed.

Lemma half_extent_bounds bits :
  1 <= bits <= 8 ->
  0 < half_extent bits /\ S * 2 ^ bits = 2 * half_extent bits
  /\ S * 2 ^ bits < 2 ^ 31.
Proof.
  intros Hb. unfold half_extent.
  pose proof (grid_size_pos (G:=W)) as HS.
  pose proof (pow2_pos (bits - 1) ltac:(lia)) as Hp.
  pose proof (pow2_double bits ltac:(lia)) as Hd.
  pose proof (pow2_le_256 bits ltac:(lia)) as [_ Hle].
  assert (S * 2 ^ bits <= S * 2 ^ 8) by (apply Z.mul_le_mono_nonneg_l; lia).
  split; [apply Z.mul_pos_pos; lia|]. split; [|lia].
  rewrite Hd. ring.
Qed.

(** The range check of [value] and [mutable_value]. *)
Lemma DynamicGrid_range_check g i :
  1 <= DynamicGrid.bits_ g <= 8 -> is_int3 i ->
  any_ge_unsigned (DynamicGrid.shifted_index g i) (DynamicGrid.grid_size g)
  = false
  <-> covers (DynamicGrid.bits_ g) i.
Proof.
  intros Hb (Hx & Hy & Hz).
  destruct (half_extent_bounds _ Hb) as (Hh & Hs & Hlt).
  unfold any_ge_unsigned, DynamicGrid.shifted_index, add_scalar. simpl.
  rewrite DynamicGrid_half_eq, DynamicGrid_grid_size_eq by lia.
  rewrite !orb_false_iff.
  rewrite !unsigned_check by (assumption || lia).
  unfold covers, in_cube. simpl. tauto.
Qed.

Lemma DynamicGrid_shifted_covered g i :
  1 <= DynamicGrid.bits_ g <= 8 -> is_int3 i ->
  covers (DynamicGrid.bits_ g) i ->
  DynamicGrid.shifted_index g i
  = A3 (ax i + half_extent (DynamicGrid.bits_ g))
       (ay i + half_extent (DynamicGrid.bits_ g))
       (az i + half_extent (DynamicGrid.bits_ g)).
Proof.
  intros Hb (Hx & Hy & Hz) (Hcx & Hcy & Hcz).
  destruct (half_extent_bounds _ Hb) as (Hh & Hs & Hlt).
  unfold DynamicGrid.shifted_index, add_scalar.
  rewrite DynamicGrid_half_eq by lia. simpl in *.
  unfold is_int in *.
  rewrite !int32_small by (unfold is_int; lia). done.
Qed.

Lemma DynamicGrid_value_covered g i :
  1 <= DynamicGrid.bits_ g <= 8 -> is_int3 i ->
  covers (DynamicGrid.bits_ g) i ->
  DynamicGrid.value g i
  = MetaCells.value (DynamicGrid.meta_cells_ g) (DynamicGrid.bits_ g)
      (DynamicGrid.shifted_index g i).
Proof.
  intros Hb Hi Hc. unfold DynamicGrid.value.
  apply DynamicGrid_range_check in Hc; [|done..]. now rewrite Hc.
Qed.

Lemma DynamicGrid_value_outside g i :
  1 <= DynamicGrid.bits_ g <= 8 -> is_int3 i ->
  ~ covers (DynamicGrid.bits_ g) i ->
  DynamicGrid.value g i = default_value.
Proof.
  intros Hb Hi Hc. unfold DynamicGrid.value.
  destruct (any_ge_unsigned _ _) eqn:E; [done|].
  apply DynamicGrid_range_check in E; done.
Qed.

Lemma covers_mono bits i :
  1 <= bits -> covers bits i -> covers (bits + 1) i.
Proof.
  intros Hb. unfold covers, in_cube, half_extent. simpl.
  replace (bits + 1 - 1) with bits by lia.
  pose proof (grid_size_pos (G:=W)) as HS.
  pose proof (pow2_pos (bits - 1) ltac:(lia)).
  pose proof (pow2_double bits ltac:(lia)).
  pose proof (pow2_double (bits + 1) ltac:(lia)).
  replace (bits + 1 - 1) with bits in * by lia.
  nia.
Qed.

(** The meta indices the loops of [Grow] run through. *)
Definition Grow_triples (n : Z) : list (Z * Z * Z) :=
  z ← seqZ 0 n; y ← seqZ 0 n; x ← seqZ 0 n; [(z, y, x)].

Lemma Grow_triples_spec n z y x :
  (z, y, x) ∈ Grow_triples n <-> (0 <= z < n) /\ (0 <= y < n) /\ (0 <= x < n).
Proof.
  unfold Grow_triples. rewrite list_elem_of_bind. split.
  - intros (z' & Hin & Hz). apply list_elem_of_bind in Hin as (y' & Hin & Hy).
    apply list_elem_of_bind in Hin as (x' & Hin & Hx).
    apply list_elem_of_singleton in Hin. inversion Hin; subst.
    apply elem_of_seqZ in Hx, Hy, Hz. lia.
  - intros (Hz & Hy & Hx). exists z. split; [|apply elem_of_seqZ; lia].
    apply list_elem_of_bind. exists y. split; [|apply elem_of_seqZ; lia].
    apply list_elem_of_bind. exists x. split; [|apply elem_of_seqZ; lia].
    constructor.
Qed.

Lemma fold_left_ext {A B} (f g : A -> B -> A) (l : list B) (a : A) :
  (forall a x, f a x = g a x) -> fold_left f l a = fold_left g l a.
Proof.
  intros E. revert a. induction l as [|x l IH]; intros a; simpl; [done|].
  now rewrite E, IH.
Qed.

Lemma Grow_loops_flat (g : DynamicGrid.t W) (new_bits n : Z) init :
  fold_left (fun cells z =>
    fold_left (fun cells y =>
      fold_left (fun cells x => DynamicGrid.move_cell g new_bits z y x cells)
                (seqZ 0 n) cells)
      (seqZ 0 n) cells)
    (seqZ 0 n) init
  = fold_left (fun cells t =>
                 DynamicGrid.move_cell g new_bits t.1.1 t.1.2 t.2 cells)
              (Grow_triples n) init.
Proof.
  unfold Grow_triples. rewrite fold_left_bind.
  apply fold_left_ext. intros a z. rewrite fold_left_bind.
  apply fold_left_ext. intros b y. rewrite fold_left_bind.
  apply fold_left_ext. intros c x. reflexivity.
Qed.

Lemma Grow_fails (g : DynamicGrid.t W) :
  8 <= DynamicGrid.bits_ g -> DynamicGrid.Grow g = None.
Proof.
  intros Hb. unfold DynamicGrid.Grow.
  destruct (8 <? DynamicGrid.bits_ g + 1) eqn:E; [done|].
  apply Z.ltb_ge in E. lia.
Qed.

Lemma MetaCells_get_Some (cells : list (option W)) (k : Z) w :
  MetaCells.get cells k = Some w -> cells !! Z.to_nat k = Some (Some w).
Proof.
  unfold MetaCells.get. destruct (cells !! Z.to_nat k) as [c|]; [|done].
  now intros ->.
Qed.

Lemma Grow_spec (g : DynamicGrid.t W) :
  DynamicGrid_wf g -> DynamicGrid.bits_ g < 8 ->
  exists g',
    DynamicGrid.Grow g = Some g'
    /\ DynamicGrid.bits_ g' = DynamicGrid.bits_ g + 1
    /\ DynamicGrid_wf g'
    /\ forall m', in_cube (2 ^ (DynamicGrid.bits_ g + 1)) m' ->
         MetaCells.get (DynamicGrid.meta_cells_ g')
           (ToFlatIndex m' (DynamicGrid.bits_ g + 1))
         = let m := sub_scalar m' (2 ^ (DynamicGrid.bits_ g - 1)) in
           if decide (in_cube (2 ^ DynamicGrid.bits_ g) m)
           then MetaCells.get (DynamicGrid.meta_cells_ g)
                  (ToFlatIndex m (DynamicGrid.bits_ g))
           else None.
Proof.
  intros [Hb [Hlen Hall]] Hb8. destruct g as [b cells]. simpl in *.
  unfold DynamicGrid.Grow. cbn [DynamicGrid.bits_ DynamicGrid.meta_cells_].
  destruct (8 <? b + 1) eqn:E; [apply Z.ltb_lt in E; lia|]. clear E.
  eexists. split; [reflexivity|].
  cbn [DynamicGrid.bits_ DynamicGrid.meta_cells_].
  rewrite Grow_loops_flat.
  set (off := 2 ^ (b - 1)).
  set (n := Z.shiftl 1 b).
  set (key := fun t : Z * Z * Z =>
                Z.to_nat (ToFlatIndex (A3 (t.2 + off) (t.1.2 + off) (t.1.1 + off))
                                      (b + 1))).
  set (val := fun t : Z * Z * Z =>
                MetaCells.get cells (ToFlatIndex (A3 t.2 t.1.2 t.1.1) b)).
  set (init := replicate (8 * length cells) (None : option W)).
  assert (Hn : n = 2 ^ b) by (apply shiftl_1_pow2; lia).
  assert (Hoff : 0 < off /\ 2 ^ b = 2 * off /\ 2 ^ (b + 1) = 4 * off).
  { subst off. pose proof (pow2_pos (b - 1) ltac:(lia)).
    pose proof (pow2_double b ltac:(lia)).
    pose proof (pow2_double (b + 1) ltac:(lia)) as Hd.
    replace (b + 1 - 1) with b in Hd by lia. lia. }
  destruct Hoff as (Hoff & H2 & H4).
  assert (Hoff31 : 4 * off <= 2 ^ 8).
  { rewrite <- H4. apply Z.pow_le_mono_r; lia. }
  assert (Hcube : 2 ^ (3 * (b + 1)) = 8 * 2 ^ (3 * b)).
  { rewrite !pow2_cube by lia. rewrite H4, H2. ring. }
  assert (HN : 0 < 2 ^ (3 * b)) by (apply pow2_pos; lia).
  assert (Hinit : length init = Z.to_nat (2 ^ (3 * (b + 1)))).
  { subst init. rewrite length_replicate, Hlen, Hcube. lia. }
  assert (Hfold :
    fold_left (fun cells0 t =>
                 DynamicGrid.move_cell {| DynamicGrid.bits_ := b;
                                          DynamicGrid.meta_cells_ := cells |}
                   (b + 1) t.1.1 t.1.2 t.2 cells0)
              (Grow_triples n) init
    = fold_left (fun acc t => <[key t := val t]> acc) (Grow_triples n) init).
  { assert (Hgen : forall l a,
      (forall t, t ∈ l -> t ∈ Grow_triples n) ->
      fold_left (fun cells0 t =>
                 DynamicGrid.move_cell {| DynamicGrid.bits_ := b;
                                          DynamicGrid.meta_cells_ := cells |}
                   (b + 1) t.1.1 t.1.2 t.2 cells0) l a
      = fold_left (fun acc t => <[key t := val t]> acc) l a).
    { induction l as [|t l IH]; intros a Hin; simpl; [done|].
      rewrite <- IH by (intros t' Ht'; apply Hin; now right).
      f_equal. unfold DynamicGrid.move_cell, key, val, add_scalar. simpl.
      assert (Ht : t ∈ Grow_triples n) by (apply Hin; now left).
      destruct t as [[z y] x]. apply Grow_triples_spec in Ht. simpl.
      rewrite shiftl_1_pow2 by lia. fold off.
      rewrite !int32_small by (unfold is_int; lia). done. }
    now apply Hgen. }
  rewrite Hfold. clear Hfold.
  assert (Hnew : forall t, t ∈ Grow_triples n ->
            in_cube (2 ^ (b + 1)) (A3 (t.2 + off) (t.1.2 + off) (t.1.1 + off))).
  { intros [[z y] x] Ht. apply Grow_triples_spec in Ht.
    unfold in_cube. simpl. lia. }
  destruct (fold_left_insert_spec key val (Grow_triples n) init)
    as (HlenF & HinF & HoutF).
  { intros t Ht. rewrite Hinit. unfold key.
    pose proof (ToFlatIndex_range _ (b + 1) ltac:(lia) (Hnew t Ht)). lia. }
  { intros t1 t2 Ht1 Ht2 Ek. unfold key in Ek.
    pose proof (ToFlatIndex_range _ (b + 1) ltac:(lia) (Hnew t1 Ht1)).
    pose proof (ToFlatIndex_range _ (b + 1) ltac:(lia) (Hnew t2 Ht2)).
    assert (Ef : A3 (t1.2 + off) (t1.1.2 + off) (t1.1.1 + off)
                 = A3 (t2.2 + off) (t2.1.2 + off) (t2.1.1 + off)).
    { apply (ToFlatIndex_inj _ _ (b + 1)); [lia|auto|auto|lia]. }
    inversion Ef. unfold val.
    replace t1 with t2; [done|].
    destruct t1 as [[z1 y1] x1], t2 as [[z2 y2] x2]. simpl in *.
    repeat f_equal; lia. }
  set (F := fold_left (fun acc t => <[key t := val t]> acc)
                      (Grow_triples n) init) in *.
  split; [reflexivity|]. split.
  - split; [simpl; lia|]. simpl. split; [congruence|].
    intros k w Hk.
    destruct (decide (Exists (fun t => key t = k) (Grow_triples n))) as [Hex|Hno].
    + apply list.Exists_exists in Hex as (t & Ht & <-).
      rewrite (HinF t Ht) in Hk. inversion Hk as [Hv].
      apply MetaCells_get_Some in Hv. eauto.
    + rewrite HoutF in Hk.
      * apply lookup_replicate in Hk. destruct Hk; discriminate.
      * intros t Ht Ek. apply Hno. apply list.Exists_exists. eauto.
  - intros m' Hm'. simpl.
    pose proof (ToFlatIndex_range _ (b + 1) ltac:(lia) Hm') as Hr.
    unfold MetaCells.get at 1.
    destruct (decide (in_cube (2 ^ b) (sub_scalar m' off))) as [Hin|Hnin].
    + set (t := (az m' - off, ay m' - off, ax m' - off)).
      assert (Ht : t ∈ Grow_triples n).
      { apply Grow_triples_spec. unfold in_cube in Hin. simpl in Hin. lia. }
      assert (Ek : key t = Z.to_nat (ToFlatIndex m' (b + 1))).
      { unfold key, t. simpl. do 2 f_equal. destruct m'. simpl. f_equal; lia. }
      rewrite <- Ek, (HinF t Ht). reflexivity.
    + rewrite HoutF.
      * subst init. destruct (replicate _ _ !! _) as [c|] eqn:Ec; [|done].
        apply lookup_replicate in Ec. now destruct Ec.
      * intros t Ht Ek. apply Hnin. unfold key in Ek.
        pose proof (ToFlatIndex_range _ (b + 1) ltac:(lia) (Hnew t Ht)).
        assert (Ef : A3 (t.2 + off) (t.1.2 + off) (t.1.1 + off) = m').
        { apply (ToFlatIndex_inj _ _ (b + 1)); [lia|auto|auto|lia]. }
        subst m'. destruct t as [[z y] x]. apply Grow_triples_spec in Ht.
        unfold in_cube, sub_scalar. simpl. lia.
Qed.

Lemma covers_iff bits i :
  1 <= bits ->
  covers bits i
  <-> (- half_extent bits <= ax i < half_extent bits)
      /\ (- half_extent bits <= ay i < half_extent bits)
      /\ (- half_extent bits <= az i < half_extent bits).
Proof.
  intros Hb. unfold covers, in_cube. simpl.
  assert (E : S * 2 ^ bits = 2 * half_extent bits).
  { unfold half_extent. rewrite (pow2_double bits) by lia. ring. }
  rewrite E. lia.
Qed.

Lemma half_extent_mono b b' :
  1 <= b <= b' -> half_extent b <= half_extent b'.
Proof.
  intros Hb. unfold half_extent.
  pose proof (grid_size_pos (G:=W)) as HS.
  apply Z.mul_le_mono_nonneg_l; [lia|].
  apply Z.pow_le_mono_r; lia.
Qed.

Lemma covers_le b b' i : 1 <= b <= b' -> covers b i -> covers b' i.
Proof.
  intros Hb. rewrite !covers_iff by lia.
  pose proof (half_extent_mono b b' Hb). lia.
Qed.

Lemma half_extent_succ b : 1 <= b -> half_extent (b + 1) = 2 * half_extent b.
Proof.
  intros Hb. unfold half_extent. replace (b + 1 - 1) with b by lia.
  rewrite (pow2_double b) by lia. ring.
Qed.

Lemma quot_add (x off : Z) :
  0 <= x -> 0 <= off -> Z.quot (x + S * off) S = Z.quot x S + off.
Proof.
  intros Hx Hoff. pose proof (grid_size_pos (G:=W)) as HS.
  rewrite !Z.quot_div_nonneg by nia.
  rewrite (Z.mul_comm S off). apply Z.div_add. lia.
Qed.

Lemma quot_bounds (x lo hi : Z) :
  0 <= x -> lo <= Z.quot x S < hi <-> S * lo <= x < S * hi.
Proof.
  intros Hx. pose proof (grid_size_pos (G:=W)) as HS.
  rewrite Z.quot_div_nonneg by lia.
  assert (HS0 : S <> 0) by lia.
  pose proof (Z.div_mod x S HS0) as E.
  pose proof (Z.mod_pos_bound x S HS) as Hm.
  split; intros Hr; nia.
Qed.

Lemma Grow_value (g g' : DynamicGrid.t W) i :
  DynamicGrid_wf g -> DynamicGrid.Grow g = Some g' -> is_int3 i ->
  DynamicGrid.value g' i = DynamicGrid.value g i.
Proof.
  intros Hwf EG Hi.
  destruct (Z_lt_dec (DynamicGrid.bits_ g) 8) as [Hb8|Hb8];
    [|rewrite Grow_fails in EG by lia; discriminate].
  destruct (Grow_spec g Hwf Hb8) as (g'' & EG' & Eb & Hwf' & Hget).
  rewrite EG in EG'. inversion EG'; subst g''. clear EG'.
  destruct Hwf as [Hb Hc]. destruct Hwf' as [Hb' Hc'].
  set (b := DynamicGrid.bits_ g) in *.
  destruct (half_extent_bounds b Hb) as (Hh & Hs & Hlt).
  destruct (half_extent_bounds (b + 1) ltac:(lia)) as (Hh' & Hs' & Hlt').
  pose proof (half_extent_succ b ltac:(lia)) as Hsucc.
  pose proof (grid_size_pos (G:=W)) as HS.
  assert (Hoff : half_extent b = S * 2 ^ (b - 1)) by reflexivity.
  pose proof (pow2_pos (b - 1) ltac:(lia)) as Hoffpos.
  destruct (decide (covers (b + 1) i)) as [Hcov'|Hncov'].
  - rewrite DynamicGrid_value_covered by (rewrite ?Eb; done || lia).
    rewrite DynamicGrid_shifted_covered by (rewrite ?Eb; done || lia).
    rewrite Eb. unfold MetaCells.value.
    set (i' := A3 (ax i + half_extent (b + 1)) (ay i + half_extent (b + 1))
                  (az i + half_extent (b + 1))).
    destruct (meta_index_in_cube (b + 1) i' Hcov') as [Hm' Hin'].
    rewrite Hget by done. cbv zeta.
    destruct (decide (covers b i)) as [Hcov|Hncov].
    + rewrite DynamicGrid_value_covered by done.
      rewrite DynamicGrid_shifted_covered by done. fold b.
      unfold MetaCells.value.
      set (i0 := A3 (ax i + half_extent b) (ay i + half_extent b)
                    (az i + half_extent b)).
      destruct (meta_index_in_cube b i0 Hcov) as [Hm Hin].
      assert (Em : sub_scalar (MetaCells.GetMetaIndex (W:=W) i') (2 ^ (b - 1))
                   = MetaCells.GetMetaIndex (W:=W) i0).
      { unfold MetaCells.GetMetaIndex, div_scalar, sub_scalar, i', i0. simpl.
        destruct Hcov as (Hx & Hy & Hz). simpl in *.
        rewrite Hsucc.
        replace (ax i + 2 * half_extent b)
          with (ax i + half_extent b + S * 2 ^ (b - 1)) by lia.
        replace (ay i + 2 * half_extent b)
          with (ay i + half_extent b + S * 2 ^ (b - 1)) by lia.
        replace (az i + 2 * half_extent b)
          with (az i + half_extent b + S * 2 ^ (b - 1)) by lia.
        rewrite !quot_add by lia. f_equal; lia. }
      rewrite Em, decide_True by done.
      replace (sub3 i' (mul_scalar (MetaCells.GetMetaIndex i') S))
        with (sub3 i0 (mul_scalar (MetaCells.GetMetaIndex (W:=W) i0) S)); [done|].
      rewrite <- Em. unfold sub3, mul_scalar, sub_scalar, i', i0. simpl.
      rewrite Hsucc. f_equal; lia.
    + rewrite (DynamicGrid_value_outside g) by done.
      rewrite decide_False; [done|].
      intros (Hx & Hy & Hz). apply Hncov.
      unfold MetaCells.GetMetaIndex, div_scalar, sub_scalar, i' in Hx, Hy, Hz.
      simpl in Hx, Hy, Hz.
      destruct Hcov' as (Hx' & Hy' & Hz'). simpl in Hx', Hy', Hz'.
      assert (Hq : forall c, 0 <= c + half_extent (b + 1) ->
                0 <= Z.quot (c + half_extent (b + 1)) S - 2 ^ (b - 1) < 2 ^ b ->
                0 <= c + half_extent b < S * 2 ^ b).
      { intros c Hc0 Hq.
        assert (Hq' : 2 ^ (b - 1) <= Z.quot (c + half_extent (b + 1)) S
                      < 2 ^ (b - 1) + 2 ^ b) by lia.
        apply quot_bounds in Hq'; [|done]. lia. }
      unfold covers, in_cube. simpl.
      split; [apply Hq; lia|]. split; [apply Hq; lia|apply Hq; lia].
  - rewrite (DynamicGrid_value_outside g') by (rewrite ?Eb; done || lia).
    rewrite (DynamicGrid_value_outside g); [done|done|done|].
    intros Hcov. apply Hncov'. now apply (covers_le b (b + 1)); [lia|].
Qed.

Lemma DynamicGrid_new_wf : DynamicGrid_wf (DynamicGrid.new (W:=W)).
Proof.
  split; [simpl; lia|]. split; [reflexivity|].
  intros k w E. apply lookup_replicate in E. destruct E; discriminate.
Qed.

Lemma DynamicGrid_new_value i :
  DynamicGrid.value (DynamicGrid.new (W:=W)) i = default_value.
Proof.
  unfold DynamicGrid.value. destruct (any_ge_unsigned _ _); [done|].
  apply MetaCells_value_new.
Qed.

Lemma Grow_wf (g g' : DynamicGrid.t W) :
  DynamicGrid_wf g -> DynamicGrid.Grow g = Some g' ->
  DynamicGrid_wf g' /\ DynamicGrid.bits_ g' = DynamicGrid.bits_ g + 1.
Proof.
  intros Hwf EG.
  destruct (Z_lt_dec (DynamicGrid.bits_ g) 8) as [Hb8|Hb8];
    [|rewrite Grow_fails in EG by lia; discriminate].
  destruct (Grow_spec g Hwf Hb8) as (g'' & EG' & Eb & Hwf' & _).
  rewrite EG in EG'. inversion EG'; subst g''. done.
Qed.

Lemma shifted_index_in_cube g i :
  1 <= DynamicGrid.bits_ g <= 8 -> is_int3 i ->
  covers (DynamicGrid.bits_ g) i ->
  in_cube (S * 2 ^ DynamicGrid.bits_ g) (DynamicGrid.shifted_index g i).
Proof.
  intros Hb Hi Hc. now rewrite DynamicGrid_shifted_covered.
Qed.

Lemma shifted_index_inj g i j :
  1 <= DynamicGrid.bits_ g <= 8 -> is_int3 i -> is_int3 j ->
  covers (DynamicGrid.bits_ g) i -> covers (DynamicGrid.bits_ g) j ->
  DynamicGrid.shifted_index g i = DynamicGrid.shifted_index g j -> i = j.
Proof.
  intros Hb Hi Hj Hci Hcj.
  rewrite !DynamicGrid_shifted_covered by done.
  destruct i, j. simpl. intros E. inversion E. f_equal; lia.
Qed.

(** What [mutable_value] does, for every fuel that allows the grid to
    grow to its largest size. *)
Lemma mutable_value_fuel_spec (n : nat) (g : DynamicGrid.t W) i :
  DynamicGrid_wf g -> is_int3 i ->
  (Z.to_nat (8 - DynamicGrid.bits_ g) <= n)%nat ->
  match DynamicGrid.mutable_value_fuel n g i with
  | Ok (g', s) =>
      covers 8 i /\ DynamicGrid_wf g'
      /\ DynamicGrid.bits_ g <= DynamicGrid.bits_ g'
      /\ DynamicGrid_slot_of g' s i
      /\ (forall j, is_int3 j -> DynamicGrid.value g' j = DynamicGrid.value g j)
      /\ (covers (DynamicGrid.bits_ g) i ->
          DynamicGrid.bits_ g' = DynamicGrid.bits_ g)
      /\ (~ covers (DynamicGrid.bits_ g) i ->
          ~ covers (DynamicGrid.bits_ g' - 1) i)
  | Fatal => ~ covers 8 i
  | Undefined | OutOfFuel => False
  end.
Proof.
  revert g. induction n as [|n IH]; intros g Hwf Hi Hn.
  - destruct Hwf as [Hb Hc].
    assert (Hb8 : DynamicGrid.bits_ g = 8) by lia.
    simpl. destruct (any_ge_unsigned _ _) eqn:E.
    + rewrite Grow_fails by lia. rewrite <- Hb8.
      intros Hcov. apply DynamicGrid_range_check in Hcov; [congruence|done..].
    + apply DynamicGrid_range_check in E; [|done..].
      destruct (MetaCells.mutable_value _ _ _) as [cells s] eqn:Em.
      pose proof (shifted_index_in_cube g i Hb Hi E) as Hin.
      destruct (MetaCells_mutable_value_spec (DynamicGrid.bits_ g) ltac:(lia)
                  _ _ _ _ Hc Hin Em)
        as (Hc' & Hs & Hval).
      split; [now rewrite <- Hb8|]. split; [done|]. split; [simpl; lia|].
      split; [done|]. split; [|done].
      intros j Hj. unfold DynamicGrid.value.
      change (DynamicGrid.grid_size {| DynamicGrid.bits_ := DynamicGrid.bits_ g;
                                      DynamicGrid.meta_cells_ := cells |})
        with (DynamicGrid.grid_size g).
      change (DynamicGrid.shifted_index
                {| DynamicGrid.bits_ := DynamicGrid.bits_ g;
                   DynamicGrid.meta_cells_ := cells |} j)
        with (DynamicGrid.shifted_index g j).
      destruct (any_ge_unsigned _ _) eqn:Ej; [done|].
      apply DynamicGrid_range_check in Ej; [|done..]. simpl.
      apply Hval. now apply shifted_index_in_cube.
  - pose proof Hwf as [Hb Hc].
    simpl. destruct (any_ge_unsigned _ _) eqn:E.
    + assert (Hncov : ~ covers (DynamicGrid.bits_ g) i).
      { intros Hcov. apply DynamicGrid_range_check in Hcov; [congruence|done..]. }
      destruct (DynamicGrid.Grow g) as [g1|] eqn:EG.
      * destruct (Grow_wf g g1 Hwf EG) as [Hwf1 Eb1].
        specialize (IH g1 Hwf1 Hi ltac:(lia)).
        destruct (DynamicGrid.mutable_value_fuel n g1 i) as [[g' s]| | |];
          try done.
        destruct IH as (H8 & Hwf' & Hle & Hs & Hval & Hsame & Hmin).
        split; [done|]. split; [done|]. split; [lia|]. split; [done|].
        split; [|split; [done|]].
        -- intros j Hj. rewrite Hval by done. now apply Grow_value.
        -- intros _. destruct (decide (covers (DynamicGrid.bits_ g1) i)) as [Hc1|Hc1].
           ++ rewrite (Hsame Hc1), Eb1.
              now replace (DynamicGrid.bits_ g + 1 - 1) with (DynamicGrid.bits_ g)
                by lia.
           ++ now apply Hmin.
      * destruct (Z_lt_dec (DynamicGrid.bits_ g) 8) as [Hb8|Hb8].
        -- destruct (Grow_spec g Hwf Hb8) as (? & EG' & _). congruence.
        -- now replace 8 with (DynamicGrid.bits_ g) by lia.
    + apply DynamicGrid_range_check in E; [|done..].
      destruct (MetaCells.mutable_value _ _ _) as [cells s] eqn:Em.
      pose proof (shifted_index_in_cube g i Hb Hi E) as Hin.
      destruct (MetaCells_mutable_value_spec (DynamicGrid.bits_ g) ltac:(lia)
                  _ _ _ _ Hc Hin Em)
        as (Hc' & Hs & Hval).
      split; [now apply (covers_le (DynamicGrid.bits_ g) 8)|].
      split; [done|]. split; [simpl; lia|].
      split; [done|]. split; [|done].
      intros j Hj. unfold DynamicGrid.value.
      change (DynamicGrid.grid_size {| DynamicGrid.bits_ := DynamicGrid.bits_ g;
                                      DynamicGrid.meta_cells_ := cells |})
        with (DynamicGrid.grid_size g).
      change (DynamicGrid.shifted_index
                {| DynamicGrid.bits_ := DynamicGrid.bits_ g;
                   DynamicGrid.meta_cells_ := cells |} j)
        with (DynamicGrid.shifted_index g j).
      destruct (any_ge_unsigned _ _) eqn:Ej; [done|].
      apply DynamicGrid_range_check in Ej; [|done..]. simpl.
      apply Hval. now apply shifted_index_in_cube.
Qed.

Lemma DynamicGrid_slot_get_spec (g : DynamicGrid.t W) s i :
  DynamicGrid_wf g -> is_int3 i -> DynamicGrid_slot_of g s i ->
  DynamicGrid.slot_get g s = DynamicGrid.value g i.
Proof.
  intros [Hb Hc] Hi [Hcov Hs].
  rewrite DynamicGrid_value_covered by done.
  now apply MetaCells_slot_get_spec.
Qed.

Lemma DynamicGrid_slot_set_spec (g : DynamicGrid.t W) s i v :
  DynamicGrid_wf g -> is_int3 i -> DynamicGrid_slot_of g s i ->
  DynamicGrid_wf (DynamicGrid.slot_set g s v)
  /\ DynamicGrid.bits_ (DynamicGrid.slot_set g s v) = DynamicGrid.bits_ g
  /\ DynamicGrid_slot_of (DynamicGrid.slot_set g s v) s i
  /\ (forall j, is_int3 j ->
        DynamicGrid.value (DynamicGrid.slot_set g s v) j
        = if decide (j = i) then v else DynamicGrid.value g j).
Proof.
  intros [Hb Hc] Hi [Hcov Hs].
  pose proof (shifted_index_in_cube g i Hb Hi Hcov) as Hin.
  destruct (MetaCells_slot_set_spec (DynamicGrid.bits_ g) ltac:(lia)
              _ _ _ v Hc Hin Hs)
    as (Hc' & Hs' & Hval).
  split; [done|]. split; [done|]. split; [done|].
  intros j Hj. unfold DynamicGrid.value.
  change (DynamicGrid.grid_size (DynamicGrid.slot_set g s v))
    with (DynamicGrid.grid_size g).
  change (DynamicGrid.shifted_index (DynamicGrid.slot_set g s v) j)
    with (DynamicGrid.shifted_index g j).
  destruct (any_ge_unsigned _ _) eqn:Ej.
  - rewrite decide_False; [done|]. intros ->.
    apply DynamicGrid_range_check in Hcov; [congruence|done..].
  - apply DynamicGrid_range_check in Ej; [|done..]. simpl.
    rewrite Hval by now apply shifted_index_in_cube.
    destruct (decide (j = i)) as [->|Hne].
    + now rewrite decide_True.
    + rewrite decide_False; [done|].
      intros E. apply Hne. now apply (shifted_index_inj g).
Qed.

(** ** DynamicGrid: iteration *)

Definition signed_entry (offset : Z) (q : Array3i * V) : Array3i * V :=
  (sub_scalar q.1 offset, q.2).

Lemma iterate_fuel_collect (n : nat) (it last : DynamicGrid.Iterator (W:=W)) :
  MetaCells.rest (DynamicGrid.it_meta last) = [] ->
  DynamicGrid.iterate_fuel n it last
  = signed_entry (Z.shiftl 1 (DynamicGrid.it_bits_ it - 1) * S)
      <$> iter_collect (G:=NestedGrid.t W (DynamicGrid.it_bits_ it)) n
            (DynamicGrid.it_meta it).
Proof.
  intros Hlast. revert it. induction n as [|n IH]; intros it; [done|].
  simpl. unfold DynamicGrid.neq. rewrite Hlast.
  destruct it as [b [rest nested]]. simpl.
  destruct rest as [|c rest]; [done|]. simpl.
  rewrite IH. done.
Qed.

Lemma DynamicGrid_iterate_cells (g : DynamicGrid.t W) :
  DynamicGrid_wf g ->
  DynamicGrid.iterate g
  = signed_entry (half_extent (DynamicGrid.bits_ g))
      <$> meta_cells_from (DynamicGrid.bits_ g) (DynamicGrid.meta_cells_ g).
Proof.
  intros [Hb [Hlen Hall]]. unfold DynamicGrid.iterate.
  rewrite iterate_fuel_collect by done.
  cbn [DynamicGrid.begin DynamicGrid.it_bits_ DynamicGrid.it_meta].
  assert (Hv : meta_iter_valid (MetaCells.begin (DynamicGrid.meta_cells_ g)))
    by now apply Advance_valid.
  rewrite (meta_collect_enough (DynamicGrid.bits_ g) _
             (MetaCells.fuel (MetaCells.begin (DynamicGrid.meta_cells_ g))))
    by (done || lia).
  unfold MetaCells.begin.
  rewrite (meta_collect_Advance (DynamicGrid.bits_ g)) by done.
  f_equal. unfold half_extent. rewrite shiftl_1_pow2 by lia.
  f_equal. lia.
Qed.

(** The order of iteration: the signed indices of the meta order. *)
Definition DynamicGrid_order (bits : Z) : list Array3i :=
  (fun p => sub_scalar p (half_extent bits)) <$> meta_order (W:=W) bits.

Lemma unshift_covered (g : DynamicGrid.t W) p :
  1 <= DynamicGrid.bits_ g <= 8 ->
  in_cube (S * 2 ^ DynamicGrid.bits_ g) p ->
  let i := sub_scalar p (half_extent (DynamicGrid.bits_ g)) in
  is_int3 i /\ covers (DynamicGrid.bits_ g) i
  /\ DynamicGrid.shifted_index g i = p.
Proof.
  intros Hb Hp i.
  destruct (half_extent_bounds _ Hb) as (Hh & Hs & Hlt).
  assert (Hi : is_int3 i).
  { destruct Hp as (Hx & Hy & Hz). unfold is_int3, is_int, i. simpl. lia. }
  assert (Hc : covers (DynamicGrid.bits_ g) i).
  { unfold covers, i. simpl.
    replace (ax p - half_extent (DynamicGrid.bits_ g)
             + half_extent (DynamicGrid.bits_ g)) with (ax p) by lia.
    replace (ay p - half_extent (DynamicGrid.bits_ g)
             + half_extent (DynamicGrid.bits_ g)) with (ay p) by lia.
    replace (az p - half_extent (DynamicGrid.bits_ g)
             + half_extent (DynamicGrid.bits_ g)) with (az p) by lia.
    now destruct p. }
  split; [done|]. split; [done|].
  rewrite DynamicGrid_shifted_covered by done.
  unfold i. destruct p. simpl. f_equal; lia.
Qed.

Lemma DynamicGrid_iterate_order (g : DynamicGrid.t W) :
  DynamicGrid_wf g ->
  DynamicGrid.iterate g
  = omap (cell_entry (DynamicGrid.value g))
         (DynamicGrid_order (DynamicGrid.bits_ g)).
Proof.
  intros Hwf. pose proof Hwf as [Hb Hc].
  rewrite DynamicGrid_iterate_cells by done.
  rewrite (meta_cells_order (DynamicGrid.bits_ g)) by (done || lia).
  unfold DynamicGrid_order, signed_entry. symmetry.
  apply (omap_cell_entry_fmap (DynamicGrid.value g)
           (MetaCells.value (DynamicGrid.meta_cells_ g) (DynamicGrid.bits_ g))
           (fun p => sub_scalar p (half_extent (DynamicGrid.bits_ g)))).
  intros p Hp. apply meta_order_in_cube in Hp; [|lia].
  destruct (unshift_covered g p Hb Hp) as (Hi & Hcov & Es).
  rewrite DynamicGrid_value_covered by done. now rewrite Es.
Qed.

Lemma DynamicGrid_iterate_spec (g : DynamicGrid.t W) i v :
  DynamicGrid_wf g ->
  (i, v) ∈ DynamicGrid.iterate g
  <-> is_int3 i /\ covers (DynamicGrid.bits_ g) i
      /\ DynamicGrid.value g i = v /\ v <> default_value.
Proof.
  intros Hwf. pose proof Hwf as [Hb Hc].
  rewrite DynamicGrid_iterate_cells by done.
  rewrite list_elem_of_fmap. split.
  - intros ([p u] & E & Hin). unfold signed_entry in E. simpl in E.
    inversion E; subst. clear E.
    apply meta_cells_spec in Hin as (Hp & Hv & Hd); [|lia|done].
    destruct (unshift_covered g p Hb Hp) as (Hi & Hcov & Es).
    split; [done|]. split; [done|].
    rewrite DynamicGrid_value_covered by done. now rewrite Es.
  - intros (Hi & Hcov & Hv & Hd).
    exists (DynamicGrid.shifted_index g i, v). split.
    + unfold signed_entry. simpl. f_equal.
      rewrite DynamicGrid_shifted_covered by done.
      destruct i. unfold sub_scalar. simpl. f_equal; lia.
    + apply meta_cells_spec; [lia|done|].
      split; [now apply shifted_index_in_cube|].
      now rewrite <- DynamicGrid_value_covered.
Qed.

Lemma DynamicGrid_iterate_NoDup (g : DynamicGrid.t W) :
  DynamicGrid_wf g -> NoDup (DynamicGrid.iterate g).*1.
Proof.
  intros Hwf. pose proof Hwf as [Hb [Hlen Hall]].
  rewrite DynamicGrid_iterate_cells by done.
  rewrite <- list_fmap_compose.
  replace (fst ∘ signed_entry (half_extent (DynamicGrid.bits_ g)))
    with ((fun p => sub_scalar p (half_extent (DynamicGrid.bits_ g)))
            ∘ (fst : Array3i * V -> Array3i)) by done.
  rewrite list_fmap_compose.
  apply NoDup_fmap_2.
  - intros [x y z] [x' y' z'] E. unfold sub_scalar in E. simpl in E.
    inversion E. f_equal; lia.
  - apply meta_cells_from_NoDup; [lia|done|lia].
Qed.

(** ** DynamicGrid: the states a program can reach *)

Inductive DynamicGrid_reachable : DynamicGrid.t W -> Prop :=
| reachable_new : DynamicGrid_reachable DynamicGrid.new
| reachable_mutable_value g i g' s :
    DynamicGrid_reachable g -> is_int3 i ->
    DynamicGrid.mutable_value g i = Ok (g', s) ->
    DynamicGrid_reachable g'
| reachable_write g i v g' :
    DynamicGrid_reachable g -> is_int3 i ->
    DynamicGrid.write g i v = Ok g' ->
    DynamicGrid_reachable g'.

Lemma mutable_value_spec (g : DynamicGrid.t W) i :
  DynamicGrid_wf g -> is_int3 i ->
  match DynamicGrid.mutable_value g i with
  | Ok (g', s) =>
      covers 8 i /\ DynamicGrid_wf g'
      /\ DynamicGrid.bits_ g <= DynamicGrid.bits_ g'
      /\ DynamicGrid_slot_of g' s i
      /\ (forall j, is_int3 j -> DynamicGrid.value g' j = DynamicGrid.value g j)
      /\ (covers (DynamicGrid.bits_ g) i ->
          DynamicGrid.bits_ g' = DynamicGrid.bits_ g)
      /\ (~ covers (DynamicGrid.bits_ g) i ->
          ~ covers (DynamicGrid.bits_ g' - 1) i)
  | Fatal => ~ covers 8 i
  | Undefined | OutOfFuel => False
  end.
Proof.
  intros Hwf Hi. apply mutable_value_fuel_spec; [done|done|].
  destruct Hwf as [Hb _]. lia.
Qed.

Lemma write_spec (g : DynamicGrid.t W) i v :
  DynamicGrid_wf g -> is_int3 i ->
  match DynamicGrid.write g i v with
  | Ok g' =>
      covers 8 i /\ DynamicGrid_wf g'
      /\ DynamicGrid.bits_ g <= DynamicGrid.bits_ g'
      /\ (forall j, is_int3 j ->
            DynamicGrid.value g' j
            = if decide (j = i) then v else DynamicGrid.value g j)
  | Fatal => ~ covers 8 i
  | Undefined | OutOfFuel => False
  end.
Proof.
  intros Hwf Hi. unfold DynamicGrid.write.
  pose proof (mutable_value_spec g i Hwf Hi) as Hm.
  destruct (DynamicGrid.mutable_value g i) as [[g' s]| | |]; simpl; try done.
  destruct Hm as (H8 & Hwf' & Hle & Hs & Hval & _).
  destruct (DynamicGrid_slot_set_spec g' s i v Hwf' Hi Hs)
    as (Hwf'' & Eb & _ & Hval').
  split; [done|]. split; [done|]. split; [lia|].
  intros j Hj. rewrite Hval' by done.
  destruct (decide (j = i)); [done|]. now apply Hval.
Qed.

Lemma DynamicGrid_reachable_wf (g : DynamicGrid.t W) :
  DynamicGrid_reachable g -> DynamicGrid_wf g.
Proof.
  induction 1 as [|g i g' s Hr IH Hi E|g i v g' Hr IH Hi E].
  - apply DynamicGrid_new_wf.
  - pose proof (mutable_value_spec g i IH Hi) as Hm. rewrite E in Hm. tauto.
  - pose proof (write_spec g i v IH Hi) as Hm. rewrite E in Hm. tauto.
Qed.

End DynamicGridFacts.

(** ** GridBase: the grid of HybridGridBase *)

Global Existing Instance Flat3_laws.
Global Existing Instance Nested3_laws.

(** The indices within the hard limit: [-8192 <= c < 8192] on every axis. *)
Definition addressable (i : Array3i) : Prop :=
  (- 8192 <= ax i < 8192) /\ (- 8192 <= ay i < 8192)
  /\ (- 8192 <= az i < 8192).

Global Instance addressable_dec i : Decision (addressable i).
Proof. unfold addressable. apply _. Defined.

(** [*mutable_value(index) = v] for a list of indices and values, in
    order. *)
Fixpoint write_all {V : Type} `{DefaultValue V} (g : GridBase V)
  (ws : list (Array3i * V)) : Outcome (GridBase V) :=
  match ws with
  | [] => Ok g
  | (i, v) :: ws' => g' ← DynamicGrid.write g i v; write_all g' ws'
  end.

(** The value most recently written to [i] by the writes [ws], or
    [before] if there is none. *)
Fixpoint last_written {V : Type} (ws : list (Array3i * V)) (i : Array3i)
  (before : V) : V :=
  match ws with
  | [] => before
  | (j, v) :: ws' => last_written ws' i (if decide (j = i) then v else before)
  end.


(** The order of iteration in the words of the design: the outer meta
    cells by ascending flat index, in each the nested meta cells by
    ascending flat index, in each the cells by ascending flat index; the
    index is [meta * 64 + inner - 2^(bits-1) * 64]. *)
Definition iteration_order (bits : Z) : list Array3i :=
  outer ← seqZ 0 (2 ^ (3 * bits));
  nested ← seqZ 0 512;
  flat ← seqZ 0 512;
  let inner := add3 (mul_scalar (To3DIndex nested 3) 8) (To3DIndex flat 3) in
  [sub_scalar (add3 (mul_scalar (To3DIndex outer bits) 64) inner)
              (2 ^ (bits - 1) * 64)].

Section GridBaseFacts.
Context {V : Type} `{DefaultValue V}.

Local Abbreviation W := (NestedGrid.t (FlatGrid.t V 3) 3).

Lemma GridBase_size : grid_size W = 64.
Proof. reflexivity. Qed.

Lemma GridBase_size_bound : grid_size W * 2 ^ 8 < 2 ^ 31.
Proof. rewrite GridBase_size. lia. Qed.

Lemma GridBase_half_extent_8 : half_extent (W:=W) 8 = 8192.
Proof. reflexivity. Qed.

Lemma covers_8_addressable i : covers (W:=W) 8 i <-> addressable i.
Proof.
  rewrite covers_iff by lia. rewrite GridBase_half_extent_8.
  unfold addressable. lia.
Qed.

Lemma addressable_is_int3 i : addressable i -> is_int3 i.
Proof. unfold addressable, is_int3, is_int. lia. Qed.


Lemma GridBase_write_addressable (g : GridBase V) i v :
  DynamicGrid_reachable g -> addressable i ->
  exists g',
    DynamicGrid.write g i v = Ok g' /\ DynamicGrid_reachable g'
    /\ forall j, is_int3 j ->
         DynamicGrid.value g' j
         = if decide (j = i) then v else DynamicGrid.value g j.
Proof.
  intros Hr Ha.
  pose proof (DynamicGrid_reachable_wf GridBase_size_bound g Hr) as Hwf.
  pose proof (addressable_is_int3 i Ha) as Hi.
  pose proof (write_spec GridBase_size_bound g i v Hwf Hi) as Hs.
  destruct (DynamicGrid.write g i v) as [g'| | |] eqn:E; try done.
  - exists g'. split; [done|]. split; [|tauto].
    eapply reachable_write; eauto.
  - exfalso. apply Hs. now apply covers_8_addressable.
Qed.

Lemma GridBase_write_outside (g : GridBase V) i v :
  DynamicGrid_reachable g -> is_int3 i -> ~ addressable i ->
  DynamicGrid.mutable_value g i = Fatal /\ DynamicGrid.write g i v = Fatal
  /\ DynamicGrid.value g i = default_value.
Proof.
  intros Hr Hi Ha.
  pose proof (DynamicGrid_reachable_wf GridBase_size_bound g Hr) as Hwf.
  pose proof (mutable_value_spec GridBase_size_bound g i Hwf Hi) as Hs.
  assert (Hm : DynamicGrid.mutable_value g i = Fatal).
  { destruct (DynamicGrid.mutable_value g i) as [[g' s]| | |]; try done.
    exfalso. apply Ha. apply covers_8_addressable. tauto. }
  split; [done|]. split; [unfold DynamicGrid.write; now rewrite Hm|].
  destruct Hwf as [Hb Hc].
  apply (DynamicGrid_value_outside GridBase_size_bound); [done|done|].
  intros Hcov. apply Ha. apply covers_8_addressable.
  now apply (covers_le (DynamicGrid.bits_ g) 8).
Qed.

Lemma write_all_spec (g : GridBase V) ws :
  DynamicGrid_reachable g -> (forall w, w ∈ ws -> addressable w.1) ->
  exists g',
    write_all g ws = Ok g' /\ DynamicGrid_reachable g'
    /\ forall i, is_int3 i ->
         DynamicGrid.value g' i = last_written ws i (DynamicGrid.value g i).
Proof.
  revert g. induction ws as [|[j v] ws IH]; intros g Hr Ha.
  - exists g. done.
  - destruct (GridBase_write_addressable g j v Hr) as (g1 & E1 & Hr1 & Hv1).
    { apply (Ha (j, v)). now left. }
    destruct (IH g1 Hr1) as (g' & E' & Hr' & Hv').
    { intros w Hw. apply Ha. now right. }
    exists g'. simpl. rewrite E1. simpl. split; [done|]. split; [done|].
    intros i Hi. rewrite Hv', Hv1 by done.
    destruct (decide (i = j)) as [->|Hne].
    + now rewrite decide_True.
    + rewrite decide_False by congruence. done.
Qed.

Lemma last_written_untouched (ws : list (Array3i * V)) i before :
  (forall w, w ∈ ws -> w.1 <> i) -> last_written ws i before = before.
Proof.
  revert before. induction ws as [|[j v] ws IH]; intros before Hn; [done|].
  simpl. rewrite decide_False by (apply (Hn (j, v)); now left).
  apply IH. intros w Hw. apply Hn. now right.
Qed.

Lemma fmap_bind_list {A B C} (f : B -> C) (k : A -> list B) (l : list A) :
  f <$> (l ≫= k) = l ≫= (fun x => f <$> k x).
Proof.
  induction l as [|x l IH]; [done|].
  now rewrite !bind_cons, fmap_app, IH.
Qed.

Lemma fmap_as_bind {A B} (f : A -> B) (l : list A) :
  f <$> l = l ≫= (fun x => [f x]).
Proof. induction l as [|x l IH]; [done|]. rewrite bind_cons, <- IH. done. Qed.

Lemma DynamicGrid_order_eq bits :
  DynamicGrid_order (W:=W) bits = iteration_order bits.
Proof.
  unfold DynamicGrid_order, iteration_order, meta_order, meta_order_from.
  rewrite fmap_bind_list. apply list_bind_ext; [|done]. intros outer.
  rewrite <- list_fmap_compose. simpl grid_order.
  unfold NestedGrid_order, meta_order, meta_order_from.
  rewrite fmap_bind_list.
  change (2 ^ (3 * 3)) with 512.
  apply list_bind_ext; [|done]. intros nested.
  rewrite <- list_fmap_compose. simpl grid_order. unfold FlatGrid_order.
  rewrite <- list_fmap_compose. change (2 ^ (3 * 3)) with 512.
  rewrite fmap_as_bind. apply list_bind_ext; [|done]. intros flat.
  simpl. unfold place, half_extent.
  change (grid_size W) with 64.
  change (grid_size (FlatGrid.t V 3)) with 8.
  do 2 f_equal. lia.
Qed.




Lemma GridBase_iterate_member (g : GridBase V) i v :
  DynamicGrid_reachable g -> is_int3 i ->
  (i, v) ∈ DynamicGrid.iterate g
  <-> DynamicGrid.value g i = v /\ v <> default_value.
Proof.
  intros Hr Hi.
  pose proof (DynamicGrid_reachable_wf GridBase_size_bound g Hr) as Hwf.
  rewrite (DynamicGrid_iterate_spec GridBase_size_bound) by done.
  split; [tauto|]. intros [Ev Hd]. split; [done|]. split; [|done].
  destruct (decide (covers (W:=W) (DynamicGrid.bits_ g) i)) as [Hc|Hc]; [done|].
  destruct Hwf as [Hb _].
  rewrite (DynamicGrid_value_outside GridBase_size_bound) in Ev by done.
  congruence.
Qed.

End GridBaseFacts.

Section GridBaseClaims.
Context {V : Type} `{DefaultValue V}.

Local Abbreviation W := (NestedGrid.t (FlatGrid.t V 3) 3).

Lemma GridBase_mutable_value_addressable (g : GridBase V) i :
  DynamicGrid_reachable g -> addressable i ->
  exists g' s,
    DynamicGrid.mutable_value g i = Ok (g', s)
    /\ DynamicGrid.bits_ g <= DynamicGrid.bits_ g' <= 8
    /\ forall j, is_int3 j -> DynamicGrid.value g' j = DynamicGrid.value g j.
Proof.
  intros Hr Ha.
  pose proof (DynamicGrid_reachable_wf GridBase_size_bound g Hr) as Hwf.
  pose proof (addressable_is_int3 i Ha) as Hi.
  pose proof (mutable_value_spec GridBase_size_bound g i Hwf Hi) as Hs.
  destruct (DynamicGrid.mutable_value g i) as [[g' s]| | |] eqn:E; try done.
  - exists g', s. split; [done|].
    destruct Hs as (_ & [Hb' _] & Hle & _ & Hval & _). split; [lia|done].
  - exfalso. apply Hs. now apply covers_8_addressable.
Qed.


(** C1: a value written through [mutable_value] at an addressable index
    is what [value] returns there afterwards, also after any number of
    later writes to other indices and after any growth: after a sequence
    of writes, [value] returns at every index the value most recently
    written to it (the value it had before, where none was written), and
    [Grow] leaves the value at every signed index as it was. *)
Theorem C1_value_returns_last_write (g : GridBase V)
  (ws : list (Array3i * V)) :
  DynamicGrid_reachable g ->
  Forall (fun w => addressable w.1) ws ->
  (exists g',
      write_all g ws = Ok g'
      /\ forall i, is_int3 i ->
           DynamicGrid.value g' i = last_written ws i (DynamicGrid.value g i))
  /\ (forall i v ws',
        ws = (i, v) :: ws' -> Forall (fun w => w.1 <> i) ws' ->
        exists g1 g',
          DynamicGrid.write g i v = Ok g1 /\ DynamicGrid.value g1 i = v
          /\ write_all g1 ws' = Ok g' /\ DynamicGrid.value g' i = v)
  /\ (forall g1,
        DynamicGrid.Grow g = Some g1 ->
        forall i, is_int3 i -> DynamicGrid.value g1 i = DynamicGrid.value g i).
Proof.
  intros Hr Ha. rewrite list.Forall_forall in Ha.
  pose proof (DynamicGrid_reachable_wf GridBase_size_bound g Hr) as Hwf.
  split; [|split].
  - destruct (write_all_spec g ws Hr Ha) as (g' & E & _ & Hv). eauto.
  - intros i v ws' -> Hne. rewrite list.Forall_forall in Hne.
    assert (Hai : addressable i) by (apply (Ha (i, v)); now left).
    pose proof (addressable_is_int3 i Hai) as Hi.
    destruct (GridBase_write_addressable g i v Hr Hai) as (g1 & E1 & Hr1 & Hv1).
    destruct (write_all_spec g1 ws' Hr1) as (g' & E' & _ & Hv').
    { intros w Hw. apply Ha. now right. }
    exists g1, g'. split; [done|].
    assert (Ev : DynamicGrid.value g1 i = v)
      by (rewrite Hv1 by done; now rewrite decide_True).
    split; [done|]. split; [done|].
    rewrite Hv' by done. now rewrite last_written_untouched.
  - intros g1 EG i Hi. now apply (Grow_value GridBase_size_bound g).
Qed.


(** C3: in every reachable grid a write to [(8191, 0, 0)] succeeds, a
    write to [(8192, 0, 0)] and to every index that eight bits do not
    cover ends in the fatal error, and a read at such an index returns
    the default. *)
Theorem C3_hard_limit (g : GridBase V) (v : V) :
  DynamicGrid_reachable g ->
  (exists g' s, DynamicGrid.mutable_value g (A3 8191 0 0) = Ok (g', s))
  /\ (exists g', DynamicGrid.write g (A3 8191 0 0) v = Ok g'
                 /\ DynamicGrid.value g' (A3 8191 0 0) = v)
  /\ DynamicGrid.mutable_value g (A3 8192 0 0) = Fatal
  /\ DynamicGrid.write g (A3 8192 0 0) v = Fatal
  /\ DynamicGrid.value g (A3 8192 0 0) = default_value
  /\ (forall i, is_int3 i -> ~ covers (W:=W) 8 i ->
        DynamicGrid.mutable_value g i = Fatal
        /\ DynamicGrid.write g i v = Fatal
        /\ DynamicGrid.value g i = default_value).
Proof.
  intros Hr.
  assert (Ha : addressable (A3 8191 0 0)) by (unfold addressable; simpl; lia).
  assert (Hn : ~ addressable (A3 8192 0 0)) by (unfold addressable; simpl; lia).
  assert (Hi : is_int3 (A3 8192 0 0))
    by (unfold is_int3, is_int; simpl; lia).
  split; [|split].
  - destruct (GridBase_mutable_value_addressable g _ Hr Ha) as (g' & s & E & _).
    eauto.
  - destruct (GridBase_write_addressable g _ v Hr Ha) as (g' & E & _ & Hv).
    exists g'. split; [done|].
    rewrite Hv by now apply addressable_is_int3. now rewrite decide_True.
  - destruct (GridBase_write_outside g _ v Hr Hi Hn) as (E1 & E2 & E3).
    split; [done|]. split; [done|]. split; [done|].
    intros i Hi' Hc. apply GridBase_write_outside; [done|done|].
    intros Ha'. apply Hc. now apply covers_8_addressable.
Qed.

(** C4: in every reachable grid the iteration yields, in the order
    "outer meta cells by ascending flat index, then nested meta cells,
    then cells" with the index [meta * 64 + inner - 2^(bits-1) * 64],
    the entry [(index, value)] of every cell whose value differs from
    the default: one entry per such cell and nothing else. *)
Theorem C4_iteration_complete_ordered (g : GridBase V) :
  DynamicGrid_reachable g ->
  DynamicGrid.iterate g
  = omap (cell_entry (DynamicGrid.value g))
         (iteration_order (DynamicGrid.bits_ g))
  /\ NoDup (DynamicGrid.iterate g).*1
  /\ (forall i v, is_int3 i ->
        (i, v) ∈ DynamicGrid.iterate g
        <-> DynamicGrid.value g i = v /\ v <> default_value).
Proof.
  intros Hr.
  pose proof (DynamicGrid_reachable_wf GridBase_size_bound g Hr) as Hwf.
  split; [|split].
  - rewrite <- DynamicGrid_order_eq.
    now apply (DynamicGrid_iterate_order GridBase_size_bound).
  - now apply (DynamicGrid_iterate_NoDup (W:=W)).
  - intros i v Hi. now apply GridBase_iterate_member.
Qed.


End GridBaseClaims.

(** ** Further properties of the index arithmetic *)




(** ** Further properties of NestedGrid *)

Section NestedGridExtras.

Context {V W : Type} `{GridLaws V W} (kBits : Z).
Hypothesis kBits_nonneg : 0 <= kBits.

(** X3: [NestedGrid::mutable_value] constructs at most the one wrapped
    grid that contains the index: after the call the meta cell of the
    index is not null, every other meta cell is the pointer it was, and
    no value of the grid has changed. *)
Theorem NestedGrid_mutable_value_allocates_one (g g' : NestedGrid.t W kBits)
  (i : Array3i) (s : nat * GridSlot W) :
  NestedGrid_wf kBits g -> in_cube (NestedGrid.size (W:=W) kBits) i ->
  NestedGrid.mutable_value kBits g i = (g', s) ->
  let k := Z.to_nat (ToFlatIndex (MetaCells.GetMetaIndex (W:=W) i) kBits) in
  (exists w, NestedGrid.meta_cells_ g' !! k = Some (Some w))
  /\ (forall j, j <> k ->
        NestedGrid.meta_cells_ g' !! j = NestedGrid.meta_cells_ g !! j)
  /\ (forall w, NestedGrid.meta_cells_ g !! k = Some (Some w) ->
        exists w', grid_mutable_value w
                     (sub3 i (mul_scalar (MetaCells.GetMetaIndex (W:=W) i)
                                (grid_size W)))
                   = (w', s.2)
                   /\ NestedGrid.meta_cells_ g' !! k = Some (Some w'))
  /\ (forall j, in_cube (NestedGrid.size (W:=W) kBits) j ->
        NestedGrid.value kBits g' j = NestedGrid.value kBits g j).
Proof.
  intros Hwf Hi E k.
  destruct (NestedGrid_mutable_value_spec kBits kBits_nonneg g i g' s Hwf Hi E)
    as (_ & _ & Hval).
  rewrite NestedGrid_size_eq in Hi by done.
  pose proof (meta_flat_nat kBits kBits_nonneg i Hi) as Hk. fold k in Hk.
  destruct Hwf as [Hlen _]. rewrite <- Hlen in Hk.
  unfold NestedGrid.mutable_value, MetaCells.mutable_value in E.
  fold k in E.
  destruct (grid_mutable_value _ _) as [w' s'] eqn:Em in E.
  inversion E; subst g' s; clear E. cbn [NestedGrid.meta_cells_].
  split; [|split; [|split]].
  - exists w'. now apply list_lookup_insert_eq.
  - intros j Hj. now apply list_lookup_insert_ne.
  - intros w Ew. exists w'. split; [|now apply list_lookup_insert_eq].
    unfold MetaCells.get in Em. fold k in Em. rewrite Ew in Em. exact Em.
  - exact Hval.
Qed.

(** X20: the iterator of a NestedGrid, driven by [Done] and [Next]
    from the first position, yields the cells whose value differs from
    the default, each once, by ascending meta cell and inside a meta
    cell in the order of the wrapped grid's iterator. *)
Theorem NestedGrid_iteration (g : NestedGrid.t W kBits) :
  NestedGrid_wf kBits g ->
  let cells := iter_collect (iter_fuel (iter_begin g)) (iter_begin g) in
  cells = omap (cell_entry (NestedGrid.value kBits g)) (NestedGrid_order kBits)
  /\ NoDup cells.*1
  /\ (forall i v,
        (i, v) ∈ cells
        <-> in_cube (NestedGrid.size (W:=W) kBits) i
            /\ NestedGrid.value kBits g i = v /\ v <> default_value).
Proof.
  intros Hwf cells. unfold cells.
  rewrite (NestedGrid_begin_collect kBits g Hwf).
  split; [now apply NestedGrid_cells_order|].
  split; [now apply NestedGrid_cells_NoDup|].
  intros i v. now apply NestedGrid_cells_spec.
Qed.

(** X21: the iterator of a NestedGrid never stands on a wrapped grid
    whose own iterator is finished: at every position reached from the
    first one by [Next] before [Done], the nested iterator is not done,
    so [GetValue] and [GetCellIndex] read a cell. *)
Theorem NestedGrid_iterator_on_a_cell (g : NestedGrid.t W kBits) (n : nat) :
  NestedGrid_wf kBits g ->
  (forall k, (k <= n)%nat ->
     MetaCells.Done (Nat.iter k MetaCells.Next (NestedGrid.begin kBits g))
     = false) ->
  iter_Done (MetaCells.nested_iterator_
               (Nat.iter n MetaCells.Next (NestedGrid.begin kBits g)))
  = false.
Proof.
  intros Hwf Hn.
  assert (Hv : forall k, (k <= n)%nat ->
             meta_iter_valid
               (Nat.iter k MetaCells.Next (NestedGrid.begin kBits g))).
  { induction k as [|k IH]; intros Hk.
    - now apply NestedGrid_begin_valid.
    - cbn [Nat.iter]. apply meta_Next_valid; [apply IH; lia|apply Hn; lia]. }
  destruct (Hv n ltac:(lia)) as [_ [Hnil|[_ Hd]]]; [|done].
  specialize (Hn n ltac:(lia)). unfold MetaCells.Done in Hn.
  now rewrite Hnil in Hn.
Qed.

End NestedGridExtras.

(** ** Further properties of DynamicGrid *)

Section MutableValueTwice.

Context {V W : Type} `{DefaultValue V} `{Grid V W}.

(** A second [mutable_value] of the wrapped grid at the same index
    returns the same pointer and changes nothing. *)
Definition mutable_value_settles : Prop :=
  forall (w w' : W) i s,
    grid_mutable_value w i = (w', s) -> grid_mutable_value w' i = (w', s).

Hypothesis W_settles : mutable_value_settles.

Lemma MetaCells_mutable_value_twice (cells cells' : list (option W)) bits i s :
  MetaCells.mutable_value cells bits i = (cells', s) ->
  MetaCells.mutable_value cells' bits i = (cells', s).
Proof.
  unfold MetaCells.mutable_value.
  set (k := Z.to_nat (ToFlatIndex (MetaCells.GetMetaIndex (W:=W) i) bits)).
  set (inner := sub3 i (mul_scalar (MetaCells.GetMetaIndex (W:=W) i)
                          (grid_size W))).
  unfold MetaCells.get. fold k.
  destruct (grid_mutable_value _ inner) as [w' s'] eqn:Em.
  intros E. inversion E; subst cells' s; clear E.
  destruct (decide (k < length cells)%nat) as [Hk|Hk].
  - rewrite list_lookup_insert_eq by done.
    rewrite (W_settles _ _ _ _ Em). now rewrite list_insert_insert_eq.
  - rewrite list_insert_ge by lia. rewrite Em.
    now rewrite list_insert_ge by lia.
Qed.

Lemma mutable_value_fuel_twice (n m : nat) (g g' : DynamicGrid.t W) i s :
  DynamicGrid.mutable_value_fuel n g i = Ok (g', s) ->
  DynamicGrid.mutable_value_fuel m g' i = Ok (g', s).
Proof.
  revert g. induction n as [|n IH]; intros g.
  - cbn [DynamicGrid.mutable_value_fuel].
    destruct (any_ge_unsigned _ _) eqn:Ec.
    + destruct (DynamicGrid.Grow g); discriminate.
    + destruct (MetaCells.mutable_value _ _ _) as [cells s0] eqn:Em.
      intros E. inversion E; subst g' s; clear E.
      destruct m; cbn [DynamicGrid.mutable_value_fuel];
        change (DynamicGrid.shifted_index (DynamicGrid.Build _ cells) i)
          with (DynamicGrid.shifted_index g i);
        change (DynamicGrid.grid_size (DynamicGrid.Build _ cells))
          with (DynamicGrid.grid_size g);
        rewrite Ec; cbn [DynamicGrid.meta_cells_ DynamicGrid.bits_];
        now rewrite (MetaCells_mutable_value_twice _ _ _ _ _ Em).
  - cbn [DynamicGrid.mutable_value_fuel].
    destruct (any_ge_unsigned _ _) eqn:Ec.
    + destruct (DynamicGrid.Grow g) as [g1|]; [|discriminate]. apply IH.
    + destruct (MetaCells.mutable_value _ _ _) as [cells s0] eqn:Em.
      intros E. inversion E; subst g' s; clear E.
      destruct m; cbn [DynamicGrid.mutable_value_fuel];
        change (DynamicGrid.shifted_index (DynamicGrid.Build _ cells) i)
          with (DynamicGrid.shifted_index g i);
        change (DynamicGrid.grid_size (DynamicGrid.Build _ cells))
          with (DynamicGrid.grid_size g);
        rewrite Ec; cbn [DynamicGrid.meta_cells_ DynamicGrid.bits_];
        now rewrite (MetaCells_mutable_value_twice _ _ _ _ _ Em).
Qed.

End MutableValueTwice.

Lemma FlatGrid_settles {V : Type} `{DefaultValue V} (kBits : Z) :
  mutable_value_settles (W:=FlatGrid.t V kBits).
Proof. intros w w' i s E. inversion E; subst. reflexivity. Qed.

Lemma NestedGrid_settles {V W : Type} `{DefaultValue V} `{Grid V W}
  (kBits : Z) :
  mutable_value_settles (W:=W) ->
  mutable_value_settles (W:=NestedGrid.t W kBits).
Proof.
  intros HW g g' i s E. cbn in E |- *.
  unfold NestedGrid.mutable_value in *.
  destruct (MetaCells.mutable_value _ _ _) as [cells s0] eqn:Em.
  inversion E; subst g' s; clear E. cbn [NestedGrid.meta_cells_].
  now rewrite (MetaCells_mutable_value_twice HW _ _ _ _ _ Em).
Qed.

Section GridBaseExtras.

Context {V : Type} `{DefaultValue V}.
Local Abbreviation W := (NestedGrid.t (FlatGrid.t V 3) 3).

(** X4: a second [mutable_value] at the same index returns the same
    slot and leaves the grid as the first call left it: it neither grows
    nor constructs a wrapped grid again. *)
Theorem mutable_value_twice (g g' : GridBase V) (i : Array3i)
  (s : nat * GridSlot W) :
  DynamicGrid.mutable_value g i = Ok (g', s) ->
  DynamicGrid.mutable_value g' i = Ok (g', s).
Proof.
  apply mutable_value_fuel_twice.
  apply NestedGrid_settles, FlatGrid_settles.
Qed.

(** X5: [mutable_value] grows the grid no further than the index needs:
    the grid it returns covers the index, and no number of bits from the
    one before the call up to the one after it, the last excluded, does. *)
Theorem mutable_value_grows_minimally (g g' : GridBase V) (i : Array3i)
  (s : nat * GridSlot W) :
  DynamicGrid_reachable g -> is_int3 i ->
  DynamicGrid.mutable_value g i = Ok (g', s) ->
  covers (W:=W) (DynamicGrid.bits_ g') i
  /\ forall b, DynamicGrid.bits_ g <= b < DynamicGrid.bits_ g' ->
       ~ covers (W:=W) b i.
Proof.
  intros Hr Hi E.
  pose proof (DynamicGrid_reachable_wf GridBase_size_bound g Hr) as Hwf.
  pose proof (mutable_value_spec GridBase_size_bound g i Hwf Hi) as Hs.
  rewrite E in Hs. destruct Hs as (_ & _ & Hle & [Hc _] & _ & Hsame & Hmin).
  split; [done|]. intros b Hb Hcb.
  destruct Hwf as [Hbits _].
  destruct (decide (covers (W:=W) (DynamicGrid.bits_ g) i)) as [Hc0|Hc0].
  - specialize (Hsame Hc0). lia.
  - apply (Hmin Hc0). apply covers_le with (b := b); [lia|done].
Qed.

(** X6: [Grow] changes what iteration yields in no cell: the entries
    after the growth are those before it, in another order at most. *)
Theorem Grow_iterate_Permutation (g g' : GridBase V) :
  DynamicGrid_reachable g -> DynamicGrid.Grow g = Some g' ->
  DynamicGrid.iterate g' ≡ₚ DynamicGrid.iterate g.
Proof.
  intros Hr EG.
  pose proof (DynamicGrid_reachable_wf GridBase_size_bound g Hr) as Hwf.
  destruct (Grow_wf g g' Hwf EG) as [Hwf' Eb].
  apply NoDup_Permutation.
  - apply (NoDup_fmap_1 fst). now apply (DynamicGrid_iterate_NoDup (W:=W)).
  - apply (NoDup_fmap_1 fst). now apply (DynamicGrid_iterate_NoDup (W:=W)).
  - intros [i v].
    rewrite !(DynamicGrid_iterate_spec GridBase_size_bound) by done.
    split; intros (Hi & Hc & Ev & Hv).
    + rewrite (Grow_value GridBase_size_bound g g') in Ev by done.
      split; [done|]. split; [|done].
      destruct (decide (covers (W:=W) (DynamicGrid.bits_ g) i)) as [|Hn];
        [done|].
      exfalso. apply Hv. rewrite <- Ev.
      apply (DynamicGrid_value_outside GridBase_size_bound); [apply Hwf|done..].
    + split; [done|]. split.
      * rewrite Eb. apply (covers_mono GridBase_size_bound); [apply Hwf|done].
      * now rewrite (Grow_value GridBase_size_bound g g').
Qed.

(** X7: after a write to a cell iteration yields what it yielded before
    for every other cell, and for the cell written the new value if that
    is not the default and nothing if it is. *)
Theorem write_iterate (g g' : GridBase V) (i : Array3i) (v : V) :
  DynamicGrid_reachable g -> is_int3 i ->
  DynamicGrid.write g i v = Ok g' ->
  forall j u, is_int3 j ->
    (j, u) ∈ DynamicGrid.iterate g'
    <-> (j = i /\ u = v /\ v <> default_value)
        \/ (j <> i /\ (j, u) ∈ DynamicGrid.iterate g).
Proof.
  intros Hr Hi E j u Hj.
  assert (Hr' : DynamicGrid_reachable g')
    by (apply (reachable_write g i v); done).
  pose proof (DynamicGrid_reachable_wf GridBase_size_bound g Hr) as Hwf.
  pose proof (write_spec GridBase_size_bound g i v Hwf Hi) as Hs.
  rewrite E in Hs. destruct Hs as (_ & _ & _ & Hval).
  rewrite !GridBase_iterate_member by done. rewrite Hval by done.
  destruct (decide (j = i)) as [->|Hne].
  - split.
    + intros [<- Hu]. now left.
    + intros [(_ & -> & Hv)|[Hn _]]; done.
  - split.
    + intros Hm. now right.
    + intros [[Hji _]|[_ Hm]]; done.
Qed.

(** X8: the cast to unsigned in [value] and [mutable_value] is the test
    the comment in the source names: for an index of [int]s, no
    coordinate of the shifted index is at least [grid_size()] as an
    unsigned number exactly when every coordinate plus half the grid size
    is from 0 to [grid_size() - 1]. *)
Theorem unsigned_cast_is_range_check (g : GridBase V) (index : Array3i) :
  1 <= DynamicGrid.bits_ g <= 8 -> is_int3 index ->
  let half := Z.shiftr (DynamicGrid.grid_size g) 1 in
  any_ge_unsigned (DynamicGrid.shifted_index g index) (DynamicGrid.grid_size g)
  = false
  <-> (0 <= ax index + half < DynamicGrid.grid_size g)
      /\ (0 <= ay index + half < DynamicGrid.grid_size g)
      /\ (0 <= az index + half < DynamicGrid.grid_size g).
Proof.
  intros Hb Hi half.
  rewrite (DynamicGrid_range_check GridBase_size_bound) by done.
  unfold half. rewrite (DynamicGrid_half_eq (W:=W)) by lia.
  rewrite (DynamicGrid_grid_size_eq (W:=W)) by lia.
  unfold covers, in_cube. simpl. reflexivity.
Qed.

(** X22: the debug checks on the way of [value] and [mutable_value]
    hold. Once the unsigned test has let an index pass, [GetMetaIndex] of
    the DynamicGrid gets a shifted index without a negative coordinate
    and returns a meta index below [1 << bits_], which is what
    [ToFlatIndex] asks for; the inner index handed to the NestedGrid has
    no negative coordinate, its meta index is below [1 << 3], and the
    index handed to the FlatGrid is inside its cube. *)
Theorem range_check_guards_debug_checks (g : GridBase V) (index : Array3i) :
  1 <= DynamicGrid.bits_ g <= 8 -> is_int3 index ->
  any_ge_unsigned (DynamicGrid.shifted_index g index) (DynamicGrid.grid_size g)
  = false ->
  let shifted := DynamicGrid.shifted_index g index in
  let meta := MetaCells.GetMetaIndex (W:=W) shifted in
  let inner := sub3 shifted (mul_scalar meta (grid_size W)) in
  let nested_meta := MetaCells.GetMetaIndex (W:=FlatGrid.t V 3) inner in
  let flat :=
    sub3 inner (mul_scalar nested_meta (grid_size (FlatGrid.t V 3))) in
  (0 <= ax shifted /\ 0 <= ay shifted /\ 0 <= az shifted)
  /\ in_cube (Z.shiftl 1 (DynamicGrid.bits_ g)) meta
  /\ (0 <= ax inner /\ 0 <= ay inner /\ 0 <= az inner)
  /\ in_cube (Z.shiftl 1 3) nested_meta
  /\ in_cube (Z.shiftl 1 3) flat.
Proof.
  intros Hb Hi Hcheck shifted meta inner nested_meta flat.
  apply (DynamicGrid_range_check GridBase_size_bound) in Hcheck; [|done..].
  pose proof (shifted_index_in_cube GridBase_size_bound g index Hb Hi Hcheck)
    as Hs. fold shifted in Hs.
  destruct (meta_index_in_cube (W:=W) (DynamicGrid.bits_ g) shifted Hs)
    as [Hm Hin].
  change (inner_index shifted) with inner in Hin.
  assert (Hin' : in_cube (grid_size (FlatGrid.t V 3) * 2 ^ 3) inner)
    by exact Hin.
  destruct (meta_index_in_cube (W:=FlatGrid.t V 3) 3 inner Hin')
    as [Hm' Hflat].
  change (inner_index inner) with flat in Hflat.
  rewrite !shiftl_1_pow2 by lia.
  split; [unfold in_cube in Hs; lia|]. split; [done|].
  split; [unfold in_cube in Hin; lia|]. split; [done|]. exact Hflat.
Qed.

End GridBaseExtras.

(** ** The GPS fusion *)

Section GpsFusionFacts.

Context {Translation Pose : Type}.
Local Abbreviation Fusion := (GpsFusion.t Translation Pose).

(** A list of time stamps in which a later one is a greater one. *)
Definition increasing (l : list Z) : Prop :=
  forall (i j : nat) x y,
    l !! i = Some x -> l !! j = Some y -> (i < j)%nat -> x < y.

(** The states that [AddFixedPoint] and [AddLocalPose] lead to from the
    constructor. *)
Inductive GpsFusion_reachable : Fusion -> Prop :=
| reachable_GpsFusion : GpsFusion_reachable GpsFusion.new
| reachable_AddFixedPoint g time translation g' :
    GpsFusion_reachable g ->
    GpsFusion.AddFixedPoint g time translation = Ok g' ->
    GpsFusion_reachable g'
| reachable_AddLocalPose g time pose g' :
    GpsFusion_reachable g ->
    GpsFusion.AddLocalPose g time pose = Ok g' ->
    GpsFusion_reachable g'.

Lemma increasing_nil : increasing [].
Proof. intros i j x y Hi. inversion Hi. Qed.

Lemma increasing_snoc (l : list Z) (x : Z) :
  increasing l ->
  match list.last l with Some back => back < x | None => True end ->
  increasing (l ++ [x]).
Proof.
  intros Hl Hback i j a b Hi Hj Hij.
  assert (Hjl : (j < length (l ++ [x]))%nat) by (eapply lookup_lt_Some; eauto).
  rewrite length_app in Hjl. simpl in Hjl.
  rewrite lookup_app_l in Hi by lia.
  destruct (decide (j < length l)%nat) as [Hlt|Hge].
  - rewrite lookup_app_l in Hj by done. eauto.
  - assert (j = length l) by lia. subst j.
    rewrite lookup_app_r, Nat.sub_diag in Hj by lia.
    inversion Hj; subst b; clear Hj.
    rewrite list.last_lookup in Hback.
    destruct (decide (i = pred (length l))) as [->|Hne].
    + now rewrite Hi in Hback.
    + destruct (lookup_lt_is_Some_2 l (pred (length l)) ltac:(lia)) as [c Hc].
      rewrite Hc in Hback.
      assert (a < c) by (apply (Hl i (pred (length l))); [done|done|lia]).
      lia.
Qed.

Lemma last_fmap {A B} (f : A -> B) (l : list A) :
  list.last (f <$> l) = f <$> list.last l.
Proof.
  induction l as [|a [|b l] IH]; [done|done|].
  change (list.last (f <$> b :: l) = f <$> list.last (b :: l)). exact IH.
Qed.

Lemma GpsFusion_reachable_increasing (g : Fusion) :
  GpsFusion_reachable g ->
  increasing (GpsFusion.fp_timestamp <$> GpsFusion.fixed_points_ g)
  /\ increasing (GpsFusion.lp_timestamp <$> GpsFusion.local_poses_ g).
Proof.
  induction 1 as [|g time translation g' Hr [IHf IHl] E
                  |g time pose g' Hr [IHf IHl] E].
  - split; apply increasing_nil.
  - unfold GpsFusion.AddFixedPoint in E.
    destruct (list.last (GpsFusion.fixed_points_ g)) as [back|] eqn:Eb.
    + destruct (GpsFusion.fp_timestamp back <? time) eqn:Hlt; [|done].
      inversion E; subst g'; clear E. simpl. split; [|done].
      rewrite fmap_app. apply increasing_snoc; [done|].
      rewrite last_fmap, Eb. simpl. now apply Z.ltb_lt.
    + inversion E; subst g'; clear E. simpl. split; [|done].
      rewrite fmap_app. apply increasing_snoc; [done|].
      now rewrite last_fmap, Eb.
  - unfold GpsFusion.AddLocalPose in E.
    destruct (list.last (GpsFusion.local_poses_ g)) as [back|] eqn:Eb.
    + destruct (GpsFusion.lp_timestamp back <? time) eqn:Hlt; [|done].
      inversion E; subst g'; clear E. simpl. split; [done|].
      rewrite fmap_app. apply increasing_snoc; [done|].
      rewrite last_fmap, Eb. simpl. now apply Z.ltb_lt.
    + inversion E; subst g'; clear E. simpl. split; [done|].
      rewrite fmap_app. apply increasing_snoc; [done|].
      now rewrite last_fmap, Eb.
Qed.


(** X16: the two lists of the fusion stay ordered: after every sequence
    of [AddFixedPoint] and [AddLocalPose] calls that did not abort, the
    time stamps of the fixed points and those of the local poses grow
    strictly along the lists; a call aborts exactly when its time stamp
    is not greater than the last one of its list. *)
Theorem GpsFusion_timestamps_increase (g : Fusion) :
  GpsFusion_reachable g ->
  increasing (GpsFusion.fp_timestamp <$> GpsFusion.fixed_points_ g)
  /\ increasing (GpsFusion.lp_timestamp <$> GpsFusion.local_poses_ g)
  /\ (forall time translation,
        GpsFusion.AddFixedPoint g time translation = Fatal
        <-> exists back,
              list.last (GpsFusion.fixed_points_ g) = Some back
              /\ time <= GpsFusion.fp_timestamp back)
  /\ (forall time pose,
        GpsFusion.AddLocalPose g time pose = Fatal
        <-> exists back,
              list.last (GpsFusion.local_poses_ g) = Some back
              /\ time <= GpsFusion.lp_timestamp back).
Proof.
  intros Hr. destruct (GpsFusion_reachable_increasing g Hr) as [Hf Hl].
  split; [done|]. split; [done|]. split.
  - intros time translation. unfold GpsFusion.AddFixedPoint.
    destruct (list.last (GpsFusion.fixed_points_ g)) as [back|].
    + destruct (GpsFusion.fp_timestamp back <? time) eqn:Hlt.
      * apply Z.ltb_lt in Hlt. split; [done|].
        intros (b & Eb & Hle). inversion Eb; subst b. lia.
      * apply Z.ltb_ge in Hlt. split; [|done]. intros _. eauto.
    + split; [done|]. intros (b & Eb & _). done.
  - intros time pose. unfold GpsFusion.AddLocalPose.
    destruct (list.last (GpsFusion.local_poses_ g)) as [back|].
    + destruct (GpsFusion.lp_timestamp back <? time) eqn:Hlt.
      * apply Z.ltb_lt in Hlt. split; [done|].
        intros (b & Eb & Hle). inversion Eb; subst b. lia.
      * apply Z.ltb_ge in Hlt. split; [|done]. intros _. eauto.
    + split; [done|]. intros (b & Eb & _). done.
Qed.


End GpsFusionFacts.

(** ** Rounding to the nearest integer *)

(** The number a finite float stands for, as a fraction with a positive
    denominator. *)
Definition exact_value (x : float) : option (Z * Z) :=
  match x with
  | S754_zero _ => Some (0, 1)
  | S754_finite s m e =>
      let n := if s then Z.neg m else Z.pos m in
      Some (if 0 <=? e then (n * 2 ^ e, 1) else (n, 2 ^ (- e)))
  | _ => None
  end.

(** The nearest integer to [num / den], halfway cases away from zero. *)
Definition round_half_away_from_zero (num den : Z) : Z :=
  if 0 <=? num then (2 * num + den) / (2 * den)
  else - ((2 * (- num) + den) / (2 * den)).

(** The nearest integer to [num / den], halfway cases to the even
    neighbour (the rounding the design document names). *)
Definition round_half_to_even (num den : Z) : Z :=
  let q := num / den in
  let r := num mod den in
  if 2 * r <? den then q
  else if den <? 2 * r then q + 1
  else if Z.even q then q else q + 1.

Lemma int32_range z : is_int (int32 z).
Proof.
  unfold is_int, int32.
  pose proof (Z.mod_pos_bound (z + 2 ^ 31) (2 ^ 32) ltac:(lia)). lia.
Qed.

Lemma round_half_away_nonneg (num den : Z) :
  0 <= num -> 0 < den ->
  let r := (2 * num + den) / (2 * den) in
  0 <= r /\ - den < 2 * (r * den - num) <= den.
Proof.
  intros Hn Hd r.
  assert (Hd2 : 2 * den <> 0) by lia.
  pose proof (Z.div_mod (2 * num + den) (2 * den) Hd2) as E.
  pose proof (Z.mod_pos_bound (2 * num + den) (2 * den) ltac:(lia)) as Hm.
  fold r in E.
  assert (0 <= r) by (apply Z.div_pos; lia).
  split; [done|]. nia.
Qed.

(** [round_half_away_from_zero] is a nearest integer, and on a tie the
    one of larger magnitude. *)
Lemma round_half_away_nearest (num den : Z) :
  0 < den ->
  let r := round_half_away_from_zero num den in
  2 * Z.abs (r * den - num) <= den
  /\ (2 * Z.abs (r * den - num) = den -> Z.abs num < Z.abs r * den).
Proof.
  intros Hd r. unfold round_half_away_from_zero in r.
  destruct (0 <=? num) eqn:E.
  - apply Z.leb_le in E.
    destruct (round_half_away_nonneg num den E Hd) as [Hr Hb].
    fold r in Hr, Hb. split; [lia|]. intros Ht.
    rewrite (Z.abs_eq num), (Z.abs_eq r) by lia. lia.
  - apply Z.leb_gt in E.
    destruct (round_half_away_nonneg (- num) den ltac:(lia) Hd) as [Hr Hb].
    set (r' := (2 * - num + den) / (2 * den)) in *.
    assert (Er : r = - r') by reflexivity.
    split; [lia|]. intros Ht. lia.
Qed.

Lemma lround_finite_half_away (s : bool) (m : positive) (e : Z) :
  forall num den,
    exact_value (S754_finite s m e) = Some (num, den) ->
    0 < den /\ lround_finite s m e = round_half_away_from_zero num den.
Proof.
  intros num den E. unfold exact_value in E.
  unfold lround_finite, round_half_away_from_zero.
  destruct (0 <=? e) eqn:Ee.
  - apply Z.leb_le in Ee. inversion E; subst. split; [lia|].
    assert (Hp : 0 < 2 ^ e) by (apply Z.pow_pos_nonneg; lia).
    assert (Hhalf : forall n, 0 <= n -> (2 * n + 1) / (2 * 1) = n).
    { intros n Hn. replace (2 * n + 1) with (1 + n * 2) by lia.
      rewrite Z.div_add by lia. reflexivity. }
    destruct s.
    + destruct (0 <=? Z.neg m * 2 ^ e) eqn:En; [apply Z.leb_le in En; lia|].
      rewrite Hhalf by lia. lia.
    + destruct (0 <=? Z.pos m * 2 ^ e) eqn:En; [|apply Z.leb_gt in En; lia].
      rewrite Hhalf by lia. lia.
  - apply Z.leb_gt in Ee. inversion E; subst.
    assert (Hp : 0 < 2 ^ (- e - 1)) by (apply Z.pow_pos_nonneg; lia).
    assert (Ek : 2 ^ (- e) = 2 * 2 ^ (- e - 1)).
    { replace (- e) with (1 + (- e - 1)) at 1 by lia.
      rewrite Z.pow_add_r by lia. lia. }
    split; [lia|].
    assert (Hdiv : (2 * Z.pos m + 2 ^ (- e)) / (2 * 2 ^ (- e))
                   = (Z.pos m + 2 ^ (- e - 1)) / 2 ^ (- e)).
    { rewrite Ek at 1.
      replace (2 * Z.pos m + 2 * 2 ^ (- e - 1))
        with (2 * (Z.pos m + 2 ^ (- e - 1))) by lia.
      apply Z.div_mul_cancel_l; lia. }
    destruct s.
    + destruct (0 <=? Z.neg m) eqn:En; [apply Z.leb_le in En; lia|].
      replace (- Z.neg m) with (Z.pos m) by lia. now rewrite Hdiv.
    + simpl (0 <=? Z.pos m). now rewrite Hdiv.
Qed.

(** ** Facts about HybridGridBase and HybridGridImpl *)

Section HybridGridFacts.

Context {libc : Lround} {PointType : Type}
  {pcl : PointCloudLibrary PointType}.

Local Abbreviation State := (State PointType).
Local Abbreviation PointCloud := (list PointType).


(** *** Facts about the rounding and about one inserted point *)

Lemma RoundToInt_is_int (n : float) : is_int (RoundToInt n).
Proof. apply int32_range. Qed.

Lemma GetCellIndex_is_int3 (resolution : float) (point : Vector3f) :
  is_int3 (GetCellIndex resolution point).
Proof. repeat split; apply int32_range. Qed.

(** The cell a point of a scan belongs to. *)
Definition cell_of (st : State) (point : PointType) : Array3i :=
  GetCellIndex (resolution_ st) (getVector3fMap point).

(** The state is one that the operations keep: the grid is reachable,
    the handles in its cells are allocated, and no two cells hold the
    same handle. *)
Definition State_ok (st : State) : Prop :=
  DynamicGrid_reachable (grid_ st)
  /\ (forall i a, is_int3 i -> DynamicGrid.value (grid_ st) i = Some a ->
        (a < length (heap_ st))%nat)
  /\ (forall i j a, is_int3 i -> is_int3 j ->
        DynamicGrid.value (grid_ st) i = Some a ->
        DynamicGrid.value (grid_ st) j = Some a -> i = j).

(** The addresses no cell of the grid points to. *)
Definition unowned (st : State) (a : nat) : Prop :=
  forall i, is_int3 i -> DynamicGrid.value (grid_ st) i <> Some a.

(** The scan of a call is a cloud that is allocated and that no cell of
    the grid holds. *)
Definition scan_apart (st : State) (scan : PointCloudPtr) : Prop :=
  forall s, scan = Some s -> (s < length (heap_ st))%nat /\ unowned st s.

Lemma State_ok_new resolution heap : State_ok (HybridGridImpl resolution heap).
Proof.
  split; [apply reachable_new|]. simpl.
  split; intros i; intros;
    rewrite (DynamicGrid_new_value (V:=PointCloudPtr)) in *; discriminate.
Qed.

Lemma alter_app_end (heap : list PointCloud) (f : PointCloud -> PointCloud) c :
  alter f (length heap) (heap ++ [c]) = heap ++ [f c].
Proof. now rewrite alter_app_r_alt, Nat.sub_diag by lia. Qed.

Lemma insert_point_spec (scan : PointCloudPtr) (st : State)
  (point : PointType) :
  State_ok st -> scan_apart st scan ->
  match insert_point scan st point with
  | Ok st' =>
      addressable (cell_of st point) /\ State_ok st'
      /\ resolution_ st' = resolution_ st
      /\ (forall j, is_int3 j -> j <> cell_of st point ->
            DynamicGrid.value (grid_ st') j = DynamicGrid.value (grid_ st) j)
      /\ exists a,
           DynamicGrid.value (grid_ st') (cell_of st point) = Some a
           /\ ((DynamicGrid.value (grid_ st) (cell_of st point) = Some a
                /\ heap_ st' = alter (fun cloud => cloud ++ [point]) a (heap_ st))
               \/ (DynamicGrid.value (grid_ st) (cell_of st point) = None
                   /\ a = length (heap_ st)
                   /\ heap_ st' = heap_ st ++ [[point]]))
  | Fatal => ~ addressable (cell_of st point)
  | Undefined | OutOfFuel => False
  end.
Proof.
  intros (Hr & Hal & Hinj) Hscan. unfold insert_point. fold (cell_of st point).
  set (i := cell_of st point).
  assert (Hi : is_int3 i) by apply GetCellIndex_is_int3.
  pose proof (DynamicGrid_reachable_wf GridBase_size_bound _ Hr) as Hwf.
  pose proof (mutable_value_spec GridBase_size_bound (grid_ st) i Hwf Hi) as Hm.
  destruct (DynamicGrid.mutable_value (grid_ st) i) as [[g' slot]| | |] eqn:Em;
    simpl; try done.
  - destruct Hm as (H8 & Hwf' & _ & Hslot & Hval & _).
    assert (Hr' : DynamicGrid_reachable g')
      by (eapply reachable_mutable_value; eauto).
    pose proof (DynamicGrid_slot_get_spec GridBase_size_bound g' slot i
                  Hwf' Hi Hslot) as Eg.
    rewrite (Hval i Hi) in Eg.
    destruct (DynamicGrid.slot_get g' slot) as [a|] eqn:Es; simpl.
    + rewrite decide_False
        by (intros Escan; apply Hscan in Escan as [_ Hun]; now apply (Hun i)).
      split; [now apply covers_8_addressable|]. split; [|split; [done|split]].
      * split; [done|]. simpl. split.
        -- intros j b Hj Hb. rewrite length_alter. rewrite Hval in Hb by done.
           eauto.
        -- intros j1 j2 b Hj1 Hj2. rewrite !Hval by done. eauto.
      * intros j Hj _. now apply Hval.
      * exists a. split; [now rewrite Hval|]. left. done.
    + destruct (DynamicGrid_slot_set_spec GridBase_size_bound g' slot i
                  (Some (length (heap_ st))) Hwf' Hi Hslot)
        as (Hwf'' & _ & _ & Hval').
      assert (Ew : DynamicGrid.write (grid_ st) i (Some (length (heap_ st)))
                   = Ok (DynamicGrid.slot_set g' slot (Some (length (heap_ st))))).
      { unfold DynamicGrid.write. now rewrite Em. }
      rewrite decide_False by (intros Escan; apply Hscan in Escan as [? _]; lia).
      rewrite alter_app_end. simpl.
      split; [now apply covers_8_addressable|]. split; [|split; [done|split]].
      * split; [apply (reachable_write (grid_ st) i (Some (length (heap_ st))));
                 done|]. simpl. split.
        -- intros j b Hj. rewrite Hval' by done. rewrite length_app. simpl.
           destruct (decide (j = i)); [intros Eb; inversion Eb; lia|].
           rewrite Hval by done. intros Hb. apply Hal in Hb; [lia|done].
        -- intros j1 j2 b Hj1 Hj2. rewrite !Hval' by done.
           destruct (decide (j1 = i)) as [->|H1], (decide (j2 = i)) as [->|H2];
             try done; rewrite ?Hval by done; intros E1 E2.
           ++ inversion E1; subst b. apply Hal in E2; [lia|done].
           ++ inversion E2; subst b. apply Hal in E1; [lia|done].
           ++ eauto.
      * intros j Hj Hne. rewrite Hval' by done.
        rewrite decide_False by done. now apply Hval.
      * exists (length (heap_ st)). split.
        -- rewrite Hval' by done. now rewrite decide_True.
        -- right. done.
  - intros Ha. apply Hm. now apply covers_8_addressable.
Qed.

(** *** The clouds of the cells *)

(** The points stored for the cell at [i]: the cloud its handle points
    to, nothing for a null handle. *)
Definition cell_cloud (st : State) (i : Array3i) : PointCloud :=
  match DynamicGrid.value (grid_ st) i with
  | Some a => cloud_at (heap_ st) a
  | None => []
  end.

(** The points of a scan that fall into the cell at [i]. *)
Definition points_in (st : State) (scan : list PointType) (i : Array3i)
  : list PointType :=
  base.filter (fun point => cell_of st point = i) scan.

Lemma cloud_at_alter_eq (heap : list PointCloud) f a :
  (a < length heap)%nat -> cloud_at (alter f a heap) a = f (cloud_at heap a).
Proof.
  intros Hlt. unfold cloud_at. rewrite list_lookup_alter_eq.
  destruct (heap !! a) as [c|] eqn:E; [done|].
  apply lookup_ge_None in E. lia.
Qed.

Lemma cloud_at_alter_ne (heap : list PointCloud) f a b :
  a <> b -> cloud_at (alter f a heap) b = cloud_at heap b.
Proof. intros Hne. unfold cloud_at. now rewrite list_lookup_alter_ne. Qed.

Lemma cloud_at_app_l (heap : list PointCloud) c b :
  (b < length heap)%nat -> cloud_at (heap ++ [c]) b = cloud_at heap b.
Proof. intros Hlt. unfold cloud_at. now rewrite lookup_app_l. Qed.

Lemma cloud_at_app_end (heap : list PointCloud) c :
  cloud_at (heap ++ [c]) (length heap) = c.
Proof.
  unfold cloud_at. rewrite lookup_app_r, Nat.sub_diag by lia. done.
Qed.

Lemma insert_point_clouds (scan : PointCloudPtr) (st st' : State)
  (point : PointType) :
  State_ok st -> scan_apart st scan -> insert_point scan st point = Ok st' ->
  (forall j, is_int3 j ->
     cell_cloud st' j
     = cell_cloud st j ++ (if decide (cell_of st point = j) then [point] else []))
  /\ (forall b, (b < length (heap_ st))%nat -> unowned st b ->
        unowned st' b /\ heap_ st' !! b = heap_ st !! b)
  /\ (length (heap_ st) <= length (heap_ st'))%nat.
Proof.
  intros Hok Hscan E.
  pose proof (insert_point_spec scan st point Hok Hscan) as Hs.
  rewrite E in Hs.
  destruct Hs as (Ha & Hok' & Hres & Hother & a & Hnew & Hcase).
  destruct Hok as (Hr & Hal & Hinj).
  set (i := cell_of st point) in *.
  assert (Hi : is_int3 i) by apply GetCellIndex_is_int3.
  split; [|split].
  - intros j Hj. unfold cell_cloud.
    destruct (decide (i = j)) as [<-|Hne].
    + rewrite Hnew.
      destruct Hcase as [[Eold ->]|(Eold & -> & ->)]; rewrite Eold.
      * apply cloud_at_alter_eq. eauto.
      * now rewrite cloud_at_app_end.
    + rewrite Hother by done. rewrite app_nil_r.
      destruct (DynamicGrid.value (grid_ st) j) as [b|] eqn:Ej; [|done].
      destruct Hcase as [[Eold ->]|(Eold & -> & ->)].
      * apply cloud_at_alter_ne. intros ->. apply Hne. eauto.
      * apply cloud_at_app_l. eauto.
  - intros b Hb Hun. split.
    + intros j Hj Ej. destruct (decide (j = i)) as [->|Hne].
      * rewrite Hnew in Ej. inversion Ej; subst b.
        destruct Hcase as [[Eold _]|(_ & -> & _)]; [|lia].
        now apply (Hun i).
      * rewrite Hother in Ej by done. now apply (Hun j).
    + destruct Hcase as [[Eold ->]|(Eold & -> & ->)].
      * apply list_lookup_alter_ne. intros ->. now apply (Hun i).
      * now apply lookup_app_l.
  - destruct Hcase as [[_ ->]|(_ & _ & ->)].
    + now rewrite length_alter.
    + rewrite length_app. simpl. lia.
Qed.

Lemma insert_points_spec (handle : PointCloudPtr) (st : State)
  (scan : list PointType) :
  State_ok st -> scan_apart st handle ->
  match insert_points handle st scan with
  | Ok st' =>
      State_ok st' /\ resolution_ st' = resolution_ st
      /\ Forall (fun point => addressable (cell_of st point)) scan
      /\ (forall j, is_int3 j ->
            cell_cloud st' j = cell_cloud st j ++ points_in st scan j)
      /\ (forall j a, is_int3 j ->
            DynamicGrid.value (grid_ st) j = Some a ->
            DynamicGrid.value (grid_ st') j = Some a)
      /\ (forall point, point ∈ scan ->
            exists a, DynamicGrid.value (grid_ st') (cell_of st point) = Some a)
      /\ (forall b, (b < length (heap_ st))%nat -> unowned st b ->
            unowned st' b /\ heap_ st' !! b = heap_ st !! b)
      /\ (length (heap_ st) <= length (heap_ st'))%nat
  | Fatal => Exists (fun point => ~ addressable (cell_of st point)) scan
  | Undefined | OutOfFuel => False
  end.
Proof.
  revert st. induction scan as [|point scan IH]; intros st Hok Hscan.
  - simpl. split; [done|]. split; [done|]. split; [constructor|].
    split; [intros j Hj; now rewrite app_nil_r|]. repeat split; eauto.
    intros p Hp. inversion Hp.
  - simpl. pose proof (insert_point_spec handle st point Hok Hscan) as Hs.
    destruct (insert_point handle st point) as [st1| | |] eqn:E1; simpl;
      try done.
    + destruct (insert_point_clouds handle st st1 point Hok Hscan E1)
        as (Hc1 & Hu1 & Hl1).
      destruct Hs as (Ha & Hok1 & Hres1 & Hother1 & a1 & Hnew1 & Hcase1).
      assert (Ecell : forall p, cell_of st1 p = cell_of st p)
        by (intros p; unfold cell_of; now rewrite Hres1).
      assert (Hkeep1 : forall j a, is_int3 j ->
                DynamicGrid.value (grid_ st) j = Some a ->
                DynamicGrid.value (grid_ st1) j = Some a).
      { intros j a Hj Ej. destruct (decide (j = cell_of st point)) as [->|Hne].
        - rewrite Hnew1.
          destruct Hcase1 as [[Eold _]|(Eold & _)]; congruence.
        - now rewrite Hother1. }
      assert (Hscan1 : scan_apart st1 handle).
      { intros s Es. destruct (Hscan s Es) as [Hlt Hun].
        split; [lia|]. now apply Hu1. }
      specialize (IH st1 Hok1 Hscan1).
      destruct (insert_points handle st1 scan) as [st'| | |] eqn:E'; try done.
      * destruct IH as (Hok' & Hres' & Hall & Hc' & Hkeep' & Hex' & Hu' & Hl').
        split; [done|]. split; [congruence|]. split.
        { constructor; [done|].
          eapply list.Forall_impl; [exact Hall|]. intros p. simpl. now rewrite Ecell. }
        split.
        { intros j Hj. rewrite Hc', Hc1 by done. rewrite <- app_assoc.
          f_equal. unfold points_in. rewrite filter_cons.
          destruct (decide (cell_of st point = j)) as [Ej|Hne]; simpl.
          - f_equal. apply list_filter_iff. intros p. now rewrite Ecell.
          - apply list_filter_iff. intros p. now rewrite Ecell. }
        split; [eauto|]. split.
        { intros p Hp. apply elem_of_cons in Hp as [->|Hp].
          - exists a1. apply Hkeep'; [apply GetCellIndex_is_int3|done].
          - rewrite <- Ecell. now apply Hex'. }
        split; [|lia].
        intros b Hb Hun. destruct (Hu1 b Hb Hun) as [Hun1 Eb1].
        destruct (Hu' b ltac:(lia) Hun1) as [Hun' Eb']. split; [done|congruence].
      * right. eapply list.Exists_impl; [exact IH|]. intros p. simpl. now rewrite Ecell.
    + now left.
Qed.

(** *** Filtering the touched clouds *)

(** What the model asks of the traversal of a set of handles: every
    handle that was inserted is visited, once, and nothing else. *)
Definition is_unordered_set (set : list nat -> list nat) : Prop :=
  forall l, NoDup (set l) /\ forall a, a ∈ set l <-> a ∈ l.

Lemma filter_clouds_length (heap : list PointCloud) (handles : list nat) :
  length (filter_clouds heap handles) = length heap.
Proof.
  revert heap. induction handles as [|a handles IH]; intros heap; [done|].
  simpl. now rewrite IH, length_alter.
Qed.

Lemma filter_clouds_lookup (heap : list PointCloud) (handles : list nat) a :
  NoDup handles ->
  filter_clouds heap handles !! a
  = if decide (a ∈ handles) then filter <$> heap !! a else heap !! a.
Proof.
  revert heap. induction handles as [|x handles IH]; intros heap Hnd.
  - destruct (decide (a ∈ [])) as [Hin|]; [inversion Hin|done].
  - apply list.NoDup_cons in Hnd as [Hx Hnd].
    change (filter_clouds heap (x :: handles))
      with (filter_clouds (alter filter x heap) handles).
    rewrite IH by done.
    destruct (decide (a = x)) as [->|Hne].
    + rewrite decide_False by done. rewrite list_lookup_alter_eq.
      rewrite decide_True by now left. done.
    + rewrite list_lookup_alter_ne by done.
      destruct (decide (a ∈ handles)) as [Hin|Hnin].
      * rewrite decide_True by now right. done.
      * rewrite decide_False; [done|].
        intros Hin. apply elem_of_cons in Hin as [?|?]; done.
Qed.

Lemma cloud_at_filter_clouds (heap : list PointCloud) (handles : list nat) a :
  NoDup handles -> (a < length heap)%nat ->
  cloud_at (filter_clouds heap handles) a
  = if decide (a ∈ handles) then filter (cloud_at heap a) else cloud_at heap a.
Proof.
  intros Hnd Hlt. unfold cloud_at. rewrite filter_clouds_lookup by done.
  destruct (lookup_lt_is_Some_2 heap a Hlt) as [c E]. rewrite E.
  destruct (decide (a ∈ handles)); done.
Qed.

Lemma inserted_by_scan_spec (st : State) (scan : list PointType) a :
  a ∈ inserted_by_scan st scan
  <-> exists point,
        point ∈ scan
        /\ DynamicGrid.value (grid_ st) (cell_of st point) = Some a.
Proof. unfold inserted_by_scan. now rewrite list_elem_of_omap. Qed.

Lemma points_in_nil (st : State) (scan : list PointType) i :
  points_in st scan i = [] <-> forall point, point ∈ scan -> cell_of st point <> i.
Proof.
  unfold points_in. split.
  - intros E p Hp Ei.
    assert (Hin : p ∈ base.filter (fun point => cell_of st point = i) scan)
      by (apply list_elem_of_filter; done).
    rewrite E in Hin. inversion Hin.
  - intros Hn. induction scan as [|p scan IH]; [done|].
    rewrite filter_cons. rewrite decide_False by (apply Hn; now left).
    apply IH. intros q Hq. apply Hn. now right.
Qed.

(** *** InsertScan and GetSurroundedCloud *)

Lemma deref_allocated (heap : list PointCloud) (scan : PointCloudPtr)
  (points : list PointType) :
  deref heap scan = Ok points ->
  exists s, scan = Some s /\ heap !! s = Some points /\ (s < length heap)%nat.
Proof.
  unfold deref. destruct scan as [s|]; [|done].
  destruct (heap !! s) as [c|] eqn:E; [|done].
  intros Ec. inversion Ec; subst c. exists s.
  split; [done|]. split; [done|]. eapply lookup_lt_Some; eauto.
Qed.

Lemma InsertScan_spec (st : State) (scan : PointCloudPtr)
  (points : list PointType) :
  State_ok st -> deref (heap_ st) scan = Ok points ->
  (forall s, scan = Some s -> unowned st s) ->
  match InsertScan st scan with
  | Ok (st', filtered) =>
      State_ok st' /\ resolution_ st' = resolution_ st
      /\ Forall (fun point => addressable (cell_of st point)) points
      /\ (points = [] -> st' = st /\ filtered = [])
      /\ (forall j a, is_int3 j ->
            DynamicGrid.value (grid_ st) j = Some a ->
            DynamicGrid.value (grid_ st') j = Some a)
      /\ (forall point, point ∈ points ->
            exists a, DynamicGrid.value (grid_ st') (cell_of st point) = Some a)
      /\ (is_unordered_set unordered_set ->
          forall j, is_int3 j ->
            cell_cloud st' j
            = match points_in st points j with
              | [] => cell_cloud st j
              | _ => filter (cell_cloud st j ++ points_in st points j)
              end)
  | Fatal => Exists (fun point => ~ addressable (cell_of st point)) points
  | Undefined | OutOfFuel => False
  end.
Proof.
  intros Hok Ed Hun. unfold InsertScan. rewrite Ed. simpl.
  assert (Hscan : scan_apart st scan).
  { intros s Es. split; [|now apply Hun].
    destruct (deref_allocated _ _ _ Ed) as (s' & Es' & _ & Hlt). congruence. }
  destruct points as [|p0 points0] eqn:Ep.
  - split; [done|]. split; [done|]. split; [constructor|]. split; [done|].
    split; [done|]. split; [intros p Hp; inversion Hp|]. intros _ j Hj. done.
  - rewrite <- Ep. clear Ed.
    pose proof (insert_points_spec scan st points Hok Hscan) as Hs.
    destruct (insert_points scan st points) as [st1| | |] eqn:E1; simpl;
      try done.
    destruct Hs as (Hok1 & Hres1 & Hall & Hc1 & Hkeep1 & Hex1 & _ & _).
    destruct Hok1 as (Hr1 & Hal1 & Hinj1).
    assert (Ecell : forall p, cell_of st1 p = cell_of st p)
      by (intros p; unfold cell_of; now rewrite Hres1).
    split; [|split; [done|split; [done|split; [|split; [done|split; [done|]]]]]].
    + split; [done|]. simpl. split; [|done].
      intros i a Hi Ea. rewrite filter_clouds_length. eauto.
    + rewrite Ep. discriminate.
    + intros Hset j Hj. unfold cell_cloud at 1. simpl.
      destruct (Hset (inserted_by_scan st1 points)) as [Hnd Hmem].
      assert (Hin : forall a,
                DynamicGrid.value (grid_ st1) j = Some a ->
                a ∈ unordered_set (inserted_by_scan st1 points)
                <-> points_in st points j <> []).
      { intros a Ea. rewrite Hmem, inserted_by_scan_spec, points_in_nil.
        split.
        - intros (p & Hp & Eap) Hn. apply (Hn p Hp).
          rewrite <- Ecell. apply (Hinj1 _ _ a); [|done|done|done].
          apply GetCellIndex_is_int3.
        - intros Hn.
          destruct (decide (Exists (fun p => cell_of st p = j) points))
            as [Hex|Hno].
          + apply list.Exists_exists in Hex as (p & Hp & Ej).
            exists p. split; [done|]. now rewrite Ecell, Ej.
          + exfalso. apply Hn. intros p Hp Ej. apply Hno.
            apply list.Exists_exists. eauto. }
      destruct (DynamicGrid.value (grid_ st1) j) as [a|] eqn:Ea.
      * rewrite cloud_at_filter_clouds by eauto.
        assert (Ec : cloud_at (heap_ st1) a
                     = cell_cloud st j ++ points_in st points j).
        { rewrite <- Hc1 by done. unfold cell_cloud. now rewrite Ea. }
        specialize (Hin a eq_refl).
        destruct (decide (a ∈ unordered_set (inserted_by_scan st1 points)))
          as [Hm|Hm].
        -- apply Hin in Hm. rewrite Ec.
           destruct (points_in st points j); done.
        -- assert (En : points_in st points j = []).
           { destruct (points_in st points j) eqn:E; [done|].
             exfalso. apply Hm. apply Hin. done. }
           rewrite Ec, En. now rewrite app_nil_r.
      * assert (En : points_in st points j = []).
        { apply points_in_nil. intros p Hp Ej.
          destruct (Hex1 p Hp) as [a Eap]. congruence. }
        rewrite En. unfold cell_cloud.
        destruct (DynamicGrid.value (grid_ st) j) as [a|] eqn:Eold; [|done].
        apply Hkeep1 in Eold; [congruence|done].
Qed.

Lemma GetSurroundedCloud_spec (st : State) (scan : PointCloudPtr)
  (pose : Rigid3d) (points : list PointType) :
  deref (heap_ st) scan = Ok points ->
  GetSurroundedCloud st scan pose
  = Ok (BuildState (resolution_ st) (grid_ st)
          (heap_ st
           ++ [concat (map (cloud_at (heap_ st))
                           (inserted_grids st pose points))]),
        Some (length (heap_ st))).
Proof. intros Ed. unfold GetSurroundedCloud. now rewrite Ed. Qed.

Lemma surrounding_cloud_spec (st : State) (pose : Rigid3d)
  (scan : list PointType) a :
  a ∈ omap (surrounding_cloud st pose) scan
  <-> exists point,
        point ∈ scan
        /\ SFltb kDist (norm (getVector3fMap point)) = false
        /\ DynamicGrid.value (grid_ st)
             (GetCellIndex (resolution_ st)
                (transform pose (getVector3fMap point)))
           = Some a.
Proof.
  rewrite list_elem_of_omap. unfold surrounding_cloud.
  split; intros (p & Hp & E); exists p; (split; [done|]).
  - destruct (SFltb kDist (norm (getVector3fMap p))); [done|]. done.
  - destruct E as [-> E]. done.
Qed.


(** *** The claims about the rounding and the two operations *)


Lemma unordered_set_nil : is_unordered_set unordered_set -> unordered_set [] = [].
Proof.
  intros Hset. destruct (Hset []) as [_ Hmem].
  destruct (unordered_set []) as [|a l]; [done|].
  exfalso. assert (Hin : a ∈ a :: l) by now left.
  apply Hmem in Hin. inversion Hin.
Qed.

Lemma RoundToInt_half_away (q : float) (num den : Z) :
  exact_value q = Some (num, den) ->
  is_int (round_half_away_from_zero num den) ->
  0 < den /\ RoundToInt q = round_half_away_from_zero num den.
Proof.
  intros E Hr. unfold RoundToInt, lround.
  destruct q as [s|s| |s m e]; try done.
  - inversion E; subst. split; [lia|]. reflexivity.
  - destruct (lround_finite_half_away s m e num den E) as [Hd ->].
    split; [done|]. unfold is_int in Hr.
    replace (- 2 ^ 63 <=? round_half_away_from_zero num den) with true
      by (symmetry; apply Z.leb_le; lia).
    replace (round_half_away_from_zero num den <? 2 ^ 63) with true
      by (symmetry; apply Z.ltb_lt; lia).
    simpl. now apply int32_small.
Qed.

(** C5, as the code has it: [GetCellIndex] rounds the single precision
    quotient of every axis with [std::lround]: whenever the quotient is a
    number whose rounding fits an [int], the index is the nearest integer
    to it, and a quotient halfway between two integers goes to the one
    away from zero. *)
Theorem C5_GetCellIndex_rounds_half_away (resolution : float)
  (point : Vector3f) :
  GetCellIndex resolution point
  = A3 (RoundToInt (float_div (vx point) resolution))
       (RoundToInt (float_div (vy point) resolution))
       (RoundToInt (float_div (vz point) resolution))
  /\ forall (q : float) (num den : Z),
       exact_value q = Some (num, den) ->
       is_int (round_half_away_from_zero num den) ->
       RoundToInt q = round_half_away_from_zero num den
       /\ 2 * Z.abs (RoundToInt q * den - num) <= den
       /\ (2 * Z.abs (RoundToInt q * den - num) = den ->
           Z.abs num < Z.abs (RoundToInt q) * den).
Proof.
  split; [reflexivity|]. intros q num den E Hr.
  destruct (RoundToInt_half_away q num den E Hr) as [Hd ->].
  split; [done|]. now apply round_half_away_nearest.
Qed.


(** C7: [GetSurroundedCloud] leaves the grid as it is: the grid and the
    resolution of the state after the call are those before, every cloud
    allocated before is unchanged, the cloud returned is at an address
    that was not allocated and that no cell holds, and the lookups it
    makes outside the covered range return the default. The call never
    ends in the fatal error. *)
Theorem C7_GetSurroundedCloud_reads_only (st : State) (scan : PointCloudPtr)
  (pose : Rigid3d) :
  State_ok st ->
  match GetSurroundedCloud st scan pose with
  | Ok (st', cloud) =>
      grid_ st' = grid_ st /\ resolution_ st' = resolution_ st
      /\ (exists surround, heap_ st' = heap_ st ++ [surround])
      /\ cloud = Some (length (heap_ st))
      /\ heap_ st !! length (heap_ st) = None
      /\ unowned st' (length (heap_ st))
      /\ State_ok st'
  | Undefined => deref (heap_ st) scan = Undefined
  | Fatal | OutOfFuel => False
  end
  /\ (forall i, is_int3 i ->
        ~ covers (W:=NestedGrid.t (FlatGrid.t PointCloudPtr 3) 3)
            (DynamicGrid.bits_ (grid_ st)) i ->
        DynamicGrid.value (grid_ st) i = default_value).
Proof.
  intros (Hr & Hal & Hinj). split.
  - destruct (deref (heap_ st) scan) as [points| | |] eqn:Ed.
    + rewrite (GetSurroundedCloud_spec st scan pose points Ed). simpl.
      split; [done|]. split; [done|]. split; [eauto|]. split; [done|].
      split; [apply lookup_ge_None; lia|]. split.
      * intros i Hi Ei. apply Hal in Ei; [lia|done].
      * split; [done|]. simpl. split; [|done].
        intros i a Hi Ei. rewrite length_app. apply Hal in Ei; [lia|done].
    + unfold deref in Ed. destruct scan as [a|]; [|done].
      destruct (heap_ st !! a); done.
    + unfold GetSurroundedCloud. now rewrite Ed.
    + unfold deref in Ed. destruct scan as [a|]; [|done].
      destruct (heap_ st !! a); done.
  - intros i Hi Hc.
    pose proof (DynamicGrid_reachable_wf GridBase_size_bound _ Hr) as [Hb _].
    now apply (DynamicGrid_value_outside GridBase_size_bound).
Qed.

(** C8, as the code has it: a scan that is an empty cloud is no error:
    [InsertScan] returns the state it was given and runs the filter on
    nothing, [GetSurroundedCloud] returns a new empty cloud and the grid
    as it was. A null scan handle is dereferenced by both. *)
Theorem C8_empty_scan (st : State) (scan : PointCloudPtr) (pose : Rigid3d) :
  deref (heap_ st) scan = Ok [] -> is_unordered_set unordered_set ->
  InsertScan st scan = Ok (st, [])
  /\ GetSurroundedCloud st scan pose
     = Ok (BuildState (resolution_ st) (grid_ st) (heap_ st ++ [[]]),
           Some (length (heap_ st)))
  /\ InsertScan st None = Undefined
  /\ GetSurroundedCloud st None pose = Undefined.
Proof.
  intros Ed Hset. split; [|split; [|split]].
  - unfold InsertScan. now rewrite Ed.
  - rewrite (GetSurroundedCloud_spec st scan pose [] Ed).
    unfold inserted_grids. simpl. now rewrite unordered_set_nil.
  - reflexivity.
  - reflexivity.
Qed.

(** C10: a cell whose handle is allocated keeps that handle through
    [InsertScan] (and [GetSurroundedCloud] does not touch the grid); after
    an [InsertScan] every cell a point of the scan fell into has a handle
    that is not null, iteration yields that cell, and [GetSurroundedCloud]
    collects its handle for every point it does not skip whose
    transformed position is in that cell. This does not depend on the
    cloud: with a filter that returns no point the cloud of the cell is
    empty and all of it still holds. *)
Theorem C10_allocated_cell_stays (st : State) (scan : PointCloudPtr)
  (points : list PointType) :
  State_ok st -> deref (heap_ st) scan = Ok points ->
  (forall s, scan = Some s -> unowned st s) ->
  Forall (fun point => addressable (cell_of st point)) points ->
  is_unordered_set unordered_set ->
  exists st' filtered,
    InsertScan st scan = Ok (st', filtered)
    /\ (forall j a, is_int3 j ->
          DynamicGrid.value (grid_ st) j = Some a ->
          DynamicGrid.value (grid_ st') j = Some a)
    /\ (forall point, point ∈ points ->
          exists a,
            DynamicGrid.value (grid_ st') (cell_of st point) = Some a
            /\ (cell_of st point, Some a) ∈ DynamicGrid.iterate (grid_ st')
            /\ (forall pose scan2 q,
                  q ∈ scan2 ->
                  SFltb kDist (norm (getVector3fMap q)) = false ->
                  GetCellIndex (resolution_ st')
                    (transform pose (getVector3fMap q))
                  = cell_of st point ->
                  a ∈ inserted_grids st' pose scan2)
            /\ ((forall cloud, filter cloud = []) ->
                cell_cloud st' (cell_of st point) = []))
    /\ (forall scan2 pose st'' cloud,
          GetSurroundedCloud st' scan2 pose = Ok (st'', cloud) ->
          grid_ st'' = grid_ st').
Proof.
  intros Hok Ed Hun Hall Hset.
  pose proof (InsertScan_spec st scan points Hok Ed Hun) as Hs.
  destruct (InsertScan st scan) as [[st' filtered]| | |] eqn:E; try done.
  - destruct Hs as (Hok' & Hres & _ & _ & Hkeep & Hex & Hcloud).
    exists st', filtered. split; [done|]. split; [done|]. split.
    + intros p Hp. destruct (Hex p Hp) as [a Ea]. exists a.
      assert (Hi : is_int3 (cell_of st p)) by apply GetCellIndex_is_int3.
      split; [done|]. split; [|split].
      * apply GridBase_iterate_member; [apply Hok'|done|]. split; [done|].
        discriminate.
      * intros pose scan2 q Hq Hnear Eq.
        unfold inserted_grids. destruct (Hset (omap (surrounding_cloud st' pose) scan2))
          as [_ Hmem].
        apply Hmem. apply surrounding_cloud_spec. exists q.
        split; [done|]. split; [done|]. now rewrite Eq.
      * intros Hf. rewrite (Hcloud Hset) by done.
        destruct (points_in st points (cell_of st p)) eqn:En; [|apply Hf].
        exfalso. apply (proj1 (points_in_nil st points _) En p Hp). done.
    + intros scan2 pose st'' cloud E2.
      unfold GetSurroundedCloud in E2.
      destruct (deref (heap_ st') scan2); simpl in E2; try done.
      now inversion E2.
  - exfalso. rewrite list.Forall_forall in Hall.
    apply list.Exists_exists in Hs as (p & Hp & Hn). apply Hn. now apply Hall.
Qed.

(** *** Further properties of InsertScan and GetSurroundedCloud *)

Lemma InsertScan_frame (st st' : State) (scan : PointCloudPtr)
  (points : list PointType) (filtered : list nat) :
  State_ok st -> deref (heap_ st) scan = Ok points ->
  (forall s, scan = Some s -> unowned st s) ->
  is_unordered_set unordered_set ->
  InsertScan st scan = Ok (st', filtered) ->
  (length (heap_ st) <= length (heap_ st'))%nat
  /\ forall b, (b < length (heap_ st))%nat -> unowned st b ->
       unowned st' b /\ heap_ st' !! b = heap_ st !! b.
Proof.
  intros Hok Ed Hun Hset. unfold InsertScan. rewrite Ed. simpl.
  assert (Hscan : scan_apart st scan).
  { intros s Es. split; [|now apply Hun].
    destruct (deref_allocated _ _ _ Ed) as (s' & Es' & _ & Hlt). congruence. }
  destruct points as [|p0 points0] eqn:Ep.
  - intros E. inversion E; subst st' filtered. split; [lia|]. done.
  - rewrite <- Ep. clear Ed.
    pose proof (insert_points_spec scan st points Hok Hscan) as Hs.
    destruct (insert_points scan st points) as [st1| | |] eqn:E1; simpl;
      try done.
    destruct Hs as (_ & _ & _ & _ & _ & _ & Hu1 & Hl1).
    intros E. inversion E; subst st' filtered; clear E. simpl.
    rewrite filter_clouds_length. split; [done|].
    intros b Hb Hunb. destruct (Hu1 b Hb Hunb) as [Hun1 Eb].
    split; [exact Hun1|].
    destruct (Hset (inserted_by_scan st1 points)) as [Hnd Hmem].
    rewrite filter_clouds_lookup by done.
    rewrite decide_False; [done|].
    intros Hin. apply Hmem, inserted_by_scan_spec in Hin as (p & _ & Ea).
    apply (Hun1 (cell_of st1 p)); [apply GetCellIndex_is_int3|done].
Qed.

(** X9: what [InsertScan] leaves in the clouds of the cells: a cell no
    point of the scan falls into keeps its cloud, and a cell some point
    falls into holds what the filter makes of its cloud followed by the
    points of the scan that fall into it, in the order of the scan. *)
Theorem InsertScan_cell_clouds (st : State) (scan : PointCloudPtr)
  (points : list PointType) :
  State_ok st -> deref (heap_ st) scan = Ok points ->
  (forall s, scan = Some s -> unowned st s) ->
  Forall (fun point => addressable (cell_of st point)) points ->
  is_unordered_set unordered_set ->
  exists st' filtered,
    InsertScan st scan = Ok (st', filtered)
    /\ resolution_ st' = resolution_ st
    /\ forall j, is_int3 j ->
         cell_cloud st' j
         = match points_in st points j with
           | [] => cell_cloud st j
           | _ => filter (cell_cloud st j ++ points_in st points j)
           end.
Proof.
  intros Hok Ed Hun Hall Hset.
  pose proof (InsertScan_spec st scan points Hok Ed Hun) as Hs.
  destruct (InsertScan st scan) as [[st' filtered]| | |]; try done.
  - destruct Hs as (_ & Hres & _ & _ & _ & _ & Hcloud).
    exists st', filtered. split; [done|]. split; [done|]. now apply Hcloud.
  - exfalso. rewrite list.Forall_forall in Hall.
    apply list.Exists_exists in Hs as (p & Hp & Hn). apply Hn. now apply Hall.
Qed.

(** X10: [InsertScan] ends in the fatal error exactly when the cell of
    some point of the scan has a coordinate outside [-8192, 8192), and
    returns exactly when there is no such point. *)
Theorem InsertScan_fatal_iff (st : State) (scan : PointCloudPtr)
  (points : list PointType) :
  State_ok st -> deref (heap_ st) scan = Ok points ->
  (forall s, scan = Some s -> unowned st s) ->
  (InsertScan st scan = Fatal
   <-> Exists (fun point => ~ addressable (cell_of st point)) points)
  /\ ((exists st' filtered, InsertScan st scan = Ok (st', filtered))
      <-> Forall (fun point => addressable (cell_of st point)) points).
Proof.
  intros Hok Ed Hun.
  pose proof (InsertScan_spec st scan points Hok Ed Hun) as Hs.
  destruct (InsertScan st scan) as [[st' filtered]| | |]; try done.
  - destruct Hs as (_ & _ & Hall & _). split.
    + split; [done|]. intros Hex. exfalso.
      rewrite list.Forall_forall in Hall.
      apply list.Exists_exists in Hex as (p & Hp & Hn). apply Hn. now apply Hall.
    + split; [done|]. intros _. eauto.
  - split; [done|]. split.
    + intros (st' & filtered & E). discriminate.
    + intros Hall. exfalso. rewrite list.Forall_forall in Hall.
      apply list.Exists_exists in Hs as (p & Hp & Hn). apply Hn. now apply Hall.
Qed.

(** X11: [InsertScan] keeps the state well formed (every handle in a
    cell allocated, no two cells with the same handle) and changes no
    cloud but those of the cells: an allocated cloud that no cell holds,
    the scan among them, is after the call what it was before, and still
    held by no cell. *)
Theorem InsertScan_keeps_other_clouds (st st' : State) (scan : PointCloudPtr)
  (points : list PointType) (filtered : list nat) :
  State_ok st -> deref (heap_ st) scan = Ok points ->
  (forall s, scan = Some s -> unowned st s) ->
  is_unordered_set unordered_set ->
  InsertScan st scan = Ok (st', filtered) ->
  State_ok st'
  /\ deref (heap_ st') scan = Ok points
  /\ (forall s, scan = Some s -> unowned st' s)
  /\ forall b, (b < length (heap_ st))%nat -> unowned st b ->
       unowned st' b /\ heap_ st' !! b = heap_ st !! b.
Proof.
  intros Hok Ed Hun Hset E.
  destruct (InsertScan_frame st st' scan points filtered Hok Ed Hun Hset E)
    as [Hlen Hframe].
  pose proof (InsertScan_spec st scan points Hok Ed Hun) as Hs.
  rewrite E in Hs. destruct Hs as (Hok' & _).
  destruct (deref_allocated _ _ _ Ed) as (s & -> & Es & Hlt).
  destruct (Hframe s Hlt (Hun s eq_refl)) as [Hun' Es'].
  split; [done|]. split; [|split; [|done]].
  - unfold deref. now rewrite Es', Es.
  - intros s' Es2. inversion Es2; subst s'. done.
Qed.

(** X12: on a map that was just constructed [GetSurroundedCloud] finds
    nothing: it returns a new empty cloud for every scan. *)
Theorem GetSurroundedCloud_new_map (resolution : float)
  (heap : list PointCloud) (scan : PointCloudPtr) (pose : Rigid3d)
  (points : list PointType) :
  deref heap scan = Ok points -> is_unordered_set unordered_set ->
  GetSurroundedCloud (HybridGridImpl resolution heap) scan pose
  = Ok (BuildState resolution DynamicGrid.new (heap ++ [[]]),
        Some (length heap)).
Proof.
  intros Ed Hset.
  rewrite (GetSurroundedCloud_spec _ scan pose points) by exact Ed.
  cbn [HybridGridImpl resolution_ grid_ heap_].
  assert (En : omap (surrounding_cloud (HybridGridImpl resolution heap) pose)
                 points = []).
  { induction points as [|p points IH] in |- *; [done|].
    change (omap ?f (p :: points))
      with (match f p with Some y => y :: omap f points | None => omap f points end).
    unfold surrounding_cloud at 1. cbn [HybridGridImpl grid_ resolution_].
    rewrite (DynamicGrid_new_value (V:=PointCloudPtr)).
    destruct (SFltb kDist (norm (getVector3fMap p))); exact IH. }
  unfold inserted_grids. rewrite En, unordered_set_nil by done. reflexivity.
Qed.

Lemma elem_of_concat_map {A B} (f : A -> list B) (l : list A) (y : B) :
  y ∈ concat (map f l) <-> exists x, x ∈ l /\ y ∈ f x.
Proof.
  rewrite list_elem_of_In, List.in_concat. split.
  - intros (c & Hc & Hy). apply List.in_map_iff in Hc as (x & <- & Hx).
    exists x. now rewrite !list_elem_of_In.
  - intros (x & Hx & Hy). exists (f x). rewrite List.in_map_iff.
    split; [|now apply list_elem_of_In]. exists x.
    split; [done|]. now apply list_elem_of_In.
Qed.

Lemma InsertScan_after (st st' : State) (scan : PointCloudPtr)
  (points : list PointType) (filtered : list nat) :
  State_ok st -> deref (heap_ st) scan = Ok points ->
  (forall s, scan = Some s -> unowned st s) ->
  is_unordered_set unordered_set ->
  InsertScan st scan = Ok (st', filtered) ->
  State_ok st' /\ deref (heap_ st') scan = Ok points
  /\ resolution_ st' = resolution_ st
  /\ (forall point, point ∈ points ->
        exists a,
          DynamicGrid.value (grid_ st') (cell_of st point) = Some a).
Proof.
  intros Hok Ed Hun Hset E.
  destruct (InsertScan_frame st st' scan points filtered Hok Ed Hun Hset E)
    as [Hlen Hframe].
  pose proof (InsertScan_spec st scan points Hok Ed Hun) as Hs.
  rewrite E in Hs. destruct Hs as (Hok' & Hres & _ & _ & _ & Hex & _).
  destruct (deref_allocated _ _ _ Ed) as (s & -> & Es & Hlt).
  destruct (Hframe s Hlt (Hun s eq_refl)) as [_ Es'].
  split; [done|]. split; [|done].
  unfold deref. now rewrite Es', Es.
Qed.

(** X13: the surround of a scan that was just inserted: when every point
    of the scan passes the radius test and the pose leaves every point
    in its cell, [GetSurroundedCloud] after [InsertScan] returns a cloud
    that consists of the points of the clouds of the cells the scan fell
    into. *)
Theorem GetSurroundedCloud_after_InsertScan (st st' : State)
  (scan : PointCloudPtr) (points : list PointType) (filtered : list nat)
  (pose : Rigid3d) :
  State_ok st -> deref (heap_ st) scan = Ok points ->
  (forall s, scan = Some s -> unowned st s) ->
  is_unordered_set unordered_set ->
  InsertScan st scan = Ok (st', filtered) ->
  (forall point, point ∈ points ->
     SFltb kDist (norm (getVector3fMap point)) = false
     /\ GetCellIndex (resolution_ st) (transform pose (getVector3fMap point))
        = cell_of st point) ->
  exists st'' a,
    GetSurroundedCloud st' scan pose = Ok (st'', Some a)
    /\ grid_ st'' = grid_ st'
    /\ forall q,
         q ∈ cloud_at (heap_ st'') a
         <-> exists point,
               point ∈ points /\ q ∈ cell_cloud st' (cell_of st point).
Proof.
  intros Hok Ed Hun Hset E Hnear.
  destruct (InsertScan_after st st' scan points filtered Hok Ed Hun Hset E)
    as (Hok' & Ed' & Hres & Hex).
  rewrite (GetSurroundedCloud_spec st' scan pose points Ed').
  eexists _, _. split; [reflexivity|]. split; [reflexivity|].
  cbn [heap_]. rewrite cloud_at_app_end.
  intros q. rewrite elem_of_concat_map. split.
  - intros (a & Ha & Hq).
    destruct (Hset (omap (surrounding_cloud st' pose) points)) as [_ Hmem].
    apply Hmem, surrounding_cloud_spec in Ha as (p & Hp & _ & Ea).
    destruct (Hnear p Hp) as [_ Ecell]. rewrite Hres, Ecell in Ea.
    exists p. split; [done|]. unfold cell_cloud. now rewrite Ea.
  - intros (p & Hp & Hq). destruct (Hex p Hp) as [a Ea].
    exists a. split.
    + destruct (Hset (omap (surrounding_cloud st' pose) points)) as [_ Hmem].
      apply Hmem, surrounding_cloud_spec. exists p.
      destruct (Hnear p Hp) as [Hn Ecell].
      split; [done|]. split; [done|]. now rewrite Hres, Ecell.
    + unfold cell_cloud in Hq. now rewrite Ea in Hq.
Qed.

(** *** Further properties of the rounding and of the octants *)

Lemma float_div_opp (x y : float) :
  float_div (SFopp x) y = SFopp (float_div x y).
Proof.
  unfold float_div, SFdiv, SFopp.
  destruct x as [sx|sx| |sx mx ex], y as [sy|sy| |sy my ey];
    try reflexivity; try (now rewrite negb_xorb_l).
  destruct (SFdiv_core_binary 24 128 (Z.pos mx) ex (Z.pos my) ey)
    as [[mz ez] lz].
  unfold binary_round_aux.
  destruct (shr_fexp 24 128 mz ez lz) as [mrs e'].
  destruct (shr_fexp 24 128 _ e' loc_Exact) as [mrs' e''].
  rewrite <- negb_xorb_l.
  destruct (shr_m mrs'); [reflexivity| |reflexivity].
  destruct (e'' <=? 128 - 24); reflexivity.
Qed.

(** A quotient that [RoundToInt] turns into an [int] without leaving
    the range of the type: a zero, or a number whose rounding is between
    [-2^31] and [2^31], both excluded. *)
Definition rounds_to_int (q : float) : Prop :=
  match q with
  | S754_zero _ => True
  | S754_finite s m e => - 2 ^ 31 < lround_finite s m e < 2 ^ 31
  | _ => False
  end.

Lemma RoundToInt_opp (q : float) :
  rounds_to_int q -> RoundToInt (SFopp q) = - RoundToInt q.
Proof.
  unfold rounds_to_int, RoundToInt, lround, SFopp.
  destruct q as [s|s| |s m e]; try done.
  intros Hr.
  assert (Eo : lround_finite (negb s) m e = - lround_finite s m e).
  { unfold lround_finite. destruct s; simpl negb; cbv iota; lia. }
  rewrite Eo.
  replace (- 2 ^ 63 <=? - lround_finite s m e) with true
    by (symmetry; apply Z.leb_le; lia).
  replace (- lround_finite s m e <? 2 ^ 63) with true
    by (symmetry; apply Z.ltb_lt; lia).
  replace (- 2 ^ 63 <=? lround_finite s m e) with true
    by (symmetry; apply Z.leb_le; lia).
  replace (lround_finite s m e <? 2 ^ 63) with true
    by (symmetry; apply Z.ltb_lt; lia).
  cbn [andb]. rewrite !int32_small by (unfold is_int; lia). reflexivity.
Qed.

(** X14: the cells are symmetric about the origin: where the three
    quotients round to [int]s that the negation keeps in range, the cell
    of the point with the coordinates negated is the cell with the
    indices negated ([std::lround] rounds halves away from zero on both
    sides). *)
Theorem GetCellIndex_odd (resolution : float) (point : Vector3f) :
  rounds_to_int (float_div (vx point) resolution) ->
  rounds_to_int (float_div (vy point) resolution) ->
  rounds_to_int (float_div (vz point) resolution) ->
  GetCellIndex resolution
    (V3f (SFopp (vx point)) (SFopp (vy point)) (SFopp (vz point)))
  = A3 (- ax (GetCellIndex resolution point))
       (- ay (GetCellIndex resolution point))
       (- az (GetCellIndex resolution point)).
Proof.
  intros Hx Hy Hz. unfold GetCellIndex. cbn [vx vy vz ax ay az].
  rewrite !float_div_opp, !RoundToInt_opp by done. reflexivity.
Qed.

(** X15: [GetOctant] lists the octants in the order of the flat index:
    for [i] from 0 to 7 the octant is the index [To3DIndex] gives for one
    bit, its coordinates are 0 or 1, and [ToFlatIndex] leads back to
    [i]. *)
Theorem GetOctant_To3DIndex (i : Z) :
  0 <= i < 8 ->
  GetOctant i = To3DIndex i 1
  /\ in_cube 2 (GetOctant i)
  /\ ToFlatIndex (GetOctant i) 1 = i.
Proof.
  intros Hi.
  assert (Hc : i = 0 \/ i = 1 \/ i = 2 \/ i = 3 \/ i = 4 \/ i = 5 \/ i = 6
               \/ i = 7) by lia.
  destruct Hc as [->|[->|[->|[->|[->|[->|[->| ->]]]]]]];
    (split; [reflexivity|]; split; [|reflexivity]);
    vm_compute; intuition congruence.
Qed.

End HybridGridFacts.

(** ** The traversal order of the sets of handles

    A [boost::unordered_set] promises no order. What the two operations
    return with another order is compared here. *)

(** The same library with the sets traversed in another order. *)
Definition with_unordered_set {PointType : Type}
  (pcl : PointCloudLibrary PointType) (set : list nat -> list nat)
  : PointCloudLibrary PointType :=
  {| getVector3fMap := getVector3fMap;
     Rigid3d := Rigid3d;
     transform := transform;
     norm := norm;
     filter := filter;
     unordered_set := set |}.

Lemma unordered_sets_Permutation (set1 set2 : list nat -> list nat)
  (l : list nat) :
  is_unordered_set set1 -> is_unordered_set set2 -> set1 l ≡ₚ set2 l.
Proof.
  intros H1 H2. destruct (H1 l) as [Hn1 Hm1], (H2 l) as [Hn2 Hm2].
  apply NoDup_Permutation; [done|done|].
  intros a. now rewrite Hm1, Hm2.
Qed.

Lemma filter_clouds_order {PointType : Type}
  {pcl : PointCloudLibrary PointType} (heap : list (list PointType))
  (handles1 handles2 : list nat) :
  NoDup handles1 -> NoDup handles2 -> handles1 ≡ₚ handles2 ->
  filter_clouds heap handles1 = filter_clouds heap handles2.
Proof.
  intros Hn1 Hn2 Hp. apply list_eq. intros a.
  rewrite !filter_clouds_lookup by done.
  destruct (decide (a ∈ handles1)) as [Hin|Hnin].
  - rewrite decide_True by now rewrite <- Hp. done.
  - rewrite decide_False by now rewrite <- Hp. done.
Qed.

Lemma concat_map_Permutation {A B} (f : A -> list B) (l1 l2 : list A) :
  l1 ≡ₚ l2 -> concat (map f l1) ≡ₚ concat (map f l2).
Proof.
  induction 1 as [|x l1 l2 Hp IH|x y l|l1 l2 l3 H12 IH12 H23 IH23]; simpl.
  - done.
  - now rewrite IH.
  - rewrite !app_assoc. f_equiv. apply Permutation_app_comm.
  - now rewrite IH12.
Qed.

(** X18: the state [InsertScan] leaves does not depend on the order in
    which the set of the touched clouds is traversed: with any other
    order it ends the same way, in the same state, having filtered the
    same clouds. *)
Theorem InsertScan_any_set_order {libc : Lround} {PointType : Type}
  (pcl : PointCloudLibrary PointType) (set : list nat -> list nat)
  (st : State PointType) (scan : PointCloudPtr) :
  is_unordered_set (unordered_set (PointCloudLibrary := pcl)) ->
  is_unordered_set set ->
  match InsertScan (pcl := pcl) st scan,
        InsertScan (pcl := with_unordered_set pcl set) st scan with
  | Ok (st1, filtered1), Ok (st2, filtered2) =>
      st1 = st2 /\ filtered1 ≡ₚ filtered2
  | Fatal, Fatal | Undefined, Undefined | OutOfFuel, OutOfFuel => True
  | _, _ => False
  end.
Proof.
  intros H1 H2. unfold InsertScan.
  destruct (deref (heap_ st) scan) as [points| | |]; simpl; try done.
  destruct points as [|p0 points0]; [done|].
  change (insert_points (pcl := with_unordered_set pcl set) scan st
            (p0 :: points0))
    with (insert_points (pcl := pcl) scan st (p0 :: points0)).
  destruct (insert_points scan st (p0 :: points0)) as [st1| | |]; simpl;
    try done.
  change (inserted_by_scan (pcl := with_unordered_set pcl set) st1
            (p0 :: points0))
    with (inserted_by_scan (pcl := pcl) st1 (p0 :: points0)).
  set (touched := inserted_by_scan st1 (p0 :: points0)).
  pose proof (unordered_sets_Permutation _ _ touched H1 H2) as Hp.
  split; [|exact Hp]. f_equal.
  exact (filter_clouds_order (pcl := pcl) (heap_ st1)
           (unordered_set touched) (set touched)
           (proj1 (H1 touched)) (proj1 (H2 touched)) Hp).
Qed.

(** X19: the cloud [GetSurroundedCloud] returns depends on that order
    only in the order of its points: with any other order the call ends
    the same way, returns the same handle, leaves the same grid, and the
    new cloud is a permutation of the other one. *)
Theorem GetSurroundedCloud_any_set_order {libc : Lround} {PointType : Type}
  (pcl : PointCloudLibrary PointType) (set : list nat -> list nat)
  (st : State PointType) (scan : PointCloudPtr)
  (pose : Rigid3d (PointCloudLibrary := pcl)) :
  is_unordered_set (unordered_set (PointCloudLibrary := pcl)) ->
  is_unordered_set set ->
  match GetSurroundedCloud (pcl := pcl) st scan pose,
        GetSurroundedCloud (pcl := with_unordered_set pcl set) st scan pose
  with
  | Ok (st1, cloud1), Ok (st2, cloud2) =>
      cloud1 = cloud2 /\ grid_ st1 = grid_ st2
      /\ resolution_ st1 = resolution_ st2
      /\ exists surround1 surround2,
           heap_ st1 = heap_ st ++ [surround1]
           /\ heap_ st2 = heap_ st ++ [surround2]
           /\ surround1 ≡ₚ surround2
  | Fatal, Fatal | Undefined, Undefined | OutOfFuel, OutOfFuel => True
  | _, _ => False
  end.
Proof.
  intros H1 H2. unfold GetSurroundedCloud.
  destruct (deref (heap_ st) scan) as [points| | |]; simpl; try done.
  split; [done|]. split; [done|]. split; [done|].
  exists (concat (map (cloud_at (heap_ st))
                   (inserted_grids (pcl := pcl) st pose points))),
    (concat (map (cloud_at (heap_ st))
               (inserted_grids (pcl := with_unordered_set pcl set) st pose
                  points))).
  split; [reflexivity|]. split; [reflexivity|].
  apply concat_map_Permutation.
  exact (unordered_sets_Permutation _ _
           (omap (surrounding_cloud (pcl := pcl) st pose) points) H1 H2).
Qed.


(** ** The claims on concrete grids *)

(** A grid of cloud handles with one cell written. *)
Definition example_grid : GridBase PointCloudPtr :=
  match DynamicGrid.write DynamicGrid.new (A3 0 0 0) (Some 1%nat) with
  | Ok g => g
  | _ => DynamicGrid.new
  end.

Lemma example_grid_reachable : DynamicGrid_reachable example_grid.
Proof.
  apply (reachable_write DynamicGrid.new (A3 0 0 0) (Some 1%nat)).
  - apply reachable_new.
  - unfold is_int3, is_int. simpl. lia.
  - vm_compute. reflexivity.
Defined.

Lemma C1_witness :
  exists g',
    write_all example_grid
      [(A3 5 (-3) 0, Some 2%nat); (A3 (-8192) 8191 100, Some 3%nat);
       (A3 5 (-3) 0, Some 4%nat)] = Ok g'
    /\ forall i, is_int3 i ->
         DynamicGrid.value g' i
         = last_written
             [(A3 5 (-3) 0, Some 2%nat); (A3 (-8192) 8191 100, Some 3%nat);
              (A3 5 (-3) 0, Some 4%nat)] i (DynamicGrid.value example_grid i).
Proof.
  refine (proj1 (C1_value_returns_last_write example_grid _ _ _)).
  - exact example_grid_reachable.
  - repeat constructor; unfold addressable; simpl; lia.
Defined.



Lemma C3_witness :
  exists g' s,
    DynamicGrid.mutable_value example_grid (A3 8191 0 0) = Ok (g', s).
Proof.
  exact (proj1 (C3_hard_limit example_grid (Some 2%nat) example_grid_reachable)).
Defined.

Lemma C4_witness :
  DynamicGrid.iterate example_grid
  = omap (cell_entry (DynamicGrid.value example_grid))
         (iteration_order (DynamicGrid.bits_ example_grid)).
Proof.
  exact (proj1 (C4_iteration_complete_ordered example_grid
                  example_grid_reachable)).
Defined.


(** ** The claims on a concrete map *)

(** The numbers 1, 0.5, 2.5, -0.5 and 150 in single precision. *)
Definition one : float := S754_finite false 8388608 (-23).
Definition half : float := S754_finite false 8388608 (-24).
Definition five_halves : float := S754_finite false 10485760 (-22).
Definition minus_half : float := S754_finite true 8388608 (-24).
Definition far : float := S754_finite false 9830400 (-16).

(** Points that are their coordinates, poses that are translations, the
    norm computed in single precision, a filter that keeps the first
    point of a cloud, and a set of handles that is traversed in an order
    of its own. *)
Definition example_norm (v : Vector3f) : float :=
  SFsqrt 24 128
    (SFadd 24 128
       (SFadd 24 128 (SFmul 24 128 (vx v) (vx v)) (SFmul 24 128 (vy v) (vy v)))
       (SFmul 24 128 (vz v) (vz v))).

Definition example_transform (t v : Vector3f) : Vector3f :=
  V3f (SFadd 24 128 (vx t) (vx v)) (SFadd 24 128 (vy t) (vy v))
      (SFadd 24 128 (vz t) (vz v)).

Definition example_filter (cloud : list Vector3f) : list Vector3f :=
  take 1 cloud.

Definition example_scan : list Vector3f :=
  [V3f half five_halves minus_half; V3f one half one;
   V3f far one one; V3f half five_halves minus_half].

Definition example_state : State Vector3f :=
  HybridGridImpl one [example_scan; []].

Definition example_lround : Lround := 0.

Definition example_library (filter : list Vector3f -> list Vector3f)
  : PointCloudLibrary Vector3f :=
  {| getVector3fMap := id;
     Rigid3d := Vector3f;
     transform := example_transform;
     norm := example_norm;
     filter := filter;
     unordered_set := remove_dups |}.

Definition example_InsertScan (filter : list Vector3f -> list Vector3f)
  : State Vector3f -> PointCloudPtr -> Outcome (State Vector3f * list nat) :=
  @InsertScan example_lround Vector3f (example_library filter).

Definition example_GetSurroundedCloud
  : State Vector3f -> PointCloudPtr -> Vector3f
    -> Outcome (State Vector3f * PointCloudPtr) :=
  @GetSurroundedCloud example_lround Vector3f (example_library example_filter).

Definition origin : Vector3f :=
  V3f (S754_zero false) (S754_zero false) (S754_zero false).

(** The map after the scan at address 0 was inserted. *)
Definition example_map : State Vector3f :=
  match example_InsertScan example_filter example_state (Some 0%nat) with
  | Ok (st, _) => st
  | _ => example_state
  end.

Lemma remove_dups_is_unordered_set : is_unordered_set remove_dups.
Proof.
  intros l. split; [apply NoDup_remove_dups|].
  intros a. apply elem_of_remove_dups.
Qed.

Lemma example_state_unowned (s : nat) : unowned example_state s.
Proof.
  intros i Hi. unfold example_state, HybridGridImpl. simpl.
  rewrite (DynamicGrid_new_value (V:=PointCloudPtr)). discriminate.
Qed.

Lemma example_map_ok : State_ok example_map.
Proof.
  pose proof (@InsertScan_spec example_lround Vector3f
                (example_library example_filter) example_state (Some 0%nat) example_scan
                (State_ok_new one _) eq_refl
                (fun s _ => example_state_unowned s)) as Hs.
  unfold example_map, example_InsertScan.
  destruct (@InsertScan example_lround Vector3f
              (example_library example_filter) example_state (Some 0%nat)) as [[st l]| | |];
    [apply Hs|apply State_ok_new..].
Qed.

(** The claim C5 fails for the point (0.5, 2.5, -0.5) at resolution 1:
    the quotient of the first axis is exactly 1/2, half-to-even rounding
    gives 0, and the index is 1. *)
Lemma C5_counterexample :
  exact_value (float_div half one) = Some (8388608, 16777216)
  /\ round_half_to_even 8388608 16777216 = 0
  /\ @GetCellIndex example_lround one (V3f half five_halves minus_half) = A3 1 3 (-1)
  /\ @GetCellIndex example_lround one (V3f half five_halves minus_half)
     <> A3 (round_half_to_even 1 2) (round_half_to_even 5 2)
          (round_half_to_even (-1) 2).
Proof. vm_compute. repeat split; congruence. Qed.


Lemma C7_witness :
  exists st' cloud,
    example_GetSurroundedCloud example_map (Some 0%nat) origin
    = Ok (st', cloud)
    /\ grid_ st' = grid_ example_map
    /\ heap_ example_map !! length (heap_ example_map) = None.
Proof.
  pose proof (@C7_GetSurroundedCloud_reads_only example_lround Vector3f
                (example_library example_filter) example_map
                (Some 0%nat) origin) as Hs.
  pose proof example_map_ok as Hok.
  specialize (Hs Hok). destruct Hs as [Hs _].
  unfold example_GetSurroundedCloud.
  destruct (@GetSurroundedCloud example_lround Vector3f
              (example_library example_filter) example_map (Some 0%nat)
              origin)
    as [[st' cloud]| | |].
  - exists st', cloud. split; [reflexivity|]. split; apply Hs.
  - destruct Hs.
  - vm_compute in Hs. discriminate Hs.
  - destruct Hs.
Defined.

Lemma C8_witness :
  example_InsertScan example_filter example_state (Some 1%nat)
  = Ok (example_state, []).
Proof.
  refine (proj1 (@C8_empty_scan example_lround Vector3f
                   (example_library example_filter) example_state
                   (Some 1%nat) origin _ _)).
  - reflexivity.
  - exact remove_dups_is_unordered_set.
Defined.

(** The claim C8 fails for the null handle: both operations dereference
    it. *)
Lemma C8_counterexample :
  example_InsertScan example_filter example_state None = Undefined
  /\ example_GetSurroundedCloud example_state None origin = Undefined.
Proof. split; reflexivity. Qed.

Lemma C10_witness :
  exists st' filtered,
    example_InsertScan (fun _ => []) example_state (Some 0%nat)
    = Ok (st', filtered)
    /\ forall point, point ∈ example_scan ->
         exists a,
           DynamicGrid.value (grid_ st')
             (@cell_of example_lround Vector3f (example_library (fun _ => [])) example_state point) = Some a
           /\ (@cell_of example_lround Vector3f (example_library (fun _ => [])) example_state point, Some a)
                ∈ DynamicGrid.iterate (grid_ st')
           /\ cell_cloud st' (@cell_of example_lround Vector3f (example_library (fun _ => [])) example_state point) = [].
Proof.
  destruct (@C10_allocated_cell_stays example_lround Vector3f
              (example_library (fun _ => [])) example_state
              (Some 0%nat) example_scan)
    as (st' & filtered & E & _ & Hcells & _).
  - apply State_ok_new.
  - reflexivity.
  - intros s _. apply example_state_unowned.
  - repeat constructor; vm_compute; repeat split; congruence.
  - exact remove_dups_is_unordered_set.
  - exists st', filtered. split; [exact E|].
    intros point Hp. destruct (Hcells point Hp) as (a & Ea & Hit & _ & Hcloud).
    exists a. split; [done|]. split; [done|]. now apply Hcloud.
Defined.

(** ** The further properties on concrete inputs *)



(** A nested grid of flat grids, as GridBase wraps it, new and with one
    cell written. *)
Definition example_nested : NestedGrid.t (FlatGrid.t PointCloudPtr 3) 3 :=
  NestedGrid.new 3.

Definition example_nested_written
  : NestedGrid.t (FlatGrid.t PointCloudPtr 3) 3 :=
  let '(g, s) := NestedGrid.mutable_value 3 example_nested (A3 9 2 3) in
  NestedGrid.slot_set 3 g s (Some 7%nat).

Lemma example_nested_wf : NestedGrid_wf 3 example_nested.
Proof. apply NestedGrid_new_wf. lia. Qed.

Lemma example_nested_written_wf : NestedGrid_wf 3 example_nested_written.
Proof.
  unfold example_nested_written.
  destruct (NestedGrid.mutable_value 3 example_nested (A3 9 2 3))
    as [g s] eqn:E.
  assert (Hi : in_cube (NestedGrid.size (W:=FlatGrid.t PointCloudPtr 3) 3)
                 (A3 9 2 3)) by (vm_compute; intuition congruence).
  destruct (NestedGrid_mutable_value_spec 3 ltac:(lia) example_nested
              (A3 9 2 3) g s example_nested_wf Hi E) as (Hwf & Hs & _).
  now apply (NestedGrid_slot_set_spec 3 ltac:(lia) g s (A3 9 2 3)).
Qed.

Lemma NestedGrid_mutable_value_allocates_one_witness :
  exists w,
    NestedGrid.meta_cells_
      (NestedGrid.mutable_value 3 example_nested (A3 9 2 3)).1
      !! Z.to_nat (ToFlatIndex
                     (MetaCells.GetMetaIndex (W:=FlatGrid.t PointCloudPtr 3)
                        (A3 9 2 3)) 3)
    = Some (Some w).
Proof.
  destruct (NestedGrid.mutable_value 3 example_nested (A3 9 2 3))
    as [g s] eqn:E.
  refine (proj1 (NestedGrid_mutable_value_allocates_one 3 _ example_nested g
                   (A3 9 2 3) s example_nested_wf _ E)).
  - lia.
  - vm_compute. intuition congruence.
Defined.

Lemma NestedGrid_iteration_witness :
  iter_collect (iter_fuel (iter_begin example_nested_written))
    (iter_begin example_nested_written)
  = omap (cell_entry (NestedGrid.value 3 example_nested_written))
         (NestedGrid_order (W:=FlatGrid.t PointCloudPtr 3) 3).
Proof.
  refine (proj1 (NestedGrid_iteration 3 _ example_nested_written
                   example_nested_written_wf)).
  lia.
Defined.

Lemma NestedGrid_iterator_on_a_cell_witness :
  iter_Done (MetaCells.nested_iterator_
               (Nat.iter 0 MetaCells.Next
                  (NestedGrid.begin 3 example_nested_written)))
  = false.
Proof.
  refine (NestedGrid_iterator_on_a_cell 3 example_nested_written 0
            example_nested_written_wf _).
  intros k Hk. assert (k = 0%nat) by lia. subst k. vm_compute. reflexivity.
Defined.

Lemma mutable_value_twice_witness :
  exists g' s,
    DynamicGrid.mutable_value example_grid (A3 5 (-3) 0) = Ok (g', s)
    /\ DynamicGrid.mutable_value g' (A3 5 (-3) 0) = Ok (g', s).
Proof.
  destruct (DynamicGrid.mutable_value example_grid (A3 5 (-3) 0))
    as [[g' s]| | |] eqn:E.
  - exists g', s. split; [reflexivity|].
    exact (mutable_value_twice example_grid g' (A3 5 (-3) 0) s E).
  - vm_compute in E. discriminate E.
  - vm_compute in E. discriminate E.
  - vm_compute in E. discriminate E.
Defined.

Lemma mutable_value_grows_minimally_witness :
  exists g' s,
    DynamicGrid.mutable_value example_grid (A3 100 0 0) = Ok (g', s)
    /\ covers (W:=NestedGrid.t (FlatGrid.t PointCloudPtr 3) 3)
         (DynamicGrid.bits_ g') (A3 100 0 0).
Proof.
  destruct (DynamicGrid.mutable_value example_grid (A3 100 0 0))
    as [[g' s]| | |] eqn:E.
  - exists g', s. split; [reflexivity|].
    refine (proj1 (mutable_value_grows_minimally example_grid g' (A3 100 0 0)
                     s example_grid_reachable _ E)).
    unfold is_int3, is_int. simpl. lia.
  - vm_compute in E. discriminate E.
  - vm_compute in E. discriminate E.
  - vm_compute in E. discriminate E.
Defined.

Lemma Grow_iterate_Permutation_witness :
  exists g',
    DynamicGrid.Grow example_grid = Some g'
    /\ DynamicGrid.iterate g' ≡ₚ DynamicGrid.iterate example_grid.
Proof.
  destruct (DynamicGrid.Grow example_grid) as [g'|] eqn:E.
  - exists g'. split; [reflexivity|].
    exact (Grow_iterate_Permutation example_grid g' example_grid_reachable E).
  - vm_compute in E. discriminate E.
Defined.

Lemma write_iterate_witness :
  exists g',
    DynamicGrid.write example_grid (A3 5 (-3) 0) (Some 2%nat) = Ok g'
    /\ (A3 5 (-3) 0, Some 2%nat) ∈ DynamicGrid.iterate g'.
Proof.
  destruct (DynamicGrid.write example_grid (A3 5 (-3) 0) (Some 2%nat))
    as [g'| | |] eqn:E.
  - exists g'. split; [reflexivity|].
    assert (Hi : is_int3 (A3 5 (-3) 0))
      by (unfold is_int3, is_int; simpl; lia).
    apply (write_iterate example_grid g' (A3 5 (-3) 0) (Some 2%nat)
             example_grid_reachable Hi E (A3 5 (-3) 0) (Some 2%nat) Hi).
    left. split; [reflexivity|]. split; [reflexivity|]. discriminate.
  - vm_compute in E. discriminate E.
  - vm_compute in E. discriminate E.
  - vm_compute in E. discriminate E.
Defined.

Lemma unsigned_cast_is_range_check_witness :
  any_ge_unsigned (DynamicGrid.shifted_index example_grid (A3 63 0 (-64)))
    (DynamicGrid.grid_size example_grid)
  = false.
Proof.
  refine (proj2 (unsigned_cast_is_range_check example_grid (A3 63 0 (-64))
                   _ _) _).
  - vm_compute. intuition congruence.
  - unfold is_int3, is_int. simpl. lia.
  - vm_compute. intuition congruence.
Defined.

Lemma range_check_guards_debug_checks_witness :
  in_cube (Z.shiftl 1 (DynamicGrid.bits_ example_grid))
    (MetaCells.GetMetaIndex (W:=NestedGrid.t (FlatGrid.t PointCloudPtr 3) 3)
       (DynamicGrid.shifted_index example_grid (A3 63 0 (-64)))).
Proof.
  assert (Hb : 1 <= DynamicGrid.bits_ example_grid <= 8)
    by (vm_compute; intuition congruence).
  assert (Hi : is_int3 (A3 63 0 (-64)))
    by (unfold is_int3, is_int; simpl; lia).
  assert (Hc : any_ge_unsigned
                 (DynamicGrid.shifted_index example_grid (A3 63 0 (-64)))
                 (DynamicGrid.grid_size example_grid) = false)
    by (vm_compute; reflexivity).
  pose proof (range_check_guards_debug_checks example_grid (A3 63 0 (-64))
                Hb Hi Hc) as H.
  cbv zeta in H. exact (proj1 (proj2 H)).
Defined.

(** A scan whose points are all within the radius, in a new map. *)
Definition example_near_scan : list Vector3f :=
  [V3f half five_halves minus_half; V3f one half one;
   V3f half five_halves minus_half].

Definition example_near_state : State Vector3f :=
  HybridGridImpl one [example_near_scan].

Lemma example_near_state_unowned (s : nat) : unowned example_near_state s.
Proof.
  intros i Hi. unfold example_near_state, HybridGridImpl. simpl.
  rewrite (DynamicGrid_new_value (V:=PointCloudPtr)). discriminate.
Qed.

Lemma example_scan_addressable :
  Forall (fun point =>
            addressable (@cell_of example_lround Vector3f
                           (example_library example_filter) example_state
                           point))
         example_scan.
Proof. repeat constructor; vm_compute; intuition congruence. Qed.

Lemma InsertScan_cell_clouds_witness :
  exists st' filtered,
    example_InsertScan example_filter example_state (Some 0%nat)
    = Ok (st', filtered)
    /\ resolution_ st' = resolution_ example_state.
Proof.
  destruct (@InsertScan_cell_clouds example_lround Vector3f
              (example_library example_filter) example_state (Some 0%nat)
              example_scan)
    as (st' & filtered & E & Hres & _).
  - apply State_ok_new.
  - reflexivity.
  - intros s _. apply example_state_unowned.
  - exact example_scan_addressable.
  - exact remove_dups_is_unordered_set.
  - exists st', filtered. split; [exact E|exact Hres].
Defined.

Lemma InsertScan_fatal_iff_witness :
  exists st' filtered,
    example_InsertScan example_filter example_state (Some 0%nat)
    = Ok (st', filtered).
Proof.
  refine (proj2 (proj2 (@InsertScan_fatal_iff example_lround Vector3f
                          (example_library example_filter) example_state
                          (Some 0%nat) example_scan _ _ _)) _).
  - apply State_ok_new.
  - reflexivity.
  - intros s _. apply example_state_unowned.
  - exact example_scan_addressable.
Defined.

Lemma InsertScan_keeps_other_clouds_witness :
  exists st' filtered,
    example_InsertScan example_filter example_state (Some 0%nat)
    = Ok (st', filtered)
    /\ heap_ st' !! 0%nat = heap_ example_state !! 0%nat
    /\ heap_ st' !! 1%nat = heap_ example_state !! 1%nat.
Proof.
  unfold example_InsertScan.
  destruct (@InsertScan example_lround Vector3f
              (example_library example_filter) example_state (Some 0%nat))
    as [[st' filtered]| | |] eqn:E; [|vm_compute in E; discriminate E..].
  pose proof (@InsertScan_keeps_other_clouds example_lround Vector3f
                (example_library example_filter) example_state st'
                (Some 0%nat) example_scan filtered (State_ok_new _ _) eq_refl
                (fun s _ => example_state_unowned s)
                remove_dups_is_unordered_set E) as Hk.
  destruct Hk as (_ & _ & _ & Hframe).
  exists st', filtered. split; [reflexivity|]. split.
  - apply (Hframe 0%nat); [simpl; lia|apply example_state_unowned].
  - apply (Hframe 1%nat); [simpl; lia|apply example_state_unowned].
Defined.

Lemma GetSurroundedCloud_new_map_witness :
  example_GetSurroundedCloud example_state (Some 0%nat) origin
  = Ok (BuildState one DynamicGrid.new ([example_scan; []] ++ [[]]),
        Some 2%nat).
Proof.
  refine (@GetSurroundedCloud_new_map example_lround Vector3f
            (example_library example_filter) one [example_scan; []]
            (Some 0%nat) origin example_scan _ _).
  - reflexivity.
  - exact remove_dups_is_unordered_set.
Defined.

Lemma example_near_scan_near (point : Vector3f) :
  point ∈ example_near_scan ->
  SFltb kDist (example_norm point) = false
  /\ @GetCellIndex example_lround one (example_transform origin point)
     = @GetCellIndex example_lround one point.
Proof.
  intros Hp.
  repeat (apply elem_of_cons in Hp as [->|Hp];
          [vm_compute; split; reflexivity|]).
  inversion Hp.
Qed.

Lemma GetSurroundedCloud_after_InsertScan_witness :
  exists st' filtered st'' a,
    example_InsertScan example_filter example_near_state (Some 0%nat)
    = Ok (st', filtered)
    /\ example_GetSurroundedCloud st' (Some 0%nat) origin = Ok (st'', Some a)
    /\ grid_ st'' = grid_ st'.
Proof.
  unfold example_InsertScan, example_GetSurroundedCloud.
  destruct (@InsertScan example_lround Vector3f
              (example_library example_filter) example_near_state
              (Some 0%nat)) as [[st' filtered]| | |] eqn:E;
    [|vm_compute in E; discriminate E..].
  pose proof (@GetSurroundedCloud_after_InsertScan example_lround Vector3f
                (example_library example_filter) example_near_state st'
                (Some 0%nat) example_near_scan filtered origin
                (State_ok_new _ _) eq_refl
                (fun s _ => example_near_state_unowned s)
                remove_dups_is_unordered_set E example_near_scan_near) as Hk.
  destruct Hk as (st'' & a & E2 & Hg & _).
  exists st', filtered, st'', a. split; [reflexivity|]. split; [exact E2|].
  exact Hg.
Defined.

Lemma GetCellIndex_odd_witness :
  @GetCellIndex example_lround one
    (V3f (SFopp half) (SFopp five_halves) (SFopp minus_half))
  = A3 (- ax (@GetCellIndex example_lround one
                (V3f half five_halves minus_half)))
       (- ay (@GetCellIndex example_lround one
                (V3f half five_halves minus_half)))
       (- az (@GetCellIndex example_lround one
                (V3f half five_halves minus_half))).
Proof.
  refine (@GetCellIndex_odd example_lround one
            (V3f half five_halves minus_half) _ _ _);
    vm_compute; intuition congruence.
Defined.

Lemma GetOctant_To3DIndex_witness : GetOctant 5 = To3DIndex 5 1.
Proof. refine (proj1 (GetOctant_To3DIndex 5 _)). lia. Defined.

(** A fusion with three local poses and two fixed points. *)
Definition example_fusion : GpsFusion.t unit unit :=
  GpsFusion.Build
    [GpsFusion.BuildFixedPoint 5 tt; GpsFusion.BuildFixedPoint 20 tt]
    [GpsFusion.BuildLocalPose 0 tt; GpsFusion.BuildLocalPose 10 tt;
     GpsFusion.BuildLocalPose 20 tt].

Lemma example_fusion_reachable : GpsFusion_reachable example_fusion.
Proof.
  apply (reachable_AddFixedPoint
           (GpsFusion.Build [GpsFusion.BuildFixedPoint 5 tt]
              [GpsFusion.BuildLocalPose 0 tt; GpsFusion.BuildLocalPose 10 tt;
               GpsFusion.BuildLocalPose 20 tt]) 20 tt); [|reflexivity].
  apply (reachable_AddLocalPose
           (GpsFusion.Build [GpsFusion.BuildFixedPoint 5 tt]
              [GpsFusion.BuildLocalPose 0 tt; GpsFusion.BuildLocalPose 10 tt])
           20 tt); [|reflexivity].
  apply (reachable_AddFixedPoint
           (GpsFusion.Build []
              [GpsFusion.BuildLocalPose 0 tt; GpsFusion.BuildLocalPose 10 tt])
           5 tt); [|reflexivity].
  apply (reachable_AddLocalPose
           (GpsFusion.Build [] [GpsFusion.BuildLocalPose 0 tt]) 10 tt);
    [|reflexivity].
  apply (reachable_AddLocalPose GpsFusion.new 0 tt); [|reflexivity].
  apply reachable_GpsFusion.
Qed.

Lemma GpsFusion_timestamps_increase_witness :
  increasing (GpsFusion.lp_timestamp
                <$> GpsFusion.local_poses_ example_fusion).
Proof.
  exact (proj1 (proj2 (GpsFusion_timestamps_increase example_fusion
                         example_fusion_reachable))).
Defined.


(** Another traversal order of a set. *)
Definition reversed_set (l : list nat) : list nat := reverse (remove_dups l).

Lemma reversed_set_is_unordered_set : is_unordered_set reversed_set.
Proof.
  intros l. unfold reversed_set. split.
  - rewrite reverse_Permutation. apply NoDup_remove_dups.
  - intros a. rewrite elem_of_reverse. apply elem_of_remove_dups.
Qed.

Lemma InsertScan_any_set_order_witness :
  match example_InsertScan example_filter example_state (Some 0%nat),
        @InsertScan example_lround Vector3f
          (with_unordered_set (example_library example_filter) reversed_set)
          example_state (Some 0%nat) with
  | Ok (st1, filtered1), Ok (st2, filtered2) =>
      st1 = st2 /\ filtered1 ≡ₚ filtered2
  | Fatal, Fatal | Undefined, Undefined | OutOfFuel, OutOfFuel => True
  | _, _ => False
  end.
Proof.
  exact (@InsertScan_any_set_order example_lround Vector3f
           (example_library example_filter) reversed_set example_state
           (Some 0%nat) remove_dups_is_unordered_set
           reversed_set_is_unordered_set).
Defined.

Lemma GetSurroundedCloud_any_set_order_witness :
  match example_GetSurroundedCloud example_map (Some 0%nat) origin,
        @GetSurroundedCloud example_lround Vector3f
          (with_unordered_set (example_library example_filter) reversed_set)
          example_map (Some 0%nat) origin with
  | Ok (st1, cloud1), Ok (st2, cloud2) =>
      cloud1 = cloud2 /\ grid_ st1 = grid_ st2
      /\ resolution_ st1 = resolution_ st2
      /\ exists surround1 surround2,
           heap_ st1 = heap_ example_map ++ [surround1]
           /\ heap_ st2 = heap_ example_map ++ [surround2]
           /\ surround1 ≡ₚ surround2
  | Fatal, Fatal | Undefined, Undefined | OutOfFuel, OutOfFuel => True
  | _, _ => False
  end.
Proof.
  exact (@GetSurroundedCloud_any_set_order example_lround Vector3f
           (example_library example_filter) reversed_set example_map
           (Some 0%nat) origin remove_dups_is_unordered_set
           reversed_set_is_unordered_set).
Defined.
